(** * pyinterp: interpolation, gap filling, binning and the geodetic R*-tree

    A shallow embedding of the numerical core of pyinterp and the proofs of
    the properties its design document states about it.

    Conventions of the embedding.
    - A C++ [double]/[float] is a [double]: either [NaN] or a rational
      [Fin q].  Arithmetic is exact; rounding and the infinities are not
      represented, and a division by zero yields [NaN].
    - An Eigen matrix or a NumPy array is a [Matrix]: its shape and a finite
      map from index pairs to cells.  Reading outside the shape is undefined
      behaviour in the source and gives [None] here; writing outside the
      shape is ignored.
    - [detail::dispatch] splits an index range between workers that write
      disjoint output elements; it is run as one worker over the whole
      range.  The thread partition that [poisson_grid_fill] writes by hand
      is modelled as written, its strips run in launch order.
    - An exception is a value: a function that can throw returns a
      [result]. *)

From Stdlib Require Import QArith Qabs Qround Qminmax Lqa.
From stdpp Require Import base option list gmap.

Set Default Proof Using "Type".
Local Open Scope Q_scope.

(** ** Floating point values *)

Inductive double : Type :=
| NaN : double
| Fin (q : Q) : double.

Module Double.

Definition isnan (a : double) : bool :=
  match a with NaN => true | Fin _ => false end.

Definition lift1 (f : Q → Q) (a : double) : double :=
  match a with Fin x => Fin (f x) | NaN => NaN end.

Definition lift2 (f : Q → Q → Q) (a b : double) : double :=
  match a, b with Fin x, Fin y => Fin (f x y) | _, _ => NaN end.

Definition add := lift2 Qplus.
Definition sub := lift2 Qminus.
Definition mul := lift2 Qmult.

Definition div (a b : double) : double :=
  match a, b with
  | Fin x, Fin y => if Qeq_bool y 0 then NaN else Fin (x / y)
  | _, _ => NaN
  end.

Definition fabs := lift1 Qabs.

(** [a < b]; false as soon as one side is NaN. *)
Definition ltb (a b : double) : bool :=
  match a, b with
  | Fin x, Fin y => negb (Qle_bool y x)
  | _, _ => false
  end.

(** [a <= b]; false as soon as one side is NaN. *)
Definition leb (a b : double) : bool :=
  match a, b with
  | Fin x, Fin y => Qle_bool x y
  | _, _ => false
  end.

(** [a != b]; true as soon as one side is NaN. *)
Definition neqb (a b : double) : bool :=
  match a, b with
  | Fin x, Fin y => negb (Qeq_bool x y)
  | _, _ => true
  end.

(** [std::max(a, b)] is [(a < b) ? b : a]. *)
Definition max (a b : double) : double := if ltb a b then b else a.

(** Numerical equality of two values, both finite. *)
Definition eqv (a b : double) : Prop :=
  match a, b with
  | Fin x, Fin y => x == y
  | _, _ => False
  end.

End Double.

Declare Scope double_scope.
Delimit Scope double_scope with D.
Bind Scope double_scope with double.
Infix "+" := Double.add : double_scope.
Infix "-" := Double.sub : double_scope.
Infix "*" := Double.mul : double_scope.
Infix "/" := Double.div : double_scope.

(** ** detail/math/linear.hpp *)

Module Math.

(** [linear(x, x0, x1, y0, y1)]; the coordinates are of the axis type,
    the differences are cast to the type of the values. *)
Definition linear (x x0 x1 : Q) (y0 y1 : double) : double :=
  let dx := Fin (x1 - x0) in
  let t := (Fin (x1 - x) / dx)%D in
  let u := (Fin (x - x0) / dx)%D in
  (t * y0 + u * y1 / (t + u))%D.

(** The textbook formula [t.y0 + u.y1]. *)
Definition textbook (x x0 x1 y0 y1 : Q) : Q :=
  (x1 - x) / (x1 - x0) * y0 + (x - x0) / (x1 - x0) * y1.

End Math.

(** ** Exceptions *)

Inductive exception : Type :=
| InvalidArgument   (* std::invalid_argument *)
| OutOfDomain.      (* the index error of a grid, under bounds_error *)

(** A computation that returns or throws. *)
Definition result (A : Type) : Type := exception + A.

Definition ret {A} (a : A) : result A := inr a.
Definition throw {A} (e : exception) : result A := inl e.
Definition bind {A B} (c : result A) (k : A → result B) : result B :=
  match c with inl e => inl e | inr a => k a end.

Notation "'let!' x ':=' c 'in' k" := (bind c (λ x, k))
  (at level 10, x name, c at level 100, k at level 200).

(** ** Dense matrices *)

Record Matrix (A : Type) : Type := mkMatrix {
  rows : Z;
  cols : Z;
  data : gmap (Z * Z) A
}.
Arguments mkMatrix {A} _ _ _.
Arguments rows {A} _.
Arguments cols {A} _.
Arguments data {A} _.

(** [for (i = lo; i < hi; ++i) body(i)] on a state. *)
Definition for_range {S : Type} (lo hi : Z) (body : Z → S → S) (s : S) : S :=
  foldl (λ s i, body i s) s (seqZ lo (hi - lo)).

Module Mat.
Section Ops.
Context {A : Type}.

Definition in_shape (m : Matrix A) (i j : Z) : bool :=
  bool_decide (0 ≤ i < rows m ∧ 0 ≤ j < cols m)%Z.

(** [m(i, j)] read *)
Definition get (m : Matrix A) (i j : Z) : option A := data m !! (i, j).

(** [m(i, j) = v] *)
Definition set (m : Matrix A) (i j : Z) (v : A) : Matrix A :=
  if in_shape m i j
  then mkMatrix (rows m) (cols m) (<[(i, j) := v]> (data m))
  else m.

(** A matrix of the given shape, every cell holding [v]. *)
Definition make (r c : Z) (v : A) : Matrix A :=
  for_range 0 r (λ i m, for_range 0 c (λ j m, set m i j v) m)
    (mkMatrix r c ∅).

(** The matrix whose [i]-th row is the [i]-th list; the shape is taken
    from the first row. *)
Definition of_rows (l : list (list A)) : Matrix A :=
  let r := Z.of_nat (length l) in
  let c := Z.of_nat (length (default [] (head l))) in
  mkMatrix r c
    (list_to_map
       (concat (imap (λ i row, imap (λ j v, ((Z.of_nat i, Z.of_nat j), v)) row) l))).

(** Every cell of the shape is defined, and no other. *)
Definition wf (m : Matrix A) : Prop :=
  ∀ i j, is_Some (get m i j) ↔ (0 ≤ i < rows m ∧ 0 ≤ j < cols m)%Z.
End Ops.

Definition map {A B} (f : A → B) (m : Matrix A) : Matrix B :=
  mkMatrix (rows m) (cols m) (f <$> data m).

(** [m.hasNaN()] *)
Definition hasNaN (m : Matrix double) : bool :=
  bool_decide (map_Exists (λ _ v, Double.isnan v = true) (data m)).
End Mat.

(** ** fill.hpp: Poisson relaxation and LOESS *)

Module Fill.

Inductive FirstGuess : Type :=
| kZero           (* Use 0.0 as an initial guess *)
| kZonalAverage.  (* Use zonal average in x direction *)

(** [mask(ix, iy)] *)
Definition masked (mask : Matrix bool) (ix iy : Z) : bool :=
  default false (Mat.get mask ix iy).

(** State of a worker: the shared grid and the worker's own maximum
    residual. *)
Definition wstate : Type := Matrix double * double.

(** The lambda [cell_fill]: modifies the value of a masked pixel. *)
Definition cell_fill (relaxation : double) (ix0 ix ix1 iy0 iy iy1 : Z)
    (st : wstate) : wstate :=
  let '(grid, max_residual) := st in
  match Mat.get grid ix0 iy, Mat.get grid ix1 iy,
        Mat.get grid ix iy0, Mat.get grid ix iy1, Mat.get grid ix iy with
  | Some a, Some b, Some c, Some d, Some v =>
      let residual := ((Fin (1 # 4) * (a + b + c + d) - v) * relaxation)%D in
      (Mat.set grid ix iy (v + residual)%D,
       Double.max max_residual (Double.fabs residual))
  | _, _, _, _, _ => st
  end.

(** The body of the [iy] loop of the worker. *)
Definition strip (mask : Matrix bool) (is_circle : bool) (relaxation : double)
    (x_size y_size iy : Z) (st : wstate) : wstate :=
  let iy0 := if bool_decide (iy = 0)%Z then 1%Z else (iy - 1)%Z in
  let iy1 := if bool_decide (iy = y_size - 1)%Z then (y_size - 2)%Z else (iy + 1)%Z in
  let st :=
    for_range 1 (x_size - 1)
      (λ ix st,
         if masked mask ix iy
         then cell_fill relaxation (ix - 1) ix (ix + 1) iy0 iy iy1 st
         else st) st in
  let st :=
    if masked mask 0 iy
    then cell_fill relaxation (if is_circle then x_size - 1 else 1)%Z 0 1 iy0 iy iy1 st
    else st in
  if masked mask (x_size - 1) iy
  then cell_fill relaxation (x_size - 2) (x_size - 1)
         (if is_circle then 0 else x_size - 2)%Z iy0 iy iy1 st
  else st.

(** The lambda [worker]: processes the strips [y_start <= iy < y_end];
    returns the grid and the value left in [*max_residual]. *)
Definition worker (mask : Matrix bool) (is_circle : bool) (relaxation : double)
    (y_start y_end : Z) (grid : Matrix double) : wstate :=
  for_range y_start y_end
    (strip mask is_circle relaxation (rows grid) (cols grid))
    (grid, Fin 0).

(** The launch loop over all threads but the last: the ranges handed out
    and the value of [start] when the loop ends. *)
Fixpoint launch (n : nat) (start shift : Z) : list (Z * Z) * Z :=
  match n with
  | O => ([], start)
  | S n' =>
      let '(l, last) := launch n' (start + shift)%Z shift in
      ((start, (start + shift)%Z) :: l, last)
  end.

(** The ranges [(y_start, y_end)] given to the threads, in launch order. *)
Definition thread_ranges (num_threads : nat) (y_size : Z) : list (Z * Z) :=
  let shift := (y_size `div` Z.of_nat num_threads)%Z in
  let '(l, start) := launch (num_threads - 1) 0 shift in
  l ++ [(start, (y_size - 1)%Z)].

(** [*std::max_element(first, last)] *)
Definition max_element (l : list double) : double :=
  match l with
  | [] => NaN
  | x :: l' => foldl Double.max x l'
  end.

(** [detail::poisson_grid_fill]: one sweep; returns the grid and the
    maximum residual.  [fill::poisson] calls it with at least one thread. *)
Definition poisson_grid_fill (grid : Matrix double) (mask : Matrix bool)
    (is_circle : bool) (relaxation : double) (num_threads : nat)
    : Matrix double * double :=
  let y_size := cols grid in
  if bool_decide (num_threads = 1%nat) then
    let '(grid, r) := worker mask is_circle relaxation 0 y_size grid in
    (grid, max_element [r])
  else
    let '(grid, rs) :=
      foldl (λ '(grid, rs) '(y_start, y_end),
               let '(grid, r) := worker mask is_circle relaxation y_start y_end grid in
               (grid, rs ++ [r]))
            (grid, []) (thread_ranges num_threads y_size) in
    (grid, max_element rs).

(** [detail::set_zonal_average]: the masked values of a latitude band are
    replaced by the average of the defined values of the band, or by zero
    when it has none. *)
Definition set_zonal_average (grid : Matrix double) (mask : Matrix bool)
    : Matrix double :=
  for_range 0 (cols grid)
    (λ iy grid,
       let '(count, sum) :=
         for_range 0 (rows grid)
           (λ ix '(count, sum),
              if masked mask ix iy then (count, sum)
              else (S count, (sum + default NaN (Mat.get grid ix iy))%D))
           (O, Fin 0) in
       let first_guess :=
         match count with
         | O => Fin 0
         | S _ => (sum / Fin (inject_Z (Z.of_nat count)))%D
         end in
       for_range 0 (rows grid)
         (λ ix grid, if masked mask ix iy then Mat.set grid ix iy first_guess else grid)
         grid)
    grid.

(** The relaxation loop of [fill::poisson], [n] iterations left. *)
Fixpoint relax (n : nat) (mask : Matrix bool) (is_circle : bool)
    (epsilon : double) (relaxation : double) (num_threads : nat)
    (grid : Matrix double) (iteration : nat) (max_residual : double)
    : Matrix double * (nat * double) :=
  match n with
  | O => (grid, (iteration, max_residual))
  | S n' =>
      let iteration := S iteration in
      let '(grid, max_residual) :=
        poisson_grid_fill grid mask is_circle relaxation num_threads in
      if Double.ltb max_residual epsilon
      then (grid, (iteration, max_residual))
      else relax n' mask is_circle epsilon relaxation num_threads
             grid iteration max_residual
  end.

(** The position of the undefined values on the grid. *)
Definition undefined_mask (grid : Matrix double) : Matrix bool :=
  Mat.map Double.isnan grid.

(** The first guess with the chosen method. *)
Definition apply_first_guess (first_guess : FirstGuess) (grid : Matrix double)
    (mask : Matrix bool) : Matrix double :=
  match first_guess with
  | kZero => Mat.map (λ v, if Double.isnan v then Fin 0 else v) grid
  | kZonalAverage => set_zonal_average grid mask
  end.

(** The number of threads: all the CPUs when the user gives 0. *)
Definition effective_threads (hardware_concurrency num_threads : nat) : nat :=
  if bool_decide (num_threads = O) then hardware_concurrency else num_threads.

(** [fill::poisson]: the grid left in place, and the returned tuple.
    [hardware_concurrency] is the value of
    [std::thread::hardware_concurrency()]. *)
Definition poisson (hardware_concurrency : nat) (grid : Matrix double)
    (first_guess : FirstGuess) (is_circle : bool) (max_iterations : nat)
    (epsilon relaxation : double) (num_threads : nat)
    : Matrix double * (nat * double) :=
  if negb (Mat.hasNaN grid) then (grid, (O, Fin 0))
  else
    let num_threads := effective_threads hardware_concurrency num_threads in
    let mask := undefined_mask grid in
    let grid := apply_first_guess first_guess grid mask in
    relax max_iterations mask is_circle epsilon relaxation num_threads
      grid O (Fin 0).

End Fill.

(** ** Axes and grids *)

(** The class [Axis]: pyinterp/axis.hpp and pyinterp/detail/axis.hpp are
    missing, only the Python bindings of the class and its callers are
    known; the module follows the design document (3 and 4.A) and the
    docstrings of the bindings. *)
Module Axis.

(** Rule for indexing past an axis endpoint. *)
Inductive Boundary : Type := kExpand | kWrap | kSym | kUndef.

(** Modelled from the spec: the class [Axis], an ascending sequence of
    coordinates, possibly a circle of a given period. *)
Record t : Type := mk {
  points : list Q;
  is_circle : bool;
  period : Q
}.

Definition size (a : t) : Z := Z.of_nat (length (points a)).
Definition front (a : t) : Q := default 0 (head (points a)).
Definition back (a : t) : Q := default 0 (last (points a)).

(** [axis(i)] *)
Definition coordinate_value (a : t) (i : Z) : Q :=
  if bool_decide (0 ≤ i)%Z then default 0 (points a !! Z.to_nat i) else 0.

Definition is_angle (a : t) : bool := is_circle a.

(** Modelled from the spec: [Axis] reduces a coordinate modulo the period
    into [[x0, x0 + period)]. *)
Definition normalize (x x0 period : Q) : Q :=
  x - period * inject_Z (Qfloor ((x - x0) / period)).

Definition normalize_coordinate (a : t) (x : Q) : Q :=
  if is_circle a then normalize x (front a) (period a) else x.

(** Modelled from the spec: the search of [Axis::find_index], the index of
    the coordinate closest to [x] among [l], whose first index is [i]; the
    lower index on a tie. *)
Fixpoint closest (l : list Q) (x : Q) (i best : Z) (best_d : Q) : Z :=
  match l with
  | [] => best
  | v :: l' =>
      if negb (Qle_bool best_d (Qabs (x - v)))
      then closest l' x (i + 1) i (Qabs (x - v))
      else closest l' x (i + 1) best best_d
  end.

(** Modelled from the spec: [Axis::find_index(x, bounded)], the index of
    the closest coordinate; out of the domain of a non-circular axis it is
    -1, or the nearest endpoint when [bounded]. *)
Definition find_index (a : t) (x : Q) (bounded : bool) : Z :=
  let x := normalize_coordinate a x in
  match points a with
  | [] => (-1)%Z
  | v :: l =>
      if negb (Qle_bool (front a) x) then
        if bounded then 0%Z else (-1)%Z
      else if negb (Qle_bool x (back a)) then
        if is_circle a then
          if negb (Qle_bool (front a + period a - x) (x - back a))
          then 0%Z else (size a - 1)%Z
        else if bounded then (size a - 1)%Z else (-1)%Z
      else closest l x 1 0 (Qabs (x - v))
  end.

(** Modelled from the spec: [Axis::find_indexes(x)], the pair [(i0, i1)]
    with [axis(i0) <= x <= axis(i1)]; nothing out of the domain of a
    non-circular axis. *)
Definition find_indexes (a : t) (x : Q) : option (Z * Z) :=
  let x := normalize_coordinate a x in
  let below := Z.of_nat (length (filter (λ v, Qle_bool v x = true) (points a))) in
  if bool_decide (size a = 0)%Z then None
  else if negb (Qle_bool (front a) x) then None
  else if negb (Qle_bool x (back a)) then
    if is_circle a then Some ((size a - 1)%Z, 0%Z) else None
  else if bool_decide (below < size a)%Z then Some ((below - 1)%Z, below)
  else Some (Z.max 0 (size a - 2), (size a - 1)%Z).

(** Modelled from the spec: the boundary rules of [Axis], for an index past
    an endpoint. *)
Definition reindex (n : Z) (boundary : Boundary) (i : Z) : option Z :=
  if bool_decide (0 ≤ i < n)%Z then Some i
  else match boundary with
       | kExpand => Some (Z.max 0 (Z.min i (n - 1)))
       | kWrap => Some (i `mod` n)%Z
       | kSym =>
           let p := (2 * (n - 1))%Z in
           let j := (i `mod` p)%Z in
           Some (if bool_decide (j < n)%Z then j else (p - j)%Z)
       | kUndef => None
       end.

(** Modelled from the spec: [Axis::find_indexes(x, n, boundary)], the window
    of [2n] indices around [x]; empty when [x] has no bracket or when the
    rule is [kUndef] and an index of the window falls past an endpoint. *)
Definition find_indexes_around (a : t) (x : Q) (n : nat) (boundary : Boundary)
    : list Z :=
  match find_indexes a x with
  | None => []
  | Some (i0, _) =>
      default []
        (mapM (reindex (size a) boundary)
              (seqZ (i0 - Z.of_nat n + 1) (2 * Z.of_nat n)))
  end.

(** [x] is in the domain of the axis. *)
Definition in_domain (a : t) (x : Q) : bool :=
  Qle_bool (front a) x && Qle_bool x (back a).

End Axis.

(** grid.hpp: a Cartesian grid, its axes and its values. *)
Record Grid2D : Type := mkGrid2D {
  x : Axis.t;
  y : Axis.t;
  array : Matrix double
}.

(** [grid.value(ix, iy)] *)
Definition value (grid : Grid2D) (ix iy : Z) : double :=
  default NaN (Mat.get (array grid) ix iy).

Module Loess.

Definition sqr (a : double) : double := (a * a)%D.
Definition pow3 (a : double) : double := (a * a * a)%D.

(** The tri-cube weight of a sample at normalised distance [d]. *)
Definition tricube (d : double) : double :=
  if Double.leb d (Fin 1) then pow3 (Fin 1 - pow3 d)%D else Fin 0.

(** The two loops over the frame: the weighted sum and the sum of the
    weights of the defined samples. *)
Definition accumulate (sqrt : Q → Q) (grid : Grid2D) (nx ny : nat)
    (x_frame y_frame : list Z) (cx cy : Q) : double * double :=
  foldl (λ acc wx,
    foldl (λ '(value_, weight) wy,
      let zi := value grid wx wy in
      if negb (Double.isnan zi) then
        let d :=
          Double.lift1 sqrt
            (sqr (Fin (Axis.coordinate_value (x grid) wx - cx)
                  / Fin (inject_Z (Z.of_nat nx)))
             + sqr (Fin (Axis.coordinate_value (y grid) wy - cy)
                    / Fin (inject_Z (Z.of_nat ny))))%D in
        let wi := tricube d in
        ((value_ + wi * zi)%D, (weight + wi)%D)
      else (value_, weight)) acc y_frame)
    (Fin 0, Fin 0) x_frame.

(** The value written at [(ix, iy)]. *)
Definition cell (sqrt : Q → Q) (grid : Grid2D) (nx ny : nat) (ix iy : Z)
    : double :=
  let cx := Axis.coordinate_value (x grid) ix in
  let z := value grid ix iy in
  if Double.isnan z then
    let cy := Axis.coordinate_value (y grid) iy in
    let x_frame := Axis.find_indexes_around (x grid) cx nx Axis.kSym in
    let y_frame := Axis.find_indexes_around (y grid) cy ny Axis.kSym in
    let '(value_, weight) := accumulate sqrt grid nx ny x_frame y_frame cx cy in
    if Double.neqb weight (Fin 0) then (value_ / weight)%D else z
  else z.

(** [fill::loess]: [sqrt] is [std::sqrt]; [uninitialized] is what the new
    array holds before it is written.  The grid is received by constant
    reference and the function returns the new array only. *)
Definition loess (sqrt : Q → Q) (uninitialized : double) (grid : Grid2D)
    (nx ny : nat) : Matrix double :=
  let result := Mat.make (Axis.size (x grid)) (Axis.size (y grid)) uninitialized in
  for_range 0 (Axis.size (x grid))
    (λ ix result,
       for_range 0 (Axis.size (y grid))
         (λ iy result, Mat.set result ix iy (cell sqrt grid nx ny ix iy))
         result)
    result.

End Loess.

(** ** binning.hpp *)

Module Binning.

(** The accumulators of a bin: the samples it received, the last first.
    Every statistic of the bin is a function of them. *)
Definition Accumulators : Type := list Q.

Record NearestBivariate : Type := mk {
  x_ : Axis.t;
  y_ : Axis.t;
  acc_ : Matrix Accumulators
}.

(** The constructor: one empty accumulator per bin. *)
Definition create (x y : Axis.t) : NearestBivariate :=
  mk x y (Mat.make (Axis.size x) (Axis.size y) []).

(** [acc_(ix, iy)(z)] *)
Definition accumulate (acc : Matrix Accumulators) (ix iy : Z) (z : Q)
    : Matrix Accumulators :=
  match Mat.get acc ix iy with
  | Some l => Mat.set acc ix iy (z :: l)
  | None => acc
  end.

(** The body of the loop of [push], for one sample. *)
Definition push_sample (b : NearestBivariate) (sx sy : Q) (sz : double)
    : NearestBivariate :=
  let ix := Axis.find_index (x_ b) sx true in
  let iy := Axis.find_index (y_ b) sy true in
  if bool_decide (ix ≠ -1)%Z && bool_decide (iy ≠ -1)%Z then
    match sz with
    | Fin v => mk (x_ b) (y_ b) (accumulate (acc_ b) ix iy v)
    | NaN => b
    end
  else b.

Fixpoint push_loop (b : NearestBivariate) (xs ys : list Q) (zs : list double)
    : NearestBivariate :=
  match xs, ys, zs with
  | sx :: xs, sy :: ys, sz :: zs => push_loop (push_sample b sx sy sz) xs ys zs
  | _, _, _ => b
  end.

(** [NearestBivariate::push]: the three arrays must have one shape. *)
Definition push (b : NearestBivariate) (xs ys : list Q) (zs : list double)
    : result NearestBivariate :=
  if bool_decide (length xs = length ys ∧ length xs = length zs)
  then ret (push_loop b xs ys zs)
  else throw InvalidArgument.

End Binning.

(** ** spline.cpp *)

Module Spline.

(** Fitting model *)
Inductive FittingModel : Type :=
| kLinear | kPolynomial | kCSpline | kCSplinePeriodic
| kAkima | kAkimaPeriodic | kSteffen.

(** The frame around a target: the coordinates of its nodes and their
    values. *)
Record XArray2D : Type := mkXArray2D {
  fx : list Q;
  fy : list Q;
  fq : Matrix double
}.

(** The frame of a 3-D grid: one planar frame per bound of the Z bracket. *)
Record XArray3D : Type := mkXArray3D {
  z0 : Q; z1 : Q;
  plane0 : XArray2D; plane1 : XArray2D
}.

(** The frame of a 4-D grid; [plane_zu] lies at bound [z] of the Z bracket
    and bound [u] of the U bracket. *)
Record XArray4D : Type := mkXArray4D {
  zz0 : Q; zz1 : Q; u0 : Q; u1 : Q;
  plane00 : XArray2D; plane10 : XArray2D;
  plane01 : XArray2D; plane11 : XArray2D
}.

Record Grid3D : Type := mkGrid3D {
  x3 : Axis.t; y3 : Axis.t; zaxis3 : Axis.t;
  planes3 : list (Matrix double)
}.

Record Grid4D : Type := mkGrid4D {
  x4 : Axis.t; y4 : Axis.t; zaxis4 : Axis.t; uaxis4 : Axis.t;
  planes4 : list (list (Matrix double))
}.

(** [Spline2D::interpolate], evaluated by the GSL on a loaded frame, once
    the interpolator is built: a function of the fitting model, the target
    and the frame. *)
Definition Interpolator : Type := FittingModel → Q → Q → XArray2D → double.

(** The interpolation types of the GSL. *)
Inductive gsl_interp_type : Type :=
| gsl_interp_linear | gsl_interp_polynomial | gsl_interp_cspline
| gsl_interp_cspline_periodic | gsl_interp_akima | gsl_interp_akima_periodic
| gsl_interp_steffen.

(** [interp_type(kind)]: returns the GSL interp type.  The [default] case of
    the switch throws for a value that is no enumerator; the inductive type
    has none. *)
Definition interp_type (kind : FittingModel) : gsl_interp_type :=
  match kind with
  | kLinear => gsl_interp_linear
  | kPolynomial => gsl_interp_polynomial
  | kCSpline => gsl_interp_cspline
  | kCSplinePeriodic => gsl_interp_cspline_periodic
  | kAkima => gsl_interp_akima
  | kAkimaPeriodic => gsl_interp_akima_periodic
  | kSteffen => gsl_interp_steffen
  end.

(** [gsl_spline_min_size]: the minimum number of points required by an
    interpolation type, as the GSL defines its types. *)
Definition min_size (type : gsl_interp_type) : nat :=
  match type with
  | gsl_interp_linear => 2
  | gsl_interp_polynomial => 3
  | gsl_interp_cspline => 3
  | gsl_interp_cspline_periodic => 2
  | gsl_interp_akima => 5
  | gsl_interp_akima_periodic => 5
  | gsl_interp_steffen => 3
  end.

(** detail/gsl/interpolate1d.hpp: the workspace of a 1-D interpolation. *)
Record Interpolate1D : Type := mkInterpolate1D {
  workspace_size : nat;
  workspace_type : gsl_interp_type
}.

(** Modelled from the spec: the constructor [Interpolate1D(size, type, acc)]
    allocates its workspace with [gsl_spline_alloc(type, size)], which refuses
    a size below the minimum of the type; the error is reported as
    InvalidArgument (7: nx/ny below the spline's minimum). *)
Definition new_Interpolate1D (size : nat) (type : gsl_interp_type)
    : result Interpolate1D :=
  if bool_decide (size < min_size type)%nat then throw InvalidArgument
  else ret (mkInterpolate1D size type).

(** The interpolator of a frame: one 1-D interpolation per axis. *)
Record Spline2D : Type := mkSpline2D {
  x_interpolator_ : Interpolate1D;
  y_interpolator_ : Interpolate1D
}.

(** Modelled from the spec: [Spline2D(XArray2D(nx, ny), type)]; the
    definitions of the two classes are missing.  The frame allocated for the
    half-windows [nx] and [ny] has [2nx] by [2ny] nodes (4.D), and the
    interpolator builds a 1-D interpolation for each of the two sizes. *)
Definition new_Spline2D (nx ny : nat) (type : gsl_interp_type) : result Spline2D :=
  let! x_interpolator := new_Interpolate1D (2 * nx) type in
  let! y_interpolator := new_Interpolate1D (2 * ny) type in
  ret (mkSpline2D x_interpolator y_interpolator).

(** [frame.normalize_angle(xi)] *)
Definition normalize_angle (frame : XArray2D) (xi : Q) : Q :=
  Axis.normalize xi (default 0 (head (fx frame))) 360.

(** Modelled from the spec: [load_frame] for a 2-D grid; its definition is
    missing, only its calls are known.  The frame is loaded from
    the windows of the two axes; when a window is empty the target is out
    of the domain: an error under [bounds_error], [false] otherwise. *)
Definition load_frame (grid : Grid2D) (xi yi : Q) (nx ny : nat)
    (boundary : Axis.Boundary) (bounds_error : bool) : result (option XArray2D) :=
  let y_indexes := Axis.find_indexes_around (y grid) yi ny boundary in
  let x_indexes := Axis.find_indexes_around (x grid) xi nx boundary in
  if bool_decide (x_indexes = []) || bool_decide (y_indexes = []) then
    if bounds_error then throw OutOfDomain else ret None
  else
    ret (Some (mkXArray2D
                 (Axis.coordinate_value (x grid) <$> x_indexes)
                 (Axis.coordinate_value (y grid) <$> y_indexes)
                 (Mat.of_rows
                    ((λ ix, (λ iy, value grid ix iy) <$> y_indexes) <$> x_indexes)))).

Definition plane3 (grid : Grid3D) (iz : Z) : Grid2D :=
  mkGrid2D (x3 grid) (y3 grid)
    (default (mkMatrix 0 0 ∅) (planes3 grid !! Z.to_nat iz)).

Definition plane4 (grid : Grid4D) (iz iu : Z) : Grid2D :=
  mkGrid2D (x4 grid) (y4 grid)
    (default (mkMatrix 0 0 ∅)
       (default [] (planes4 grid !! Z.to_nat iz) !! Z.to_nat iu)).

(** Modelled from the spec: [load_frame] for a 3-D grid; as in 2-D, with
    the bracket of the target on the Z axis. *)
Definition load_frame_3d (grid : Grid3D) (xi yi zi : Q) (nx ny : nat)
    (boundary : Axis.Boundary) (bounds_error : bool) : result (option XArray3D) :=
  match Axis.find_indexes (zaxis3 grid) zi with
  | None => if bounds_error then throw OutOfDomain else ret None
  | Some (iz0, iz1) =>
      let! f0 := load_frame (plane3 grid iz0) xi yi nx ny boundary bounds_error in
      let! f1 := load_frame (plane3 grid iz1) xi yi nx ny boundary bounds_error in
      ret (match f0, f1 with
           | Some f0, Some f1 =>
               Some (mkXArray3D (Axis.coordinate_value (zaxis3 grid) iz0)
                                (Axis.coordinate_value (zaxis3 grid) iz1) f0 f1)
           | _, _ => None
           end)
  end.

(** Modelled from the spec: [load_frame] for a 4-D grid. *)
Definition load_frame_4d (grid : Grid4D) (xi yi zi ui : Q) (nx ny : nat)
    (boundary : Axis.Boundary) (bounds_error : bool) : result (option XArray4D) :=
  match Axis.find_indexes (zaxis4 grid) zi, Axis.find_indexes (uaxis4 grid) ui with
  | Some (iz0, iz1), Some (iu0, iu1) =>
      let! f00 := load_frame (plane4 grid iz0 iu0) xi yi nx ny boundary bounds_error in
      let! f10 := load_frame (plane4 grid iz1 iu0) xi yi nx ny boundary bounds_error in
      let! f01 := load_frame (plane4 grid iz0 iu1) xi yi nx ny boundary bounds_error in
      let! f11 := load_frame (plane4 grid iz1 iu1) xi yi nx ny boundary bounds_error in
      ret (match f00, f10, f01, f11 with
           | Some f00, Some f10, Some f01, Some f11 =>
               Some (mkXArray4D (Axis.coordinate_value (zaxis4 grid) iz0)
                                (Axis.coordinate_value (zaxis4 grid) iz1)
                                (Axis.coordinate_value (uaxis4 grid) iu0)
                                (Axis.coordinate_value (uaxis4 grid) iu1)
                                f00 f10 f01 f11)
           | _, _, _, _ => None
           end)
  | _, _ => if bounds_error then throw OutOfDomain else ret None
  end.

(** The loop of a worker over its targets; an exception ends it. *)
Fixpoint for_each {A B : Type} (body : A → result B) (targets : list A)
    : result (list B) :=
  match targets with
  | [] => ret []
  | t :: targets =>
      let! r := body t in
      let! rs := for_each body targets in
      ret (r :: rs)
  end.

Section Spline.
Context (interpolate : Interpolator).
Context (nx ny : nat) (fitting_model : FittingModel)
        (boundary : Axis.Boundary) (bounds_error : bool).

(** The body of the loop of [spline]: the element of the result for one
    target. *)
Definition spline_at (grid : Grid2D) (target : Q * Q) : result double :=
  let '(xi, yi) := target in
  let! frame := load_frame grid xi yi nx ny boundary bounds_error in
  ret (match frame with
       | Some frame =>
           interpolate fitting_model
             (if Axis.is_angle (x grid) then normalize_angle frame xi else xi)
             yi frame
       | None => NaN
       end).

(** The worker of [spline]: it builds its frame and its interpolator, then
    runs the loop over its targets. *)
Definition spline_worker (grid : Grid2D) (targets : list (Q * Q))
    : result (list double) :=
  let! interpolator := new_Spline2D nx ny (interp_type fitting_model) in
  for_each (spline_at grid) targets.

(** [spline]: the exception captured in the workers is thrown again once
    they are done, and the result is then lost. *)
Definition spline (grid : Grid2D) (xs ys : list Q) : result (list double) :=
  if bool_decide (length xs = length ys)
  then spline_worker grid (zip xs ys)
  else throw InvalidArgument.

(** The body of the loop of [spline_3d]. *)
Definition spline_3d_at (grid : Grid3D) (target : Q * Q * Q) : result double :=
  let '(xi, yi, zi) := target in
  let! frame := load_frame_3d grid xi yi zi nx ny boundary bounds_error in
  ret (match frame with
       | Some frame =>
           let xi := if Axis.is_angle (x3 grid)
                     then normalize_angle (plane0 frame) xi else xi in
           let r0 := interpolate fitting_model xi yi (plane0 frame) in
           let r1 := interpolate fitting_model xi yi (plane1 frame) in
           Math.linear zi (z0 frame) (z1 frame) r0 r1
       | None => NaN
       end).

(** The worker of [spline_3d]: the interpolator is built as in 2-D. *)
Definition spline_3d_worker (grid : Grid3D) (targets : list (Q * Q * Q))
    : result (list double) :=
  let! interpolator := new_Spline2D nx ny (interp_type fitting_model) in
  for_each (spline_3d_at grid) targets.

Definition spline_3d (grid : Grid3D) (xs ys zs : list Q) : result (list double) :=
  if bool_decide (length xs = length ys ∧ length xs = length zs)
  then spline_3d_worker grid (zip (zip xs ys) zs)
  else throw InvalidArgument.

(** The body of the loop of [spline_4d]. *)
Definition spline_4d_at (grid : Grid4D) (target : Q * Q * Q * Q) : result double :=
  let '(xi, yi, zi, ui) := target in
  let! frame := load_frame_4d grid xi yi zi ui nx ny boundary bounds_error in
  ret (match frame with
       | Some frame =>
           let xi := if Axis.is_angle (x4 grid)
                     then normalize_angle (plane00 frame) xi else xi in
           let z00 := interpolate fitting_model xi yi (plane00 frame) in
           let z10 := interpolate fitting_model xi yi (plane10 frame) in
           let z01 := interpolate fitting_model xi yi (plane01 frame) in
           let z11 := interpolate fitting_model xi yi (plane11 frame) in
           Math.linear ui (u0 frame) (u1 frame)
             (Math.linear zi (zz0 frame) (zz1 frame) z00 z10)
             (Math.linear zi (zz0 frame) (zz1 frame) z01 z11)
       | None => NaN
       end).

(** The worker of [spline_4d]. *)
Definition spline_4d_worker (grid : Grid4D) (targets : list (Q * Q * Q * Q))
    : result (list double) :=
  let! interpolator := new_Spline2D nx ny (interp_type fitting_model) in
  for_each (spline_4d_at grid) targets.

Definition spline_4d (grid : Grid4D) (xs ys zs us : list Q)
    : result (list double) :=
  if bool_decide (length xs = length ys ∧ length xs = length zs
                  ∧ length xs = length us)
  then spline_4d_worker grid (zip (zip (zip xs ys) zs) us)
  else throw InvalidArgument.
End Spline.

End Spline.

(** ** detail/geodetic/rtree.hpp *)

Module RTree.

(** A position in the Cartesian (ECEF) frame. *)
Record Point3D : Type := mkPoint3D { px : Q; py : Q; pz : Q }.

(** A position by longitude, latitude and altitude. *)
Record EquatorialPoint3D : Type := mkLLA { lon : Q; lat : Q; alt : Q }.

(** The class [Coordinates]: the conversions between the two frames. *)
Record Coordinates : Type := mkCoordinates {
  lla_to_ecef : EquatorialPoint3D → Point3D;
  ecef_to_lla : Point3D → EquatorialPoint3D
}.

(** What the tree stores: a position and the value associated to it. *)
Definition value_t : Type := Point3D * Q.

(** Type of query results: a distance and a value. *)
Definition result_t : Type := Q * Q.

(** The tree: its items, the system of coordinates and the strategy that
    computes the distance between two positions given by longitude and
    latitude (haversine). *)
Record t : Type := mk {
  tree_ : list value_t;
  coordinates_ : Coordinates;
  strategy_ : EquatorialPoint3D → EquatorialPoint3D → Q
}.

Definition with_tree (tree : t) (items : list value_t) : t :=
  mk items (coordinates_ tree) (strategy_ tree).

(** *** The Cartesian index underneath *)

Definition sqr_distance (a b : Point3D) : Q :=
  (px a - px b) * (px a - px b) + (py a - py b) * (py a - py b)
  + (pz a - pz b) * (pz a - pz b).

(** Insertion in a list sorted by the distance to [p], after the items at
    the same distance. *)
Fixpoint insert_sorted (p : Point3D) (item : value_t) (l : list value_t)
    : list value_t :=
  match l with
  | [] => [item]
  | h :: l' =>
      if negb (Qle_bool (sqr_distance p h.1) (sqr_distance p item.1))
      then item :: l
      else h :: insert_sorted p item l'
  end.

(** [boost::geometry::index::nearest(p, k)]: the [k] items closest to [p]
    in the Cartesian frame, all the items when there are fewer. *)
Definition index_nearest (p : Point3D) (k : nat) (items : list value_t)
    : list value_t :=
  take k (foldl (λ sorted item, insert_sorted p item sorted) [] items).

(** [boost::geometry::index::satisfies(pred)] *)
Definition index_satisfies (pred : value_t → bool) (items : list value_t)
    : list value_t :=
  List.filter pred items.

(** [boost::geometry::return_envelope<box>(points)]: the smallest box with
    sides along the axes that holds the points; for no point at all, the
    inverse box, which covers nothing ([None]). *)
Definition return_envelope (points : list Point3D) : option (Point3D * Point3D) :=
  match points with
  | [] => None
  | p :: points =>
      Some (foldl (λ '(lo, hi) q,
                     (mkPoint3D (Qmin (px lo) (px q)) (Qmin (py lo) (py q))
                                (Qmin (pz lo) (pz q)),
                      mkPoint3D (Qmax (px hi) (px q)) (Qmax (py hi) (py q))
                                (Qmax (pz hi) (pz q))))
                  (p, p) points)
  end.

(** [boost::geometry::covered_by(p, box)]: inside or on the border. *)
Definition covered_by (p : Point3D) (box : option (Point3D * Point3D)) : bool :=
  match box with
  | None => false
  | Some (lo, hi) =>
      Qle_bool (px lo) (px p) && Qle_bool (px p) (px hi)
      && Qle_bool (py lo) (py p) && Qle_bool (py p) (py hi)
      && Qle_bool (pz lo) (pz p) && Qle_bool (pz p) (pz hi)
  end.

(** Modelled from the spec: [geometry::RTree::insert(value)] of the base
    class, whose header is missing; incremental insertion. *)
Definition base_insert (item : value_t) (items : list value_t) : list value_t :=
  items ++ [item].

(** Modelled from the spec: [geometry::RTree::packing(points)] of the base
    class, whose header is missing; the old data is deleted before
    construction. *)
Definition base_packing (points : list value_t) (items : list value_t)
    : list value_t :=
  points.

(** *** The geodetic tree *)

(** The point read from row [ix] of the matrix: its first [dimensions]
    coordinates, the others set to zero. *)
Definition point_of_row (dimensions : Z) (coordinates : Matrix Q) (ix : Z)
    : EquatorialPoint3D :=
  let coordinate dim :=
    if bool_decide (dim < dimensions)%Z
    then default 0 (Mat.get coordinates ix dim) else 0 in
  mkLLA (coordinate 0%Z) (coordinate 1%Z) (coordinate 2%Z).

(** [values(ix)] *)
Definition value_at (values : list Q) (ix : Z) : Q :=
  default 0 (values !! Z.to_nat ix).

(** [packing<Dimensions>] *)
Definition packing_dim (dimensions : Z) (tree : t) (coordinates : Matrix Q)
    (values : list Q) : t :=
  let points :=
    for_range 0 (rows coordinates)
      (λ ix points,
         points ++ [(lla_to_ecef (coordinates_ tree)
                       (point_of_row dimensions coordinates ix),
                     value_at values ix)])
      [] in
  with_tree tree (base_packing points (tree_ tree)).

(** [insert<Dimensions>]: the base class is given the Cartesian position
    alone.  [values] is never read; [unset] is the second member of the
    pair stored, whatever the base class makes of a position without a
    value. *)
Definition insert_dim (unset : Q) (dimensions : Z) (tree : t)
    (coordinates : Matrix Q) (values : list Q) : t :=
  for_range 0 (rows coordinates)
    (λ ix tree,
       with_tree tree
         (base_insert (lla_to_ecef (coordinates_ tree)
                         (point_of_row dimensions coordinates ix), unset)
                      (tree_ tree)))
    tree.

(** The checks and the dispatch on the number of columns shared by
    [packing] and [insert]. *)
Definition with_dimensions {A} (coordinates : Matrix Q) (values : list Q)
    (f : Z → A) : result A :=
  if bool_decide (rows coordinates ≠ Z.of_nat (length values)) then
    throw InvalidArgument
  else if bool_decide (cols coordinates = 2)%Z then ret (f 2%Z)
  else if bool_decide (cols coordinates = 3)%Z then ret (f 3%Z)
  else throw InvalidArgument.

(** [packing(coordinates, values)] *)
Definition packing (tree : t) (coordinates : Matrix Q) (values : list Q)
    : result t :=
  with_dimensions coordinates values
    (λ dimensions, packing_dim dimensions tree coordinates values).

(** [insert(coordinates, values)] *)
Definition insert (unset : Q) (tree : t) (coordinates : Matrix Q)
    (values : list Q) : result t :=
  with_dimensions coordinates values
    (λ dimensions, insert_dim unset dimensions tree coordinates values).

(** The pair built for an item found: its distance to [point], computed on
    longitudes and latitudes, and its value. *)
Definition found (tree : t) (point : EquatorialPoint3D) (item : value_t)
    : result_t :=
  (strategy_ tree point (ecef_to_lla (coordinates_ tree) item.1), item.2).

(** [query(point, k)] *)
Definition query (tree : t) (point : EquatorialPoint3D) (k : nat)
    : list result_t :=
  found tree point
    <$> index_nearest (lla_to_ecef (coordinates_ tree) point) k (tree_ tree).

(** [query_ball(point, radius)] *)
Definition query_ball (tree : t) (point : EquatorialPoint3D) (radius : Q)
    : list result_t :=
  found tree point
    <$> index_satisfies
          (λ item,
             negb (Qle_bool radius
                     (strategy_ tree (ecef_to_lla (coordinates_ tree) item.1) point)))
          (tree_ tree).

(** [query_within(point, k)] *)
Definition query_within (tree : t) (point : EquatorialPoint3D) (k : nat)
    : list result_t :=
  let items := index_nearest (lla_to_ecef (coordinates_ tree) point) k (tree_ tree) in
  let ecef := fst <$> items in
  let result := found tree point <$> items in
  if negb (covered_by (lla_to_ecef (coordinates_ tree) point) (return_envelope ecef))
  then [] else result.

(** The two loops that write row [ix] of the results: the neighbors found,
    then invalid values. *)
Definition write_row (ix : Z) (k : nat) (nearest : list result_t)
    (out : Matrix Q * Matrix Q) : Matrix Q * Matrix Q :=
  let out :=
    for_range 0 (Z.of_nat (length nearest))
      (λ jx '(distance, value),
         let item := default (0, 0) (nearest !! Z.to_nat jx) in
         (Mat.set distance ix jx item.1, Mat.set value ix jx item.2))
      out in
  for_range (Z.of_nat (length nearest)) (Z.of_nat k)
    (λ jx '(distance, value),
       (Mat.set distance ix jx (-1), Mat.set value ix jx (-1)))
    out.

(** [query<Dimensions>(coordinates, k, within, num_threads)]: the matrix of
    the distances and the matrix of the values.  [uninitialized] is what
    the two matrices hold before they are written. *)
Definition query_dim (uninitialized : Q) (dimensions : Z) (tree : t)
    (coordinates : Matrix Q) (k : nat) (within : bool)
    : Matrix Q * Matrix Q :=
  let method := if within then query_within else query in
  let size := rows coordinates in
  let distance := Mat.make size (Z.of_nat k) uninitialized in
  let value := Mat.make size (Z.of_nat k) uninitialized in
  for_range 0 size
    (λ ix out,
       let point := point_of_row dimensions coordinates ix in
       write_row ix k (method tree point k) out)
    (distance, value).

(** [query(coordinates, k, within, num_threads)] *)
Definition query_matrix (uninitialized : Q) (tree : t) (coordinates : Matrix Q)
    (k : nat) (within : bool) : result (Matrix Q * Matrix Q) :=
  if bool_decide (cols coordinates = 2)%Z
  then ret (query_dim uninitialized 2 tree coordinates k within)
  else if bool_decide (cols coordinates = 3)%Z
  then ret (query_dim uninitialized 3 tree coordinates k within)
  else throw InvalidArgument.

(** A system of coordinates and a distance for the examples: a flat earth
    where the two frames coincide, with the distance along the axes. *)
Definition flat_coordinates : Coordinates :=
  mkCoordinates (λ p, mkPoint3D (lon p) (lat p) (alt p))
                (λ p, mkLLA (px p) (py p) (pz p)).

Definition flat_distance (a b : EquatorialPoint3D) : Q :=
  Qabs (lon a - lon b) + Qabs (lat a - lat b).

Definition flat_tree : t := mk [] flat_coordinates flat_distance.

End RTree.

(** ** Vocabulary of the statements and data of the examples *)

Module Spec.

(** The target lies outside the domain of a non-circular axis of the
    grid. *)
Definition out_of_domain (grid : Grid2D) (target : Q * Q) : Prop :=
  (Axis.is_circle (x grid) = false ∧ Axis.in_domain (x grid) target.1 = false)
  ∨ (Axis.is_circle (y grid) = false ∧ Axis.in_domain (y grid) target.2 = false).

(** The neighborhood frame of the target cannot be loaded: one of its two
    windows is empty. *)
Definition frame_not_loaded (grid : Grid2D) (nx ny : nat)
    (boundary : Axis.Boundary) (target : Q * Q) : Prop :=
  Axis.find_indexes_around (x grid) target.1 nx boundary = []
  ∨ Axis.find_indexes_around (y grid) target.2 ny boundary = [].

(** The half-windows give each axis of the frame the number of nodes that the
    fitting model requires: the interpolator can be built. *)
Definition accepted (nx ny : nat) (fitting_model : Spline.FittingModel) : Prop :=
  (Spline.min_size (Spline.interp_type fitting_model) ≤ 2 * nx)%nat
  ∧ (Spline.min_size (Spline.interp_type fitting_model) ≤ 2 * ny)%nat.

(** The bin of a coordinate on a non-circular axis: the bin of the closest
    coordinate of the axis, which is the first or the last bin when the
    coordinate is out of the domain. *)
Definition bin_index (a : Axis.t) (v : Q) : Z :=
  if Axis.in_domain a v then Axis.find_index a v false
  else if negb (Qle_bool (Axis.front a) v) then 0%Z
  else (Axis.size a - 1)%Z.

(** Every cell of the shape of the matrix is defined. *)
Definition allocated {A : Type} (m : Matrix A) : Prop :=
  ∀ i j, (0 ≤ i < rows m)%Z → (0 ≤ j < cols m)%Z → is_Some (Mat.get m i j).

(** The two matrices of a query have [r] rows and [k] columns. *)
Definition shaped (r : Z) (k : nat) (out : Matrix Q * Matrix Q) : Prop :=
  rows out.1 = r ∧ cols out.1 = Z.of_nat k
  ∧ rows out.2 = r ∧ cols out.2 = Z.of_nat k.

(** The rows other than [ix] are those of [out0]. *)
Definition other_rows (ix : Z) (out0 out : Matrix Q * Matrix Q) : Prop :=
  ∀ i j, i ≠ ix →
    Mat.get out.1 i j = Mat.get out0.1 i j
    ∧ Mat.get out.2 i j = Mat.get out0.2 i j.

(** A step of a worker on column [iy] keeps the shape of the grid and the
    pixels of the other columns. *)
Definition keeps (iy : Z) (st st' : Fill.wstate) : Prop :=
  rows st'.1 = rows st.1 ∧ cols st'.1 = cols st.1
  ∧ ∀ i j, j ≠ iy → Mat.get st'.1 i j = Mat.get st.1 i j.

(** The grid after [n] sweeps of the relaxation and the maximum residual
    of the last of them. *)
Fixpoint sweeps (n : nat) (mask : Matrix bool) (is_circle : bool)
    (relaxation : double) (num_threads : nat) (grid : Matrix double)
    : Matrix double * double :=
  match n with
  | O => (grid, Fin 0)
  | S n' =>
      Fill.poisson_grid_fill
        (sweeps n' mask is_circle relaxation num_threads grid).1
        mask is_circle relaxation num_threads
  end.

End Spec.

Module Examples.

(** The axis 0, 1, 2. *)
Definition axis3 : Axis.t := Axis.mk [0; 1; 2] false 360.

(** A 3x3 grid, all ones but one undefined value in the last column. *)
Definition grid3 : Grid2D :=
  mkGrid2D axis3 axis3
    (Mat.of_rows [[Fin 1; Fin 1; Fin 1]; [Fin 1; Fin 1; NaN]; [Fin 1; Fin 1; Fin 1]]).

(** The mask of its undefined values, and the grid with zero as first
    guess. *)
Definition mask3 : Matrix bool := Fill.undefined_mask (array grid3).
Definition guess3 : Matrix double :=
  Fill.apply_first_guess Fill.kZero (array grid3) mask3.

(** A square root for the examples, to the hundredth. *)
Definition sqrt_approx (q : Q) : Q :=
  inject_Z (Z.sqrt (Qnum q * 10000 / Z.pos (Qden q))) / 100.

(** Bins on the axes 0, 1, 2, all empty. *)
Definition bins3 : Binning.NearestBivariate := Binning.create axis3 axis3.

(** A tree on the flat earth with one item, of value 10, at the origin. *)
Definition origin : RTree.EquatorialPoint3D := RTree.mkLLA 0 0 0.
Definition tree1 : RTree.t :=
  RTree.with_tree RTree.flat_tree [(RTree.mkPoint3D 0 0 0, 10)].

(** The matrix of the coordinates of one point, the origin, without
    altitude. *)
Definition at_origin : Matrix Q := Mat.of_rows [[0; 0]].

(** An interpolator for the examples: the first node of the frame. *)
Definition first_node : Spline.Interpolator :=
  λ _ _ _ frame, default NaN (Mat.get (Spline.fq frame) 0 0).

End Examples.

(** ** binning.hpp: reset and statistics *)

Module BinningStats.

(** [NearestBivariate::clear]: reset the statistics. *)
Definition clear (b : Binning.NearestBivariate) : Binning.NearestBivariate :=
  Binning.mk (Binning.x_ b) (Binning.y_ b)
    (for_range 0 (rows (Binning.acc_ b))
       (λ ix acc,
          for_range 0 (cols (Binning.acc_ b))
            (λ iy acc, Mat.set acc ix iy []) acc)
       (Binning.acc_ b)).

(** [calculate_statistics(func)]: the array of a statistical variable, of
    the shape of the axes; [uninitialized] is what the new array holds
    before it is written. *)
Definition calculate_statistics (uninitialized : double)
    (func : Binning.Accumulators → double) (b : Binning.NearestBivariate)
    : Matrix double :=
  let z := Mat.make (Axis.size (Binning.x_ b)) (Axis.size (Binning.y_ b))
             uninitialized in
  for_range 0 (rows (Binning.acc_ b))
    (λ ix z,
       for_range 0 (cols (Binning.acc_ b))
         (λ iy z,
            Mat.set z ix iy (func (default [] (Mat.get (Binning.acc_ b) ix iy))))
         z)
    z.

(** [count()]: the number of samples of each bin. *)
Definition count (uninitialized : double) (b : Binning.NearestBivariate)
    : Matrix double :=
  calculate_statistics uninitialized
    (λ samples, Fin (inject_Z (Z.of_nat (length samples)))) b.

End BinningStats.

(** ** detail/geodetic/rtree.hpp: the bounds of the tree *)

Module RTreeBounds.

(** The state of the loop of [equatorial_bounds]: the least and the greatest
    longitude, latitude and altitude met. *)
Record extent : Type := mkExtent {
  x0 : Q; x1 : Q; y0 : Q; y1 : Q; z0 : Q; z1 : Q
}.

(** The body of the loop, for one item of the tree. *)
Definition widen (tree : RTree.t) (e : extent) (item : RTree.value_t) : extent :=
  let lla := RTree.ecef_to_lla (RTree.coordinates_ tree) item.1 in
  mkExtent (Qmin (x0 e) (RTree.lon lla)) (Qmax (x1 e) (RTree.lon lla))
           (Qmin (y0 e) (RTree.lat lla)) (Qmax (y1 e) (RTree.lat lla))
           (Qmin (z0 e) (RTree.alt lla)) (Qmax (z1 e) (RTree.alt lla)).

(** [equatorial_bounds()]: nothing for an empty tree, otherwise the two
    corners of a box.  [max_value] and [min_value] are
    [std::numeric_limits<Coordinate>::max()] and [::min()], the values the
    loop starts from. *)
Definition equatorial_bounds (max_value min_value : Q) (tree : RTree.t)
    : option (RTree.EquatorialPoint3D * RTree.EquatorialPoint3D) :=
  match RTree.tree_ tree with
  | [] => None
  | _ =>
      let e :=
        foldl (widen tree)
          (mkExtent max_value min_value max_value min_value max_value min_value)
          (RTree.tree_ tree) in
      Some (RTree.mkLLA (x0 e) (y0 e) (z0 e), RTree.mkLLA (x1 e) (y1 e) (z1 e))
  end.

End RTreeBounds.

(** ** geodetic/point.hpp and the geodetic box: the state of an instance *)

Module GeoState.

(** The Python objects met in the states. *)
#[warnings="-register-all"]
Inductive object : Type :=
| Float (v : double)
| Tuple (items : list object).

(** What reading a state can throw. *)
Inductive failure : Type :=
| RuntimeError   (* std::runtime_error("invalid state") *)
| CastError.     (* pybind11::cast_error *)

(** [object.cast<double>()] *)
Definition cast_double (o : object) : failure + double :=
  match o with Float v => inr v | Tuple _ => inl CastError end.

(** [object.cast<pybind11::tuple>()] *)
Definition cast_tuple (o : object) : failure + list object :=
  match o with Tuple items => inr items | Float _ => inl CastError end.

(** A point by longitude and latitude, in degrees. *)
Record Point : Type := mkPoint { lon : double; lat : double }.

(** A box made of two describing points. *)
Record Box : Type := mkBox { min_corner : Point; max_corner : Point }.

(** [Point::getstate] *)
Definition point_getstate (p : Point) : list object :=
  [Float (lon p); Float (lat p)].

(** [Point::setstate] *)
Definition point_setstate (state : list object) : failure + Point :=
  match state with
  | [o0; o1] =>
      match cast_double o0 with
      | inl e => inl e
      | inr v0 =>
          match cast_double o1 with
          | inl e => inl e
          | inr v1 => inr (mkPoint v0 v1)
          end
      end
  | _ => inl RuntimeError
  end.

(** [Box::getstate] *)
Definition box_getstate (b : Box) : list object :=
  [Tuple (point_getstate (min_corner b)); Tuple (point_getstate (max_corner b))].

(** [Box::setstate]; the two corners are read in the order of the
    arguments. *)
Definition box_setstate (state : list object) : failure + Box :=
  match state with
  | [o0; o1] =>
      match cast_tuple o0 with
      | inl e => inl e
      | inr s0 =>
          match point_setstate s0 with
          | inl e => inl e
          | inr p0 =>
              match cast_tuple o1 with
              | inl e => inl e
              | inr s1 =>
                  match point_setstate s1 with
                  | inl e => inl e
                  | inr p1 => inr (mkBox p0 p1)
                  end
              end
          end
      end
  | _ => inl RuntimeError
  end.

End GeoState.

(** ** Vocabulary of the further properties *)

Module Laws.

(** Every cell of the shape of the grid holds a number. *)
Definition finite (grid : Matrix double) : Prop :=
  ∀ i j, (0 ≤ i < rows grid)%Z → (0 ≤ j < cols grid)%Z →
    ∃ q, Mat.get grid i j = Some (Fin q).

(** The grid [grid'] has the shape of [grid] and its values at the pixels
    that are not masked. *)
Definition same_unmasked (mask : Matrix bool) (grid grid' : Matrix double)
    : Prop :=
  rows grid' = rows grid ∧ cols grid' = cols grid
  ∧ ∀ i j, Fill.masked mask i j = false → Mat.get grid' i j = Mat.get grid i j.

(** The first guess of [set_zonal_average] for the band [iy]: the average of
    the values of the band that are not masked, zero when there is none. *)
Definition zonal_guess (grid : Matrix double) (mask : Matrix bool) (iy : Z)
    : double :=
  let '(count, sum) :=
    for_range 0 (rows grid)
      (λ ix '(count, sum),
         if Fill.masked mask ix iy then (count, sum)
         else (S count, (sum + default NaN (Mat.get grid ix iy))%D))
      (O, Fin 0) in
  match count with
  | O => Fin 0
  | S _ => (sum / Fin (inject_Z (Z.of_nat count)))%D
  end.

(** What the body of the loop of [set_zonal_average] does to the grid [g]
    for the band [iy]: the masked pixels of the band receive its first
    guess and nothing else changes. *)
Definition band_done (mask : Matrix bool) (iy : Z) (g g' : Matrix double)
    : Prop :=
  rows g' = rows g ∧ cols g' = cols g
  ∧ (∀ i j, j ≠ iy → Mat.get g' i j = Mat.get g i j)
  ∧ (∀ i, Fill.masked mask i iy = false → Mat.get g' i iy = Mat.get g i iy)
  ∧ (∀ i, (0 ≤ i < rows g)%Z → (0 ≤ iy < cols g)%Z →
       Fill.masked mask i iy = true →
       Mat.get g' i iy = Some (zonal_guess g mask iy)).

(** A well-formed grid without undefined value. *)
Definition filled (grid : Matrix double) : Prop :=
  Mat.wf grid ∧ finite grid.

(** Bins as the constructor makes them and [push] keeps them: non-circular
    axes with at least one coordinate, and one accumulator per pair of
    coordinates. *)
Definition ready (b : Binning.NearestBivariate) : Prop :=
  Axis.is_circle (Binning.x_ b) = false
  ∧ Axis.is_circle (Binning.y_ b) = false
  ∧ Axis.points (Binning.x_ b) ≠ []
  ∧ Axis.points (Binning.y_ b) ≠ []
  ∧ rows (Binning.acc_ b) = Axis.size (Binning.x_ b)
  ∧ cols (Binning.acc_ b) = Axis.size (Binning.y_ b)
  ∧ Spec.allocated (Binning.acc_ b).

(** The values, in the order of the arrays, of the samples that belong to
    the bin [(i, j)]: those with a defined value whose coordinates have
    their bins at [i] on the X axis and at [j] on the Y axis. *)
Fixpoint landed (ax ay : Axis.t) (i j : Z) (xs ys : list Q) (zs : list double)
    : list Q :=
  match xs, ys, zs with
  | sx :: xs, sy :: ys, sz :: zs =>
      let rest := landed ax ay i j xs ys zs in
      match sz with
      | Fin v =>
          if bool_decide (Spec.bin_index ax sx = i ∧ Spec.bin_index ay sy = j)
          then v :: rest else rest
      | NaN => rest
      end
  | _, _, _ => []
  end.

(** The box of corners [lo] and [hi] holds the position [p], on each of
    the three coordinates. *)
Definition holds (lo hi p : RTree.EquatorialPoint3D) : Prop :=
  (RTree.lon lo <= RTree.lon p ∧ RTree.lon p <= RTree.lon hi)
  ∧ (RTree.lat lo <= RTree.lat p ∧ RTree.lat p <= RTree.lat hi)
  ∧ (RTree.alt lo <= RTree.alt p ∧ RTree.alt p <= RTree.alt hi).

(** The item that [packing] stores for row [ix] of its arguments. *)
Definition packed (dimensions : Z) (tree : RTree.t) (coordinates : Matrix Q)
    (values : list Q) (ix : Z) : RTree.value_t :=
  (RTree.lla_to_ecef (RTree.coordinates_ tree)
     (RTree.point_of_row dimensions coordinates ix),
   RTree.value_at values ix).

(** The number of ranges of the list that hold [iy]. *)
Definition holders (iy : Z) (ranges : list (Z * Z)) : nat :=
  length (filter (λ r : Z * Z, (r.1 ≤ iy < r.2)%Z) ranges).

(** Every pixel of [g'] is the pixel of [g], or the pixel of [g] to which
    one residual was added, of a magnitude of [r] at most. *)
Definition stepped (r : Q) (g g' : Matrix double) : Prop :=
  ∀ i j a b, Mat.get g i j = Some (Fin a) → Mat.get g' i j = Some (Fin b) →
    b = a ∨ ∃ residual, b = a + residual ∧ Qabs residual <= r.

(** The state of a worker that started on the grid [g0]: its residual is a
    number that is not negative and bounds the residual added to any pixel,
    and the pixels of [U] are still as in [g0]. *)
Definition swept (g0 : Matrix double) (U : Z → Z → Prop) (st : Fill.wstate)
    : Prop :=
  ∃ r, st.2 = Fin r ∧ 0 <= r ∧ filled st.1 ∧ stepped r g0 st.1
    ∧ ∀ i j, U i j → Mat.get st.1 i j = Mat.get g0 i j.

(** The grid and the residuals after the workers of the ranges [done] ran
    on [g0], one after the other. *)
Definition joined (g0 : Matrix double) (done : list (Z * Z))
    (st : Matrix double * list double) : Prop :=
  filled st.1
  ∧ length st.2 = length done
  ∧ (∀ x, x ∈ st.2 → ∃ r, x = Fin r ∧ 0 <= r)
  ∧ (∀ i j, holders j done = O → Mat.get st.1 i j = Mat.get g0 i j)
  ∧ ∀ i j a b, Mat.get g0 i j = Some (Fin a) → Mat.get st.1 i j = Some (Fin b) →
      b = a ∨ ∃ residual r, Fin r ∈ st.2 ∧ b = a + residual ∧ Qabs residual <= r.

End Laws.

Module MoreExamples.

(** The 3x3 grid of the examples, built cell by cell. *)
Definition grid3 : Matrix double :=
  Mat.set (Mat.make 3 3 (Fin 1)) 1 2 NaN.

(** The same grid on the axes 0, 1, 2. *)
Definition field3 : Grid2D := mkGrid2D Examples.axis3 Examples.axis3 grid3.

(** A tree on the flat earth with one item, at longitude -10 and latitude
    -20. *)
Definition west : RTree.t :=
  RTree.with_tree RTree.flat_tree [(RTree.mkPoint3D (-10) (-20) 0, 1)].

(** A grid at rest: the 3x3 grid of ones, where the pixel masked by
    [Examples.mask3] is the average of its neighbors. *)
Definition ones3 : Matrix double := Mat.make 3 3 (Fin 1).

(** A 3-D grid on the axes 0, 1, 2 in X and Y and 0, 1 in Z: the plane of
    ones under the plane of threes. *)
Definition grid3d : Spline.Grid3D :=
  Spline.mkGrid3D Examples.axis3 Examples.axis3 (Axis.mk [0; 1] false 360)
    [Mat.make 3 3 (Fin 1); Mat.make 3 3 (Fin 3)].

(** Its frame around the target (1/2, 1/2, 0), with a half-window of one
    node. *)
Definition frame3d : Spline.XArray3D :=
  match Spline.load_frame_3d grid3d (1 # 2) (1 # 2) 0 1 1 Axis.kUndef false with
  | inr (Some frame) => frame
  | _ =>
      let empty := Spline.mkXArray2D [] [] (mkMatrix 0 0 ∅) in
      Spline.mkXArray3D 0 0 empty empty
  end.

End MoreExamples.

(** * Properties *)

(** ** Loops and matrices *)

Lemma for_range_nil {S : Type} (lo hi : Z) (body : Z → S → S) (s : S) :
  (hi ≤ lo)%Z → for_range lo hi body s = s.
Proof.
  intros Hle. unfold for_range.
  replace (seqZ lo (hi - lo)) with (@nil Z); [done|].
  symmetry. apply seqZ_nil. lia.
Qed.

Lemma for_range_snoc {S : Type} (lo hi : Z) (body : Z → S → S) (s : S) :
  (lo ≤ hi)%Z →
  for_range lo (hi + 1) body s = body hi (for_range lo hi body s).
Proof.
  intros Hle. unfold for_range.
  replace (hi + 1 - lo)%Z with ((hi - lo) + 1)%Z by lia.
  rewrite seqZ_app by lia. rewrite foldl_app. simpl.
  replace (lo + (hi - lo))%Z with hi by lia. done.
Qed.

(** The rule of the loop invariant. *)
Lemma for_range_ind {S : Type} (P : Z → S → Prop) (lo hi : Z)
    (body : Z → S → S) (s : S) :
  (lo ≤ hi)%Z →
  P lo s →
  (∀ i s, (lo ≤ i < hi)%Z → P i s → P (i + 1)%Z (body i s)) →
  P hi (for_range lo hi body s).
Proof.
  intros Hle Hinit Hstep.
  assert (Hgen : ∀ n : nat, (lo + Z.of_nat n ≤ hi)%Z →
            P (lo + Z.of_nat n)%Z (for_range lo (lo + Z.of_nat n) body s)).
  { induction n as [|n IH]; intros Hn.
    - rewrite Z.add_0_r. rewrite for_range_nil by lia. done.
    - replace (lo + Z.of_nat (Datatypes.S n))%Z with (lo + Z.of_nat n + 1)%Z by lia.
      rewrite for_range_snoc by lia.
      apply Hstep; [lia|]. apply IH. lia. }
  specialize (Hgen (Z.to_nat (hi - lo))).
  replace (lo + Z.of_nat (Z.to_nat (hi - lo)))%Z with hi in Hgen by lia.
  apply Hgen. lia.
Qed.

(** An invariant that does not depend on the index, on any range. *)
Lemma for_range_inv {S : Type} (P : S → Prop) (lo hi : Z)
    (body : Z → S → S) (s : S) :
  P s →
  (∀ i s, (lo ≤ i < hi)%Z → P s → P (body i s)) →
  P (for_range lo hi body s).
Proof.
  intros Hinit Hstep.
  destruct (decide (lo ≤ hi)%Z) as [Hle|Hgt].
  - apply (for_range_ind (λ _, P)); auto.
  - rewrite for_range_nil by lia. done.
Qed.

Section MatrixFacts.
Context {A : Type}.
Implicit Types (m : Matrix A) (i j : Z) (v : A).

Lemma in_shape_true m i j :
  Mat.in_shape m i j = true ↔ (0 ≤ i < rows m ∧ 0 ≤ j < cols m)%Z.
Proof. unfold Mat.in_shape. apply bool_decide_eq_true. Qed.

Lemma rows_set m i j v : rows (Mat.set m i j v) = rows m.
Proof. unfold Mat.set. by destruct (Mat.in_shape m i j). Qed.

Lemma cols_set m i j v : cols (Mat.set m i j v) = cols m.
Proof. unfold Mat.set. by destruct (Mat.in_shape m i j). Qed.

Lemma get_set_eq m i j v :
  (0 ≤ i < rows m)%Z → (0 ≤ j < cols m)%Z →
  Mat.get (Mat.set m i j v) i j = Some v.
Proof.
  intros Hi Hj. unfold Mat.set.
  rewrite (proj2 (in_shape_true m i j)) by done.
  unfold Mat.get. simpl. apply lookup_insert_eq.
Qed.

Lemma get_set_ne m i j i' j' v :
  (i, j) ≠ (i', j') → Mat.get (Mat.set m i j v) i' j' = Mat.get m i' j'.
Proof.
  intros Hne. unfold Mat.set.
  destruct (Mat.in_shape m i j); [|done].
  unfold Mat.get. simpl. by apply lookup_insert_ne.
Qed.

(** Writing every cell of a matrix: each one then holds what was written
    in it. *)
Lemma get_tabulate (f : Z → Z → A) (r c : Z) m i j :
  rows m = r → cols m = c → (0 ≤ i < r)%Z → (0 ≤ j < c)%Z →
  Mat.get
    (for_range 0 r (λ i m, for_range 0 c (λ j m, Mat.set m i j (f i j)) m) m)
    i j = Some (f i j).
Proof.
  intros Hr Hc Hi Hj.
  pose (Q := λ (i' : Z) (m' : Matrix A),
          rows m' = r ∧ cols m' = c ∧
          ∀ a b, (0 ≤ a < i')%Z → (0 ≤ b < c)%Z → Mat.get m' a b = Some (f a b)).
  enough (HQ : Q r (for_range 0 r
             (λ i m, for_range 0 c (λ j m, Mat.set m i j (f i j)) m) m)).
  { destruct HQ as (_ & _ & HQ). by apply HQ. }
  apply (for_range_ind Q); [lia| |].
  { repeat split; try done. intros; lia. }
  intros i' m' Hi' (Hr' & Hc' & Hdone).
  pose (R := λ (j' : Z) (m'' : Matrix A),
          rows m'' = r ∧ cols m'' = c ∧
          (∀ a b, (0 ≤ a < i')%Z → (0 ≤ b < c)%Z → Mat.get m'' a b = Some (f a b)) ∧
          ∀ b, (0 ≤ b < j')%Z → Mat.get m'' i' b = Some (f i' b)).
  enough (HR : R c (for_range 0 c (λ j m, Mat.set m i' j (f i' j)) m')).
  { destruct HR as (Hr'' & Hc'' & Hold & Hnew). repeat split; try done.
    intros a b Ha Hb. destruct (decide (a = i')) as [->|Hne].
    - by apply Hnew.
    - apply Hold; [lia|done]. }
  apply (for_range_ind R); [lia| |].
  { repeat split; try done. intros; lia. }
  intros j' m'' Hj' (Hr'' & Hc'' & Hold & Hnew).
  repeat split.
  - by rewrite rows_set.
  - by rewrite cols_set.
  - intros a b Ha Hb. rewrite get_set_ne; [by apply Hold|].
    intros [= -> ->]. lia.
  - intros b Hb. destruct (decide (b = j')) as [->|Hne].
    + apply get_set_eq; lia.
    + rewrite get_set_ne; [apply Hnew; lia|]. intros [= ->]. done.
Qed.

Lemma rows_tabulate (f : Z → Z → A) (r c : Z) m :
  rows (for_range 0 r (λ i m, for_range 0 c (λ j m, Mat.set m i j (f i j)) m) m)
  = rows m.
Proof.
  apply (for_range_inv (λ m', rows m' = rows m)); [done|].
  intros i m' _ Hm'.
  apply (for_range_inv (λ m'', rows m'' = rows m)); [done|].
  intros j m'' _ Hm''. by rewrite rows_set.
Qed.

Lemma cols_tabulate (f : Z → Z → A) (r c : Z) m :
  cols (for_range 0 r (λ i m, for_range 0 c (λ j m, Mat.set m i j (f i j)) m) m)
  = cols m.
Proof.
  apply (for_range_inv (λ m', cols m' = cols m)); [done|].
  intros i m' _ Hm'.
  apply (for_range_inv (λ m'', cols m'' = cols m)); [done|].
  intros j m'' _ Hm''. by rewrite cols_set.
Qed.

Lemma rows_make (r c : Z) v : rows (Mat.make r c v) = r.
Proof. unfold Mat.make. by rewrite rows_tabulate. Qed.

Lemma cols_make (r c : Z) v : cols (Mat.make r c v) = c.
Proof. unfold Mat.make. by rewrite cols_tabulate. Qed.

Lemma get_make (r c : Z) v i j :
  (0 ≤ i < r)%Z → (0 ≤ j < c)%Z → Mat.get (Mat.make r c v) i j = Some v.
Proof.
  intros Hi Hj. unfold Mat.make.
  by rewrite (get_tabulate (λ _ _, v) r c).
Qed.
End MatrixFacts.

(** ** Linear interpolation *)

Lemma Qeq_bool_false (a b : Q) : ¬ a == b → Qeq_bool a b = false.
Proof.
  intros Hne. destruct (Qeq_bool a b) eqn:E; [|done].
  apply Qeq_bool_iff in E. done.
Qed.

(** On finite values and distinct bounds, [linear] is finite and equal to
    the textbook value. *)
Lemma linear_fin (x x0 x1 y0 y1 : Q) :
  ¬ x0 == x1 →
  ∃ q, Math.linear x x0 x1 (Fin y0) (Fin y1) = Fin q
       ∧ q == Math.textbook x x0 x1 y0 y1.
Proof.
  intros Hne.
  assert (Hdx : ¬ x1 - x0 == 0) by (intros H; apply Hne; lra).
  assert (Hsum : (x1 - x) / (x1 - x0) + (x - x0) / (x1 - x0) == 1)
    by (field; done).
  unfold Math.linear. cbn.
  rewrite (Qeq_bool_false _ _ Hdx). cbn.
  rewrite Qeq_bool_false by (rewrite Hsum; discriminate).
  eexists; split; [reflexivity|].
  unfold Math.textbook. rewrite Hsum. field. done.
Qed.

(** C1. For every x, x0, x1, y0 and y1 with x0 different from x1,
    [linear(x, x0, x1, y0, y1)] returns the textbook interpolation
    [t.y0 + u.y1] with [t = (x1 - x)/(x1 - x0)] and [u = (x - x0)/(x1 - x0)]:
    the expression [t * y0 + u * y1 / (t + u)] of the code has that value in
    exact arithmetic, because [t + u = 1]. *)
Theorem linear_textbook (x x0 x1 y0 y1 : Q) :
  ¬ x0 == x1 →
  Double.eqv (Math.linear x x0 x1 (Fin y0) (Fin y1))
             (Fin (Math.textbook x x0 x1 y0 y1)).
Proof.
  intros Hne. destruct (linear_fin x x0 x1 y0 y1 Hne) as (q & -> & Hq).
  exact Hq.
Qed.

Lemma linear_textbook_witness :
  ¬ 0 == 4
  ∧ Double.eqv (Math.linear 1 0 4 (Fin 8) (Fin 16))
               (Fin (Math.textbook 1 0 4 8 16)).
Proof.
  split; [discriminate|]. apply linear_textbook. discriminate.
Defined.

Section SplineClosure.
Context (interpolate : Spline.Interpolator) (nx ny : nat)
        (fitting_model : Spline.FittingModel) (boundary : Axis.Boundary)
        (bounds_error : bool).

(** The trivariate spline closes linearly in Z with [linear]: on a loaded
    frame with finite planar results, its value is the textbook
    interpolation of the two planar results between the bounds of the Z
    bracket. *)
Lemma spline_3d_closes_with_linear (grid : Spline.Grid3D) (xi yi zi : Q)
    (frame : Spline.XArray3D) (r0 r1 : Q) :
  Spline.load_frame_3d grid xi yi zi nx ny boundary bounds_error
    = ret (Some frame) →
  ¬ Spline.z0 frame == Spline.z1 frame →
  (let xn := if Axis.is_angle (Spline.x3 grid)
             then Spline.normalize_angle (Spline.plane0 frame) xi else xi in
   interpolate fitting_model xn yi (Spline.plane0 frame) = Fin r0
   ∧ interpolate fitting_model xn yi (Spline.plane1 frame) = Fin r1) →
  ∃ q, Spline.spline_3d_at interpolate nx ny fitting_model boundary
         bounds_error grid (xi, yi, zi) = ret (Fin q)
       ∧ q == Math.textbook zi (Spline.z0 frame) (Spline.z1 frame) r0 r1.
Proof.
  intros Hload Hz [H0 H1]. unfold Spline.spline_3d_at.
  rewrite Hload. cbn. rewrite H0, H1.
  destruct (linear_fin zi (Spline.z0 frame) (Spline.z1 frame) r0 r1 Hz)
    as (q & -> & Hq).
  by exists q.
Qed.

(** The quadrivariate spline closes linearly in Z, then in U. *)
Lemma spline_4d_closes_with_linear (grid : Spline.Grid4D) (xi yi zi ui : Q)
    (frame : Spline.XArray4D) (r00 r10 r01 r11 : Q) :
  Spline.load_frame_4d grid xi yi zi ui nx ny boundary bounds_error
    = ret (Some frame) →
  ¬ Spline.zz0 frame == Spline.zz1 frame →
  ¬ Spline.u0 frame == Spline.u1 frame →
  (let xn := if Axis.is_angle (Spline.x4 grid)
             then Spline.normalize_angle (Spline.plane00 frame) xi else xi in
   interpolate fitting_model xn yi (Spline.plane00 frame) = Fin r00
   ∧ interpolate fitting_model xn yi (Spline.plane10 frame) = Fin r10
   ∧ interpolate fitting_model xn yi (Spline.plane01 frame) = Fin r01
   ∧ interpolate fitting_model xn yi (Spline.plane11 frame) = Fin r11) →
  ∃ q, Spline.spline_4d_at interpolate nx ny fitting_model boundary
         bounds_error grid (xi, yi, zi, ui) = ret (Fin q)
       ∧ q == Math.textbook ui (Spline.u0 frame) (Spline.u1 frame)
                (Math.textbook zi (Spline.zz0 frame) (Spline.zz1 frame) r00 r10)
                (Math.textbook zi (Spline.zz0 frame) (Spline.zz1 frame) r01 r11).
Proof.
  intros Hload Hz Hu (H00 & H10 & H01 & H11). unfold Spline.spline_4d_at.
  rewrite Hload. cbn. rewrite H00, H10, H01, H11.
  destruct (linear_fin zi (Spline.zz0 frame) (Spline.zz1 frame) r00 r10 Hz)
    as (q0 & -> & Hq0).
  destruct (linear_fin zi (Spline.zz0 frame) (Spline.zz1 frame) r01 r11 Hz)
    as (q1 & -> & Hq1).
  destruct (linear_fin ui (Spline.u0 frame) (Spline.u1 frame) q0 q1 Hu)
    as (q & -> & Hq).
  exists q. split; [done|].
  rewrite Hq. unfold Math.textbook at 1 3. rewrite Hq0, Hq1. reflexivity.
Qed.
End SplineClosure.

(** ** Spline interpolation and the bounds *)

Lemma find_indexes_out_of_domain (a : Axis.t) (v : Q) :
  Axis.is_circle a = false → Axis.in_domain a v = false →
  Axis.find_indexes a v = None.
Proof.
  intros Hc Hd. unfold Axis.find_indexes, Axis.normalize_coordinate.
  rewrite Hc. cbn zeta.
  destruct (bool_decide (Axis.size a = 0%Z)); [done|].
  unfold Axis.in_domain in Hd.
  destruct (Qle_bool (Axis.front a) v); cbn in *; [|done].
  rewrite Hd. done.
Qed.

Lemma out_of_domain_not_loaded (grid : Grid2D) (nx ny : nat)
    (boundary : Axis.Boundary) (target : Q * Q) :
  Spec.out_of_domain grid target → Spec.frame_not_loaded grid nx ny boundary target.
Proof.
  unfold Spec.out_of_domain, Spec.frame_not_loaded, Axis.find_indexes_around.
  intros [[Hc Hd]|[Hc Hd]]; [left|right];
    by rewrite (find_indexes_out_of_domain _ _ Hc Hd).
Qed.

Section SplineBounds.
Context (interpolate : Spline.Interpolator) (nx ny : nat)
        (fitting_model : Spline.FittingModel) (boundary : Axis.Boundary)
        (grid : Grid2D).

Local Abbreviation spline_at be :=
  (Spline.spline_at interpolate nx ny fitting_model boundary be grid).

Lemma load_frame_not_loaded (target : Q * Q) (bounds_error : bool) :
  Spec.frame_not_loaded grid nx ny boundary target →
  Spline.load_frame grid target.1 target.2 nx ny boundary bounds_error
  = if bounds_error then throw OutOfDomain else ret None.
Proof.
  unfold Spec.frame_not_loaded, Spline.load_frame. intros [-> | ->].
  - done.
  - by rewrite orb_true_r.
Qed.

Lemma load_frame_cases (xi yi : Q) (bounds_error : bool) :
  Spline.load_frame grid xi yi nx ny boundary bounds_error = throw OutOfDomain
  ∨ ∃ frame, Spline.load_frame grid xi yi nx ny boundary bounds_error = ret frame.
Proof.
  unfold Spline.load_frame.
  destruct (_ || _); [destruct bounds_error|]; eauto.
Qed.

Lemma load_frame_no_error (xi yi : Q) :
  ∃ frame, Spline.load_frame grid xi yi nx ny boundary false = ret frame.
Proof.
  unfold Spline.load_frame. destruct (_ || _); eauto.
Qed.

Lemma spline_at_not_loaded_nan (target : Q * Q) :
  Spec.frame_not_loaded grid nx ny boundary target →
  spline_at false target = ret NaN.
Proof.
  intros H. destruct target as [xi yi]. unfold Spline.spline_at.
  pose proof (load_frame_not_loaded (xi, yi) false H) as E. cbn in E.
  by rewrite E.
Qed.

Lemma spline_at_not_loaded_throws (target : Q * Q) :
  Spec.frame_not_loaded grid nx ny boundary target →
  spline_at true target = throw OutOfDomain.
Proof.
  intros H. destruct target as [xi yi]. unfold Spline.spline_at.
  pose proof (load_frame_not_loaded (xi, yi) true H) as E. cbn in E.
  by rewrite E.
Qed.

Lemma spline_at_cases (bounds_error : bool) (target : Q * Q) :
  spline_at bounds_error target = throw OutOfDomain
  ∨ ∃ r, spline_at bounds_error target = ret r.
Proof.
  destruct target as [xi yi]. unfold Spline.spline_at.
  destruct (load_frame_cases xi yi bounds_error) as [-> | [frame ->]]; cbn; eauto.
Qed.

Lemma spline_at_no_error (target : Q * Q) :
  ∃ r, spline_at false target = ret r.
Proof.
  destruct target as [xi yi]. unfold Spline.spline_at.
  destruct (load_frame_no_error xi yi) as [frame ->]. cbn. eauto.
Qed.

Lemma for_each_no_error (targets : list (Q * Q)) :
  ∃ rs, Spline.for_each (spline_at false) targets = ret rs
        ∧ length rs = length targets
        ∧ ∀ i target, targets !! i = Some target →
            Spec.frame_not_loaded grid nx ny boundary target →
            rs !! i = Some NaN.
Proof.
  induction targets as [|t targets (rs & Hrs & Hlen & Hnan)].
  - exists []. repeat split; try done.
  - destruct (spline_at_no_error t) as [r Hr].
    exists (r :: rs). cbn [Spline.for_each]. rewrite Hr, Hrs. cbn.
    repeat split; [by rewrite Hlen|].
    intros [|i] target Hi Hbad; cbn in *.
    + injection Hi as ->. rewrite (spline_at_not_loaded_nan target Hbad) in Hr.
      by injection Hr as <-.
    + by eapply Hnan.
Qed.

Lemma for_each_throws (targets : list (Q * Q)) :
  (∃ i target, targets !! i = Some target
               ∧ Spec.frame_not_loaded grid nx ny boundary target) →
  Spline.for_each (spline_at true) targets = throw OutOfDomain.
Proof.
  induction targets as [|t targets IH]; intros (i & target & Hi & Hbad).
  - done.
  - cbn [Spline.for_each].
    destruct (spline_at_cases true t) as [-> | [r Hr]]; [done|].
    rewrite Hr. cbn.
    destruct i as [|i]; cbn in Hi.
    + injection Hi as ->.
      rewrite (spline_at_not_loaded_throws target Hbad) in Hr. done.
    + rewrite IH; [done|]. eauto.
Qed.

Lemma new_Spline2D_accepted :
  Spec.accepted nx ny fitting_model →
  ∃ interpolator,
    Spline.new_Spline2D nx ny (Spline.interp_type fitting_model) = ret interpolator.
Proof.
  intros [Hx Hy]. unfold Spline.new_Spline2D, Spline.new_Interpolate1D.
  rewrite !bool_decide_eq_false_2 by lia. cbn. eauto.
Qed.

(** Half-windows below the minimum of the fitting model are refused when the
    worker builds its interpolator, before any target is read and whatever
    [bounds_error] is. *)
Lemma spline_refuses_small_windows (bounds_error : bool) (xs ys : list Q) :
  length xs = length ys → ¬ Spec.accepted nx ny fitting_model →
  Spline.spline interpolate nx ny fitting_model boundary bounds_error grid xs ys
  = throw InvalidArgument.
Proof.
  intros Hlen Hrefused. unfold Spline.spline, Spline.spline_worker.
  rewrite bool_decide_eq_true_2 by done.
  unfold Spline.new_Spline2D, Spline.new_Interpolate1D.
  destruct (decide (2 * nx < Spline.min_size (Spline.interp_type fitting_model))%nat)
    as [Hx|Hx].
  - by rewrite bool_decide_eq_true_2.
  - rewrite (bool_decide_eq_false_2 _ Hx). cbn.
    destruct (decide (2 * ny < Spline.min_size (Spline.interp_type fitting_model))%nat)
      as [Hy|Hy].
    + by rewrite bool_decide_eq_true_2.
    + destruct Hrefused. split; lia.
Qed.

End SplineBounds.


(** The cubic spline needs three nodes per axis: with a half-window of one
    node the same call is refused, whatever [bounds_error] is. *)
Example spline_small_window_example :
  Spline.spline Examples.first_node 1 1 Spline.kCSpline Axis.kUndef false
    Examples.grid3 [1 # 2; 5] [1 # 2; 1 # 2] = throw InvalidArgument
  ∧ Spline.spline Examples.first_node 1 1 Spline.kCSpline Axis.kUndef true
      Examples.grid3 [1 # 2; 5] [1 # 2; 1 # 2] = throw InvalidArgument.
Proof. split; vm_compute; reflexivity. Qed.

(** ** The Poisson relaxation loop *)

Section Relaxation.
Context (mask : Matrix bool) (is_circle : bool) (epsilon relaxation : double)
        (num_threads : nat).
Local Open Scope nat_scope.

Local Abbreviation sweeps n grid :=
  (Spec.sweeps n mask is_circle relaxation num_threads grid).
Local Abbreviation sweep grid :=
  (Fill.poisson_grid_fill grid mask is_circle relaxation num_threads).
Local Abbreviation relax n grid iteration max_residual :=
  (Fill.relax n mask is_circle epsilon relaxation num_threads grid
     iteration max_residual).

Lemma sweeps_shift (k : nat) (grid : Matrix double) :
  (sweeps (S k) grid).1 = (sweeps k (sweep grid).1).1
  ∧ (1 ≤ k → sweeps (S k) grid = sweeps k (sweep grid).1).
Proof.
  induction k as [|k [IHfst _]].
  - split; [done|lia].
  - assert (E : sweeps (S (S k)) grid = sweeps (S k) (sweep grid).1).
    { change (sweeps (S (S k)) grid) with (sweep (sweeps (S k) grid).1).
      rewrite IHfst. done. }
    split; [by rewrite E|done].
Qed.

(** The loop performs [m <= n] sweeps: it leaves the grid and the residual
    of the last of them, none of the sweeps before the last went below
    [epsilon], and it stops before [n] only below [epsilon]. *)
Lemma relax_spec (n : nat) (grid : Matrix double) (iteration : nat)
    (max_residual : double) :
  ∃ m, m ≤ n
    ∧ (relax n grid iteration max_residual).2.1 = iteration + m
    ∧ (m = 0 → relax n grid iteration max_residual
               = (grid, (iteration, max_residual)))
    ∧ (1 ≤ m → ((relax n grid iteration max_residual).1,
                (relax n grid iteration max_residual).2.2) = sweeps m grid)
    ∧ (∀ j, 1 ≤ j < m → Double.ltb (sweeps j grid).2 epsilon = false)
    ∧ (m = n ∨ (1 ≤ m ∧ Double.ltb (relax n grid iteration max_residual).2.2
                          epsilon = true)).
Proof.
  revert grid iteration max_residual.
  induction n as [|n IH]; intros grid iteration max_residual.
  - exists 0. cbn. repeat split; try done; try lia; by left.
  - cbn [Fill.relax].
    destruct (sweep grid) as [g1 r1] eqn:Esweep.
    destruct (Double.ltb r1 epsilon) eqn:Elt.
    + exists 1. cbn. rewrite Esweep. repeat split; try done; try lia;
        right; done.
    + destruct (IH g1 (S iteration) r1)
        as (m & Hm & Hit & Hzero & Hpos & Hbefore & Hstop).
      assert (Hg1 : (sweep grid).1 = g1) by by rewrite Esweep.
      exists (S m). repeat split.
      * lia.
      * rewrite Hit. lia.
      * intros [=].
      * intros _. destruct m as [|m].
        -- rewrite (Hzero eq_refl). cbn. by rewrite Esweep.
        -- rewrite Hpos by lia.
           rewrite (proj2 (sweeps_shift (S m) grid)) by lia.
           by rewrite Hg1.
      * intros j Hj. destruct j as [|[|j]]; [lia| |].
        -- cbn. by rewrite Esweep.
        -- rewrite (proj2 (sweeps_shift (S j) grid)) by lia.
           rewrite Hg1. apply Hbefore. lia.
      * destruct Hstop as [-> | [Hm1 Hlt]]; [by left|].
        right. split; [lia|done].
Qed.
End Relaxation.



(** On the 3x3 example, with one thread: two sweeps, the second of residual
    zero. *)
Example poisson_example :
  (Fill.poisson 4 (array Examples.grid3) Fill.kZero false 10
     (Fin (1 # 1000)) (Fin 1) 1).2 = (2%nat, Fin 0).
Proof. vm_compute. reflexivity. Qed.

(** ** One sweep of the relaxation and its threads *)

Section Sweep.
Context (mask : Matrix bool) (is_circle : bool) (relaxation : double).

(** [cell_fill] writes the pixel it fills and no other. *)
Lemma cell_fill_frame (ix0 ix ix1 iy0 iy iy1 : Z) (st : Fill.wstate) :
  rows (Fill.cell_fill relaxation ix0 ix ix1 iy0 iy iy1 st).1 = rows st.1
  ∧ cols (Fill.cell_fill relaxation ix0 ix ix1 iy0 iy iy1 st).1 = cols st.1
  ∧ ∀ i j, (i, j) ≠ (ix, iy) →
      Mat.get (Fill.cell_fill relaxation ix0 ix ix1 iy0 iy iy1 st).1 i j
      = Mat.get st.1 i j.
Proof.
  destruct st as [grid r]. unfold Fill.cell_fill.
  destruct (Mat.get grid ix0 iy), (Mat.get grid ix1 iy),
    (Mat.get grid ix iy0), (Mat.get grid ix iy1), (Mat.get grid ix iy);
    cbn [fst]; try done.
  rewrite rows_set, cols_set. repeat split.
  intros i j Hne. by apply get_set_ne.
Qed.

Local Abbreviation keeps := Spec.keeps.

Lemma keeps_refl (iy : Z) (st : Fill.wstate) : keeps iy st st.
Proof. by repeat split. Qed.

Lemma keeps_trans (iy : Z) (st1 st2 st3 : Fill.wstate) :
  keeps iy st1 st2 → keeps iy st2 st3 → keeps iy st1 st3.
Proof.
  intros (Hr & Hc & Hg) (Hr' & Hc' & Hg'). repeat split; try congruence.
  intros i j Hj. rewrite Hg', Hg; done.
Qed.

Lemma keeps_cell_fill (ix0 ix ix1 iy0 iy iy1 : Z) (st : Fill.wstate) :
  keeps iy st (Fill.cell_fill relaxation ix0 ix ix1 iy0 iy iy1 st).
Proof.
  destruct (cell_fill_frame ix0 ix ix1 iy0 iy iy1 st) as (Hr & Hc & Hg).
  repeat split; try done. intros i j Hj. apply Hg. congruence.
Qed.

Lemma keeps_strip (x_size y_size iy : Z) (st : Fill.wstate) :
  keeps iy st (Fill.strip mask is_circle relaxation x_size y_size iy st).
Proof.
  unfold Fill.strip. cbn zeta.
  set (iy0 := if bool_decide (iy = 0%Z) then _ else _).
  set (iy1 := if bool_decide (iy = (y_size - 1)%Z) then _ else _).
  set (inner := for_range _ _ _ st).
  assert (Hinner : keeps iy st inner).
  { apply (for_range_inv (keeps iy st)); [apply keeps_refl|].
    intros ix st' _ Hst'. destruct (Fill.masked mask ix iy); [|done].
    eapply keeps_trans; [exact Hst'|apply keeps_cell_fill]. }
  set (left_edge := if Fill.masked mask 0 iy then _ else inner).
  assert (Hleft : keeps iy st left_edge).
  { unfold left_edge. destruct (Fill.masked mask 0 iy); [|done].
    eapply keeps_trans; [exact Hinner|apply keeps_cell_fill]. }
  destruct (Fill.masked mask (x_size - 1) iy); [|done].
  eapply keeps_trans; [exact Hleft|apply keeps_cell_fill].
Qed.

(** A worker writes in the columns of its range only. *)
Lemma worker_frame (y_start y_end : Z) (grid : Matrix double) :
  rows (Fill.worker mask is_circle relaxation y_start y_end grid).1 = rows grid
  ∧ cols (Fill.worker mask is_circle relaxation y_start y_end grid).1 = cols grid
  ∧ ∀ i j, ¬ (y_start ≤ j < y_end)%Z →
      Mat.get (Fill.worker mask is_circle relaxation y_start y_end grid).1 i j
      = Mat.get grid i j.
Proof.
  unfold Fill.worker.
  apply (for_range_inv
           (λ st : Fill.wstate,
              rows st.1 = rows grid ∧ cols st.1 = cols grid
              ∧ ∀ i j, ¬ (y_start ≤ j < y_end)%Z →
                       Mat.get st.1 i j = Mat.get grid i j)).
  - by repeat split.
  - intros iy st Hiy (Hr & Hc & Hg).
    destruct (keeps_strip (rows grid) (cols grid) iy st) as (Hr' & Hc' & Hg').
    repeat split; try congruence.
    intros i j Hj. rewrite Hg' by lia. by apply Hg.
Qed.

Lemma launch_spec (n : nat) (start shift : Z) :
  (Fill.launch n start shift).2 = (start + Z.of_nat n * shift)%Z
  ∧ ∀ a b, (a, b) ∈ (Fill.launch n start shift).1 →
      ∃ k : nat, (k < n)%nat ∧ a = (start + Z.of_nat k * shift)%Z
                 ∧ b = (a + shift)%Z.
Proof.
  revert start. induction n as [|n IH]; intros start.
  - cbn. split; [lia|]. intros a b Hin. by apply elem_of_nil in Hin.
  - cbn [Fill.launch]. destruct (IH (start + shift)%Z) as [Hlast Hin].
    destruct (Fill.launch n (start + shift) shift) as [l last]. cbn in *.
    split; [lia|].
    intros a b Hab. apply elem_of_cons in Hab as [[= -> ->]|Hab].
    + exists 0%nat. repeat split; lia.
    + destruct (Hin a b Hab) as (k & Hk & -> & ->).
      exists (S k). repeat split; lia.
Qed.

(** With several threads, no range holds the last column. *)
Lemma thread_ranges_miss_last (num_threads : nat) (y_size : Z) :
  num_threads ≠ 1%nat →
  ∀ a b, (a, b) ∈ Fill.thread_ranges num_threads y_size →
    ¬ (a ≤ y_size - 1 < b)%Z.
Proof.
  intros Hn a b. unfold Fill.thread_ranges.
  set (shift := (y_size `div` Z.of_nat num_threads)%Z).
  destruct (launch_spec (num_threads - 1) 0 shift) as [Hlast Hin].
  destruct (Fill.launch (num_threads - 1) 0 shift) as [l last]. cbn in *.
  intros Hab. apply elem_of_app in Hab as [Hab|Hab].
  - destruct (Hin a b Hab) as (k & Hk & -> & ->).
    intros [Hlo Hhi].
    assert (Hpos : (0 < Z.of_nat num_threads)%Z) by lia.
    pose proof (Z.mul_div_le y_size (Z.of_nat num_threads) Hpos) as Hle.
    fold shift in Hle. nia.
  - apply list_elem_of_singleton in Hab as [= -> ->]. lia.
Qed.

(** C2 states that one call to [poisson_grid_fill] applies the relaxation
    update once to every masked cell, whatever the number of threads, so
    that the sweep with several threads leaves the grid of the sweep with
    one.  The code departs from it: the single thread is given the range
    [[0, y_size)], but with several threads the last one is given the range
    that ends at [y_size - 1].  Hence this theorem: with more than one
    thread, the sweep leaves every cell with [iy = y_size - 1] as it was,
    masked or not. *)
Theorem poisson_grid_fill_threads_skip_last_column (grid : Matrix double)
    (num_threads : nat) (ix : Z) :
  (1 < num_threads)%nat →
  Mat.get (Fill.poisson_grid_fill grid mask is_circle relaxation num_threads).1
    ix (cols grid - 1)
  = Mat.get grid ix (cols grid - 1).
Proof.
  intros Hn. unfold Fill.poisson_grid_fill. cbn zeta.
  rewrite bool_decide_eq_false_2 by lia.
  pose proof (thread_ranges_miss_last num_threads (cols grid) ltac:(lia)) as Hmiss.
  set (step := λ '(grid, rs) '(y_start, y_end),
         let '(grid, r) := Fill.worker mask is_circle relaxation y_start y_end grid in
         (grid, rs ++ [r])).
  assert (Hfold : ∀ (ranges : list (Z * Z)) (st : Matrix double * list double),
    cols st.1 = cols grid →
    (∀ a b, (a, b) ∈ ranges → ¬ (a ≤ cols grid - 1 < b)%Z) →
    cols (foldl step st ranges).1 = cols grid
    ∧ Mat.get (foldl step st ranges).1 ix (cols grid - 1)
      = Mat.get st.1 ix (cols grid - 1)).
  { induction ranges as [|[a b] ranges IH]; intros [g rs] Hc Hr; [done|].
    cbn [foldl]. cbn [fst] in Hc.
    destruct (worker_frame a b g) as (_ & Hcw & Hgw).
    destruct (Fill.worker mask is_circle relaxation a b g) as [g' r] eqn:Ew.
    assert (Estep : step (g, rs) (a, b) = (g', rs ++ [r]))
      by (unfold step; by rewrite Ew).
    rewrite Estep. cbn [fst] in *.
    destruct (IH (g', rs ++ [r])) as [Hc' Hg'].
    - cbn. congruence.
    - intros a' b' Hin. apply Hr. by apply elem_of_cons; right.
    - split; [done|]. rewrite Hg'. cbn [fst]. apply Hgw.
      apply Hr. by apply elem_of_cons; left. }
  destruct (Hfold (Fill.thread_ranges num_threads (cols grid)) (grid, [])
              eq_refl Hmiss) as [_ Hget].
  fold step. destruct (foldl step _ _) as [g rs]. exact Hget.
Qed.
End Sweep.

(** On the 3x3 example the masked cell (1, 2) is in the last column: one
    thread sets it to 1, two threads leave the first guess 0. *)
Lemma poisson_grid_fill_threads_skip_last_column_witness :
  (1 < 2)%nat
  ∧ Mat.get Examples.guess3 1 2 = Some (Fin 0)
  ∧ Mat.get (Fill.poisson_grid_fill Examples.guess3 Examples.mask3 false (Fin 1) 2).1
      1 2 = Some (Fin 0)
  ∧ ∃ q, Mat.get (Fill.poisson_grid_fill Examples.guess3 Examples.mask3 false (Fin 1) 1).1
           1 2 = Some (Fin q) ∧ q == 1.
Proof.
  split; [lia|]. split; [reflexivity|]. split.
  - change 2%Z with (cols Examples.guess3 - 1)%Z at 1.
    rewrite (poisson_grid_fill_threads_skip_last_column
               Examples.mask3 false (Fin 1) Examples.guess3 2 1) by lia.
    reflexivity.
  - eexists. split; [vm_compute; reflexivity|reflexivity].
Defined.

(** The whole fill on the same grid: with two threads the undefined cell is
    never relaxed, the only sweep reports a residual of zero and the fill
    stops there, the cell left at the first guess. *)
Example poisson_two_threads_example :
  let out := Fill.poisson 4 (array Examples.grid3) Fill.kZero false 10
               (Fin (1 # 1000)) (Fin 1) 2 in
  Mat.get out.1 1 2 = Some (Fin 0) ∧ out.2 = (1%nat, Fin 0).
Proof. vm_compute. split; reflexivity. Qed.

(** ** LOESS *)

Section LoessFrame.
Context (sqrt : Q → Q) (uninitialized : double) (grid : Grid2D) (nx ny : nat).

(** Every cell of the new array holds the value computed for it. *)
Lemma loess_get (ix iy : Z) :
  (0 ≤ ix < Axis.size (x grid))%Z → (0 ≤ iy < Axis.size (y grid))%Z →
  Mat.get (Loess.loess sqrt uninitialized grid nx ny) ix iy
  = Some (Loess.cell sqrt grid nx ny ix iy).
Proof.
  intros Hx Hy. unfold Loess.loess. cbn zeta.
  apply (get_tabulate (Loess.cell sqrt grid nx ny)); try done.
  - apply rows_make.
  - apply cols_make.
Qed.

Lemma loess_shape :
  rows (Loess.loess sqrt uninitialized grid nx ny) = Axis.size (x grid)
  ∧ cols (Loess.loess sqrt uninitialized grid nx ny) = Axis.size (y grid).
Proof.
  unfold Loess.loess. cbn zeta.
  rewrite (rows_tabulate (Loess.cell sqrt grid nx ny)).
  rewrite (cols_tabulate (Loess.cell sqrt grid nx ny)).
  by rewrite rows_make, cols_make.
Qed.

(** C9. The LOESS gap-fill writes its result in a new array and leaves the
    grid as it is; at every cell whose input value is defined the output is
    the input, exactly; only a cell undefined in the input can receive
    another value, and an undefined cell whose window has a total weight
    of zero remains NaN. *)
Theorem loess_frame (ix iy : Z) :
  (0 ≤ ix < Axis.size (x grid))%Z → (0 ≤ iy < Axis.size (y grid))%Z →
  let out := Mat.get (Loess.loess sqrt uninitialized grid nx ny) ix iy in
  let cx := Axis.coordinate_value (x grid) ix in
  let cy := Axis.coordinate_value (y grid) iy in
  let weight :=
    (Loess.accumulate sqrt grid nx ny
       (Axis.find_indexes_around (x grid) cx nx Axis.kSym)
       (Axis.find_indexes_around (y grid) cy ny Axis.kSym) cx cy).2 in
  (∀ q, value grid ix iy = Fin q → out = Some (Fin q))
  ∧ (out ≠ Some (value grid ix iy) → value grid ix iy = NaN)
  ∧ (value grid ix iy = NaN →
     (∃ w, weight = Fin w ∧ w == 0) → out = Some NaN).
Proof.
  intros Hx Hy. cbn zeta. rewrite (loess_get ix iy Hx Hy).
  unfold Loess.cell. repeat split.
  - intros q ->. done.
  - destruct (value grid ix iy) as [|q]; [done|]. cbn. congruence.
  - intros -> (w & Hw & Hzero). cbn [Double.isnan].
    destruct (Loess.accumulate _ _ _ _ _ _ _ _) as [value_ weight].
    cbn [snd] in Hw. subst weight. cbn [Double.neqb].
    apply Qeq_bool_iff in Hzero. by rewrite Hzero.
Qed.
End LoessFrame.

Lemma loess_frame_witness :
  ((0 ≤ 1 < Axis.size (x Examples.grid3))%Z
   ∧ (0 ≤ 1 < Axis.size (y Examples.grid3))%Z)
  ∧ Mat.get (Loess.loess Examples.sqrt_approx NaN Examples.grid3 1 1) 1 1
    = Some (Fin 1).
Proof.
  split; [split; vm_compute; (split; [discriminate|reflexivity])|].
  apply (loess_frame Examples.sqrt_approx NaN Examples.grid3 1 1 1 1).
  - vm_compute. split; [discriminate|reflexivity].
  - vm_compute. split; [discriminate|reflexivity].
  - reflexivity.
Defined.

(** With a half-window of two nodes the undefined cell of the example is
    filled from its neighbors; with a half-window of one node the weights of
    its window are all zero and it remains undefined. *)
Example loess_example :
  (∃ q, Mat.get (Loess.loess Examples.sqrt_approx NaN Examples.grid3 2 2) 1 2
        = Some (Fin q) ∧ q == 1)
  ∧ Mat.get (Loess.loess Examples.sqrt_approx NaN Examples.grid3 1 1) 1 2
    = Some NaN.
Proof.
  split; [|vm_compute; reflexivity].
  eexists. split; [vm_compute; reflexivity|reflexivity].
Qed.

(** ** Binning *)

Lemma closest_range (l : list Q) (v : Q) (lo i best : Z) (best_d : Q) :
  (lo ≤ best < i)%Z →
  (lo ≤ Axis.closest l v i best best_d < i + Z.of_nat (length l))%Z.
Proof.
  revert i best best_d. induction l as [|p l IH]; intros i best best_d Hb.
  - cbn. lia.
  - cbn [Axis.closest length].
    destruct (negb _).
    + specialize (IH (i + 1)%Z i (Qabs (v - p))). lia.
    + specialize (IH (i + 1)%Z best best_d). lia.
Qed.

(** On a non-circular axis the bounded search never fails: out of the
    domain it answers the first or the last index. *)
Lemma find_index_bounded (a : Axis.t) (v : Q) :
  Axis.is_circle a = false → Axis.points a ≠ [] →
  Axis.find_index a v true = Spec.bin_index a v
  ∧ (0 ≤ Spec.bin_index a v < Axis.size a)%Z.
Proof.
  intros Hc Hne.
  unfold Spec.bin_index, Axis.in_domain, Axis.find_index, Axis.normalize_coordinate.
  rewrite Hc. cbn zeta.
  assert (Hsize : (0 < Axis.size a)%Z).
  { unfold Axis.size. destruct (Axis.points a); [done|]. cbn. lia. }
  destruct (Axis.points a) as [|p l] eqn:Ep; [done|].
  destruct (Qle_bool (Axis.front a) v); cbn [negb andb]; [|split; [done|lia]].
  destruct (Qle_bool v (Axis.back a)); cbn [negb]; [|split; [done|lia]].
  split; [done|].
  pose proof (closest_range l v 0 1 0 (Qabs (v - p)) ltac:(lia)) as Hr.
  unfold Axis.size. rewrite Ep. cbn [length]. lia.
Qed.

(** The sample of the counterexample lies out of the domain of the X axis. *)
Example sample_out_of_domain : Axis.in_domain Examples.axis3 5 = false.
Proof. reflexivity. Qed.


Section Push.
Context (b : Binning.NearestBivariate).
Hypothesis Hx_circle : Axis.is_circle (Binning.x_ b) = false.
Hypothesis Hy_circle : Axis.is_circle (Binning.y_ b) = false.
Hypothesis Hx_points : Axis.points (Binning.x_ b) ≠ [].
Hypothesis Hy_points : Axis.points (Binning.y_ b) ≠ [].
Hypothesis Hrows : rows (Binning.acc_ b) = Axis.size (Binning.x_ b).
Hypothesis Hcols : cols (Binning.acc_ b) = Axis.size (Binning.y_ b).
Hypothesis Hacc : Spec.allocated (Binning.acc_ b).

End Push.


(** ** The geodetic tree: insertion *)

Section Insert.
Context (unset : Q).

Lemma insert_dim_spec (dimensions : Z) (tree : RTree.t)
    (coordinates : Matrix Q) (values : list Q) :
  let tree' := RTree.insert_dim unset dimensions tree coordinates values in
  RTree.coordinates_ tree' = RTree.coordinates_ tree
  ∧ RTree.strategy_ tree' = RTree.strategy_ tree
  ∧ RTree.tree_ tree'
    = RTree.tree_ tree
      ++ ((λ ix, (RTree.lla_to_ecef (RTree.coordinates_ tree)
                    (RTree.point_of_row dimensions coordinates ix), unset))
            <$> seqZ 0 (rows coordinates)).
Proof.
  cbn zeta. unfold RTree.insert_dim, for_range. rewrite Z.sub_0_r.
  generalize (seqZ 0 (rows coordinates)) as l.
  intros l. induction l as [|ix l IH] using rev_ind.
  - cbn. by rewrite app_nil_r.
  - rewrite foldl_app, fmap_app. cbn [foldl fmap list_fmap].
    destruct IH as (Hc & Hs & Ht).
    cbn [RTree.with_tree RTree.coordinates_ RTree.strategy_ RTree.tree_].
    split; [done|split; [done|]].
    rewrite Hc, Ht. unfold RTree.base_insert. by rewrite <- app_assoc.
Qed.

(** C3 states that [insert(coordinates, values)] stores each point,
    converted to the Cartesian frame with the altitude zero when it has
    none, together with the value given for it, so that a query that finds
    the point reports that value.  The code departs from it: where
    [packing] stores the pair of the position and [values(ix)], [insert]
    hands the position alone to the index and never reads [values].  Hence
    this theorem: the items added by [insert] are the converted positions,
    all with the same second member, whatever the values are. *)
Theorem insert_drops_values (tree : RTree.t) (coordinates : Matrix Q)
    (values : list Q) :
  rows coordinates = Z.of_nat (length values) →
  cols coordinates = 2%Z ∨ cols coordinates = 3%Z →
  ∃ tree', RTree.insert unset tree coordinates values = ret tree'
    ∧ RTree.tree_ tree'
      = RTree.tree_ tree
        ++ ((λ ix, (RTree.lla_to_ecef (RTree.coordinates_ tree)
                      (RTree.point_of_row (cols coordinates) coordinates ix),
                    unset))
              <$> seqZ 0 (rows coordinates)).
Proof.
  intros Hrows Hcols. unfold RTree.insert, RTree.with_dimensions.
  rewrite bool_decide_eq_false_2 by (intros H; by apply H).
  destruct Hcols as [Hc | Hc]; rewrite Hc.
  - rewrite bool_decide_eq_true_2 by done. eexists. split; [done|].
    apply insert_dim_spec.
  - rewrite bool_decide_eq_false_2 by done.
    rewrite bool_decide_eq_true_2 by done. eexists. split; [done|].
    apply insert_dim_spec.
Qed.
End Insert.

(** The value 5 inserted at the origin is lost, and the query at the origin
    reports 99, the second member given to the items; after [packing] with
    the same arguments the query reports 5. *)
Lemma insert_drops_values_witness :
  (rows Examples.at_origin = Z.of_nat (length [5])
   ∧ (cols Examples.at_origin = 2%Z ∨ cols Examples.at_origin = 3%Z))
  ∧ (∃ tree', RTree.insert 99 RTree.flat_tree Examples.at_origin [5] = ret tree'
       ∧ RTree.query tree' Examples.origin 1 = [(0, 99)])
  ∧ (∃ tree', RTree.packing RTree.flat_tree Examples.at_origin [5] = ret tree'
       ∧ RTree.query tree' Examples.origin 1 = [(0, 5)]).
Proof.
  split; [split; [reflexivity|left; reflexivity]|]. split.
  - destruct (insert_drops_values 99 RTree.flat_tree Examples.at_origin [5]
                eq_refl (or_introl eq_refl)) as (tree' & Hins & Htree).
    exists tree'. split; [exact Hins|].
    unfold RTree.query.
    assert (Hc : RTree.coordinates_ tree' = RTree.flat_coordinates)
      by (vm_compute in Hins; injection Hins as <-; reflexivity).
    assert (Hs : RTree.strategy_ tree' = RTree.flat_distance)
      by (vm_compute in Hins; injection Hins as <-; reflexivity).
    unfold RTree.found. rewrite Htree, Hc, Hs. vm_compute. reflexivity.
  - eexists. split; [vm_compute; reflexivity|vm_compute; reflexivity].
Defined.

(** ** The geodetic tree: queries *)

Lemma Qlt_not_le_bool (a b : Q) : negb (Qle_bool b a) = true ↔ a < b.
Proof.
  rewrite negb_true_iff. split.
  - intros H. apply Qnot_le_lt. intros Hle.
    apply Qle_bool_iff in Hle. congruence.
  - intros H. destruct (Qle_bool b a) eqn:E; [|done].
    apply Qle_bool_iff in E. apply Qlt_not_le in H. done.
Qed.

(** C5, as stated, fails: a stored point whose distance to the target is
    the radius itself is not returned.  With the item of the example, at the
    origin, the query at the origin with radius 0 returns nothing, though
    the distance, 0, is at most the radius. *)
Lemma query_ball_excludes_the_radius :
  ¬ (∀ (tree : RTree.t) (point : RTree.EquatorialPoint3D) (radius : Q)
       (item : RTree.value_t),
       item ∈ RTree.tree_ tree →
       (RTree.strategy_ tree point
          (RTree.ecef_to_lla (RTree.coordinates_ tree) item.1) <= radius
        ↔ RTree.found tree point item ∈ RTree.query_ball tree point radius)).
Proof.
  intros H.
  destruct (H Examples.tree1 Examples.origin 0 (RTree.mkPoint3D 0 0 0, 10)) as [Hin _].
  - apply list_elem_of_singleton. reflexivity.
  - assert (Hd : RTree.strategy_ Examples.tree1 Examples.origin
                   (RTree.ecef_to_lla (RTree.coordinates_ Examples.tree1)
                      (RTree.mkPoint3D 0 0 0, 10).1) <= 0)
      by (vm_compute; discriminate).
    specialize (Hin Hd). vm_compute in Hin. by apply elem_of_nil in Hin.
Qed.

(** C5, amended.  [query_ball(target, r)] returns exactly the stored points
    whose haversine distance to the target is less than [r], strictly: a
    pair is in the result if and only if it is the pair of a stored item at
    a distance less than [r], made of the haversine distance between the
    target and the item, computed on longitude and latitude, and of the
    value of the item. *)
Theorem query_ball_strictly_within (tree : RTree.t)
    (point : RTree.EquatorialPoint3D) (radius : Q) (r : RTree.result_t) :
  r ∈ RTree.query_ball tree point radius
  ↔ ∃ item, item ∈ RTree.tree_ tree
      ∧ RTree.strategy_ tree
          (RTree.ecef_to_lla (RTree.coordinates_ tree) item.1) point < radius
      ∧ r = (RTree.strategy_ tree point
               (RTree.ecef_to_lla (RTree.coordinates_ tree) item.1), item.2).
Proof.
  unfold RTree.query_ball, RTree.index_satisfies, RTree.found.
  rewrite list_elem_of_fmap. split.
  - intros (item & -> & Hin). exists item.
    apply list_elem_of_In, filter_In in Hin as [Hin Hlt].
    split; [by apply list_elem_of_In|]. split; [|done].
    by apply Qlt_not_le_bool.
  - intros (item & Hin & Hlt & ->). exists item. split; [done|].
    apply list_elem_of_In, filter_In. split; [by apply list_elem_of_In|].
    by apply Qlt_not_le_bool.
Qed.

(** The result holds one pair per stored item within the radius, in the
    order of the index. *)
Lemma query_ball_length (tree : RTree.t) (point : RTree.EquatorialPoint3D)
    (radius : Q) :
  length (RTree.query_ball tree point radius)
  = length (List.filter
              (λ item : RTree.value_t,
                 negb (Qle_bool radius
                         (RTree.strategy_ tree
                            (RTree.ecef_to_lla (RTree.coordinates_ tree) item.1)
                            point)))
              (RTree.tree_ tree)).
Proof. unfold RTree.query_ball, RTree.index_satisfies. by rewrite length_fmap. Qed.

(** C6. [query_within(target, k)] returns nothing exactly when the position
    of the target in the Cartesian frame is not covered by the envelope, the
    box with sides along the axes, of the Cartesian positions of its [k]
    nearest neighbors; when the target is covered, it returns the pairs of
    the plain query of the [k] nearest neighbors. *)
Theorem query_within_envelope (tree : RTree.t)
    (point : RTree.EquatorialPoint3D) (k : nat) :
  let target := RTree.lla_to_ecef (RTree.coordinates_ tree) point in
  let neighbors := RTree.index_nearest target k (RTree.tree_ tree) in
  let covered := RTree.covered_by target (RTree.return_envelope (fst <$> neighbors)) in
  (RTree.query_within tree point k = [] ↔ covered = false)
  ∧ (covered = true → RTree.query_within tree point k = RTree.query tree point k).
Proof.
  cbn zeta. unfold RTree.query_within, RTree.query.
  destruct (RTree.covered_by _ _) eqn:Hcov; cbn [negb].
  - split; [|done]. split; [|done].
    intros Hnil. apply fmap_nil_inv in Hnil. rewrite Hnil in Hcov.
    cbn in Hcov. done.
  - split; [done|]. done.
Qed.

(** The envelope is the bounding box: it covers a position exactly when, on
    each axis, the coordinate lies between those of two of the points. *)
Lemma covered_by_envelope (p : RTree.Point3D) (points : list RTree.Point3D) :
  RTree.covered_by p (RTree.return_envelope points) = true →
  (∃ a b, a ∈ points ∧ b ∈ points ∧ RTree.px a <= RTree.px p <= RTree.px b)
  ∧ (∃ a b, a ∈ points ∧ b ∈ points ∧ RTree.py a <= RTree.py p <= RTree.py b)
  ∧ (∃ a b, a ∈ points ∧ b ∈ points ∧ RTree.pz a <= RTree.pz p <= RTree.pz b).
Proof.
  destruct points as [|q points]; [done|]. cbn [RTree.return_envelope].
  set (step := λ '(lo, hi) q, _).
  assert (Hfold : ∀ (l seen : list RTree.Point3D) (box : RTree.Point3D * RTree.Point3D),
    (∀ proj : RTree.Point3D → Q,
       proj = RTree.px ∨ proj = RTree.py ∨ proj = RTree.pz →
       (∃ a, a ∈ seen ∧ proj a == proj box.1)
       ∧ (∃ b, b ∈ seen ∧ proj b == proj box.2)) →
    ∀ proj : RTree.Point3D → Q,
      proj = RTree.px ∨ proj = RTree.py ∨ proj = RTree.pz →
      (∃ a, a ∈ seen ++ l ∧ proj a == proj (foldl step box l).1)
      ∧ (∃ b, b ∈ seen ++ l ∧ proj b == proj (foldl step box l).2)).
  { induction l as [|h l IH]; intros seen box Hbox proj Hproj.
    - rewrite app_nil_r. by apply Hbox.
    - cbn [foldl]. replace (seen ++ h :: l) with ((seen ++ [h]) ++ l)
        by (by rewrite <- app_assoc).
      apply IH; [|done]. clear proj Hproj. intros proj Hproj.
      destruct (Hbox proj Hproj) as [(a & Ha & Hea) (b & Hb & Heb)].
      destruct box as [lo hi]. cbn [fst snd step] in *.
      split.
      + destruct (Qle_bool (proj lo) (proj h)) eqn:E.
        * exists a. split; [apply elem_of_app; by left|].
          rewrite Hea. apply Qle_bool_iff in E.
          destruct Hproj as [-> | [-> | ->]]; cbn;
            symmetry; by apply Q.min_l.
        * exists h. split; [apply elem_of_app; right; by apply list_elem_of_singleton|].
          assert (proj h <= proj lo).
          { apply Qlt_le_weak, Qnot_le_lt. intros Hle.
            apply Qle_bool_iff in Hle. congruence. }
          destruct Hproj as [-> | [-> | ->]]; cbn;
            symmetry; by apply Q.min_r.
      + destruct (Qle_bool (proj h) (proj hi)) eqn:E.
        * exists b. split; [apply elem_of_app; by left|].
          rewrite Heb. apply Qle_bool_iff in E.
          destruct Hproj as [-> | [-> | ->]]; cbn;
            symmetry; by apply Q.max_l.
        * exists h. split; [apply elem_of_app; right; by apply list_elem_of_singleton|].
          assert (proj hi <= proj h).
          { apply Qlt_le_weak, Qnot_le_lt. intros Hle.
            apply Qle_bool_iff in Hle. congruence. }
          destruct Hproj as [-> | [-> | ->]]; cbn;
            symmetry; by apply Q.max_r. }
  specialize (Hfold points [q] (q, q)).
  assert (Hinit : ∀ proj : RTree.Point3D → Q,
            proj = RTree.px ∨ proj = RTree.py ∨ proj = RTree.pz →
            (∃ a, a ∈ [q] ∧ proj a == proj (q, q).1)
            ∧ (∃ b, b ∈ [q] ∧ proj b == proj (q, q).2)).
  { intros proj _. split; exists q; (split; [by apply list_elem_of_singleton|reflexivity]). }
  specialize (Hfold Hinit). cbn [app] in Hfold.
  destruct (foldl step (q, q) points) as [lo hi]. cbn [RTree.covered_by fst snd] in *.
  intros Hcov. repeat (apply andb_prop in Hcov as [Hcov ?]).
  repeat match goal with H : Qle_bool _ _ = true |- _ => apply Qle_bool_iff in H end.
  split; [|split].
  - destruct (Hfold RTree.px ltac:(auto)) as [(a & Ha & Hea) (b & Hb & Heb)].
    exists a, b. rewrite Hea, Heb. done.
  - destruct (Hfold RTree.py ltac:(auto)) as [(a & Ha & Hea) (b & Hb & Heb)].
    exists a, b. rewrite Hea, Heb. done.
  - destruct (Hfold RTree.pz ltac:(auto)) as [(a & Ha & Hea) (b & Hb & Heb)].
    exists a, b. rewrite Hea, Heb. done.
Qed.

(** ** The geodetic tree: the matrices of the vectorized query *)

Section WriteRow.
Context (r : Z) (k : nat) (ix : Z) (nearest : list RTree.result_t).

Local Abbreviation shaped := (Spec.shaped r k).
Local Abbreviation other_rows := (Spec.other_rows ix).

Lemma write_row_spec (out0 : Matrix Q * Matrix Q) :
  (0 ≤ ix < r)%Z → shaped out0 →
  shaped (RTree.write_row ix k nearest out0)
  ∧ other_rows out0 (RTree.write_row ix k nearest out0)
  ∧ ∀ jx, (Z.of_nat (length nearest) ≤ jx < Z.of_nat k)%Z →
      Mat.get (RTree.write_row ix k nearest out0).1 ix jx = Some (-1)
      ∧ Mat.get (RTree.write_row ix k nearest out0).2 ix jx = Some (-1).
Proof.
  intros Hix Hshape. unfold RTree.write_row.
  set (found := for_range 0 _ _ out0).
  assert (Hfound : shaped found ∧ other_rows out0 found).
  { apply (for_range_inv (λ out, shaped out ∧ other_rows out0 out)).
    - split; [done|]. by intros i j _.
    - intros jx [d v] _ [(Hr1 & Hc1 & Hr2 & Hc2) Hother]. cbn [fst snd] in *.
      split.
      + unfold Spec.shaped. cbn [fst snd]. by rewrite !rows_set, !cols_set.
      + intros i j Hi. cbn [fst snd].
        rewrite !get_set_ne by congruence. by apply Hother. }
  destruct Hfound as [Hshape' Hother'].
  set (len := Z.of_nat (length nearest)).
  destruct (decide (len ≤ Z.of_nat k)%Z) as [Hle|Hgt].
  2: { rewrite for_range_nil by lia. repeat split; try apply Hshape'; try apply Hother'; lia. }
  pose (P := λ (j' : Z) (out : Matrix Q * Matrix Q),
          shaped out ∧ other_rows out0 out
          ∧ ∀ jx, (len ≤ jx < j')%Z →
              Mat.get out.1 ix jx = Some (-1) ∧ Mat.get out.2 ix jx = Some (-1)).
  apply (for_range_ind P); [done| |].
  - split; [done|]. split; [done|]. intros jx Hjx. lia.
  - intros j' [d v] Hj' ((Hr1 & Hc1 & Hr2 & Hc2) & Hother & Hdone).
    cbn [fst snd] in *. split; [|split].
    + unfold Spec.shaped. cbn [fst snd]. by rewrite !rows_set, !cols_set.
    + intros i j Hi. cbn [fst snd].
      rewrite !get_set_ne by congruence. by apply Hother.
    + intros jx Hjx. cbn [fst snd].
      destruct (decide (jx = j')) as [->|Hne].
      * rewrite !get_set_eq by lia. done.
      * rewrite !get_set_ne by congruence. apply Hdone. lia.
Qed.
End WriteRow.

(** C10. In the vectorized query of the [k] nearest neighbors, for each
    target for which fewer than [k] neighbors are produced, none at all when
    the target is rejected under [within], the remaining entries of the row
    of the target are set to -1 in the matrix of the distances and in the
    matrix of the values. *)
Theorem query_pads_with_minus_one (uninitialized : Q) (dimensions : Z)
    (tree : RTree.t) (coordinates : Matrix Q) (k : nat) (within : bool)
    (ix jx : Z) :
  let method := if within then RTree.query_within else RTree.query in
  let nearest := method tree (RTree.point_of_row dimensions coordinates ix) k in
  let out := RTree.query_dim uninitialized dimensions tree coordinates k within in
  (0 ≤ ix < rows coordinates)%Z →
  (Z.of_nat (length nearest) ≤ jx < Z.of_nat k)%Z →
  Mat.get out.1 ix jx = Some (-1) ∧ Mat.get out.2 ix jx = Some (-1).
Proof.
  cbn zeta. intros Hix Hjx. unfold RTree.query_dim. cbn zeta.
  set (method := if within then RTree.query_within else RTree.query) in *.
  set (r := rows coordinates) in *.
  set (body := λ (ix : Z) (out : Matrix Q * Matrix Q), RTree.write_row ix k _ out).
  set (init := (Mat.make r (Z.of_nat k) uninitialized,
                Mat.make r (Z.of_nat k) uninitialized)).
  pose (P := λ (i' : Z) (out : Matrix Q * Matrix Q),
          Spec.shaped r k out
          ∧ ∀ i j, (0 ≤ i < i')%Z →
              (Z.of_nat (length (method tree
                   (RTree.point_of_row dimensions coordinates i) k)) ≤ j
               < Z.of_nat k)%Z →
              Mat.get out.1 i j = Some (-1) ∧ Mat.get out.2 i j = Some (-1)).
  enough (HP : P r (for_range 0 r body init)).
  { destruct HP as [_ HP]. by apply HP. }
  apply (for_range_ind P); [lia| |].
  - split.
    + unfold Spec.shaped, init. cbn [fst snd]. by rewrite !rows_make, !cols_make.
    + intros i j Hi. lia.
  - intros i' out Hi' [Hshape Hdone].
    destruct (write_row_spec r k i'
                (method tree (RTree.point_of_row dimensions coordinates i') k)
                out Hi' Hshape) as (Hshape' & Hother & Hnew).
    unfold body. split; [done|].
    intros i j Hi Hj. destruct (decide (i = i')) as [->|Hne].
    + by apply Hnew.
    + destruct (Hother i j Hne) as [-> ->]. apply Hdone; [lia|done].
Qed.

(** A target rejected under [within] has no neighbor, and its row holds
    nothing but -1. *)
Lemma query_pads_with_minus_one_witness :
  ((0 ≤ 0 < rows (Mat.of_rows [[5; 5]]))%Z
   ∧ RTree.query_within Examples.tree1 (RTree.mkLLA 5 5 0) 2 = []
   ∧ (Z.of_nat 0 ≤ 1 < Z.of_nat 2)%Z)
  ∧ Mat.get (RTree.query_dim 77 2 Examples.tree1 (Mat.of_rows [[5; 5]]) 2 true).1 0 1
    = Some (-1)
  ∧ Mat.get (RTree.query_dim 77 2 Examples.tree1 (Mat.of_rows [[5; 5]]) 2 true).2 0 1
    = Some (-1).
Proof.
  split.
  - split; [vm_compute; split; [discriminate|reflexivity]|].
    split; [reflexivity|lia].
  - apply (query_pads_with_minus_one 77 2 Examples.tree1 (Mat.of_rows [[5; 5]])
             2 true 0 1).
    + vm_compute. split; [discriminate|reflexivity].
    + vm_compute. split; [discriminate|reflexivity].
Defined.

(** * Further properties *)

(** ** The relaxation keeps what is defined *)

Lemma for_range_ext {S : Type} (lo hi : Z) (body body' : Z → S → S) (s : S) :
  (∀ i s, (lo ≤ i < hi)%Z → body i s = body' i s) →
  for_range lo hi body s = for_range lo hi body' s.
Proof.
  intros Hext.
  destruct (decide (lo ≤ hi)%Z) as [Hle|Hgt].
  - apply (for_range_ind
             (λ i s', s' = for_range lo i body' s) lo hi body s Hle).
    + by rewrite for_range_nil.
    + intros i s' Hi ->. rewrite for_range_snoc by lia. by apply Hext.
  - by rewrite !for_range_nil by lia.
Qed.

Section Unmasked.
Context (mask : Matrix bool) (is_circle : bool) (relaxation : double).

Local Abbreviation same_unmasked := (Laws.same_unmasked mask).

Lemma same_unmasked_refl (grid : Matrix double) : same_unmasked grid grid.
Proof. by split; [|split]. Qed.

Lemma same_unmasked_trans (g1 g2 g3 : Matrix double) :
  same_unmasked g1 g2 → same_unmasked g2 g3 → same_unmasked g1 g3.
Proof.
  intros (Hr & Hc & Hg) (Hr' & Hc' & Hg'). split; [congruence|].
  split; [congruence|]. intros i j Hm. rewrite Hg', Hg; done.
Qed.

Lemma same_unmasked_cell_fill (ix0 ix ix1 iy0 iy iy1 : Z) (st : Fill.wstate) :
  Fill.masked mask ix iy = true →
  same_unmasked st.1 (Fill.cell_fill relaxation ix0 ix ix1 iy0 iy iy1 st).1.
Proof.
  intros Hm.
  destruct (cell_fill_frame relaxation ix0 ix ix1 iy0 iy iy1 st) as (Hr & Hc & Hg).
  split; [done|]. split; [done|].
  intros i j Hij. apply Hg. intros [= -> ->]. congruence.
Qed.

Lemma same_unmasked_strip (x_size y_size iy : Z) (st : Fill.wstate) :
  same_unmasked st.1 (Fill.strip mask is_circle relaxation x_size y_size iy st).1.
Proof.
  unfold Fill.strip. cbn zeta.
  set (iy0 := if bool_decide (iy = 0%Z) then _ else _).
  set (iy1 := if bool_decide (iy = (y_size - 1)%Z) then _ else _).
  set (inner := for_range _ _ _ st).
  assert (Hinner : same_unmasked st.1 inner.1).
  { apply (for_range_inv (λ st' : Fill.wstate, same_unmasked st.1 st'.1));
      [apply same_unmasked_refl|].
    intros ix st' _ Hst'. destruct (Fill.masked mask ix iy) eqn:Hm; [|done].
    eapply same_unmasked_trans; [exact Hst'|by apply same_unmasked_cell_fill]. }
  set (left_edge := if Fill.masked mask 0 iy then _ else inner).
  assert (Hleft : same_unmasked st.1 left_edge.1).
  { unfold left_edge. destruct (Fill.masked mask 0 iy) eqn:Hm; [|done].
    eapply same_unmasked_trans; [exact Hinner|by apply same_unmasked_cell_fill]. }
  destruct (Fill.masked mask (x_size - 1) iy) eqn:Hm; [|done].
  eapply same_unmasked_trans; [exact Hleft|by apply same_unmasked_cell_fill].
Qed.

Lemma same_unmasked_worker (y_start y_end : Z) (grid : Matrix double) :
  same_unmasked grid (Fill.worker mask is_circle relaxation y_start y_end grid).1.
Proof.
  unfold Fill.worker.
  apply (for_range_inv (λ st : Fill.wstate, same_unmasked grid st.1));
    [apply same_unmasked_refl|].
  intros iy st _ Hst.
  eapply same_unmasked_trans; [exact Hst|apply same_unmasked_strip].
Qed.

Lemma same_unmasked_sweep (grid : Matrix double) (num_threads : nat) :
  same_unmasked grid
    (Fill.poisson_grid_fill grid mask is_circle relaxation num_threads).1.
Proof.
  unfold Fill.poisson_grid_fill. cbn zeta.
  destruct (bool_decide (num_threads = 1%nat)).
  - pose proof (same_unmasked_worker 0 (cols grid) grid) as Hw.
    by destruct (Fill.worker mask is_circle relaxation 0 (cols grid) grid).
  - set (step := λ '(grid, rs) '(y_start, y_end),
           let '(grid, r) := Fill.worker mask is_circle relaxation y_start y_end grid in
           (grid, rs ++ [r])).
    assert (Hfold : ∀ (ranges : list (Z * Z)) (st : Matrix double * list double),
              same_unmasked grid st.1 → same_unmasked grid (foldl step st ranges).1).
    { induction ranges as [|[a b] ranges IH]; intros [g rs] Hst; [done|].
      cbn [foldl]. apply IH.
      pose proof (same_unmasked_worker a b g) as Hw.
      unfold step.
      destruct (Fill.worker mask is_circle relaxation a b g) as [g' r].
      cbn [fst] in *. by eapply same_unmasked_trans. }
    specialize (Hfold (Fill.thread_ranges num_threads (cols grid)) (grid, [])
                  (same_unmasked_refl grid)).
    fold step. by destruct (foldl step _ _).
Qed.

(** One sweep of the relaxation, with any number of threads, keeps the value
    of every pixel that is not masked. *)
Theorem poisson_grid_fill_keeps_unmasked (grid : Matrix double)
    (num_threads : nat) (i j : Z) :
  Fill.masked mask i j = false →
  Mat.get (Fill.poisson_grid_fill grid mask is_circle relaxation num_threads).1 i j
  = Mat.get grid i j.
Proof.
  intros Hm. destruct (same_unmasked_sweep grid num_threads) as (_ & _ & Hg).
  by apply Hg.
Qed.

Lemma same_unmasked_relax (n : nat) (epsilon : double) (num_threads : nat)
    (grid : Matrix double) (iteration : nat) (max_residual : double) :
  same_unmasked grid
    (Fill.relax n mask is_circle epsilon relaxation num_threads grid
       iteration max_residual).1.
Proof.
  revert grid iteration max_residual.
  induction n as [|n IH]; intros grid iteration max_residual.
  - apply same_unmasked_refl.
  - cbn [Fill.relax].
    pose proof (same_unmasked_sweep grid num_threads) as Hs.
    destruct (Fill.poisson_grid_fill grid mask is_circle relaxation num_threads)
      as [g r].
    cbn [fst] in Hs. destruct (Double.ltb r epsilon); [done|].
    eapply same_unmasked_trans; [exact Hs|apply IH].
Qed.
End Unmasked.

Lemma poisson_grid_fill_keeps_unmasked_witness :
  Fill.masked Examples.mask3 0 0 = false
  ∧ Mat.get (Fill.poisson_grid_fill Examples.guess3 Examples.mask3 false (Fin 1) 2).1
      0 0 = Some (Fin 1).
Proof.
  split; [reflexivity|].
  rewrite (poisson_grid_fill_keeps_unmasked Examples.mask3 false (Fin 1)
             Examples.guess3 2 0 0) by reflexivity.
  reflexivity.
Defined.

(** ** Well-formed matrices *)

Section WellFormed.
Context {A : Type}.
Implicit Types (m : Matrix A) (i j : Z) (v : A).

Lemma wf_allocated m : Mat.wf m → Spec.allocated m.
Proof. intros Hwf i j Hi Hj. by apply Hwf. Qed.

Lemma wf_set m i j v : Mat.wf m → Mat.wf (Mat.set m i j v).
Proof.
  intros Hwf i' j'. rewrite rows_set, cols_set, <- (Hwf i' j').
  unfold Mat.set. destruct (Mat.in_shape m i j) eqn:Hin; [|done].
  apply in_shape_true in Hin. unfold Mat.get. cbn [data].
  rewrite lookup_insert_is_Some. split.
  - intros [[= <- <-]|[_ H]]; [|done]. by apply Hwf.
  - intros H. destruct (decide ((i, j) = (i', j'))); auto.
Qed.

Lemma wf_tabulate (f : Z → Z → A) (r c : Z) m :
  Mat.wf m →
  Mat.wf (for_range 0 r (λ i m, for_range 0 c (λ j m, Mat.set m i j (f i j)) m) m).
Proof.
  intros Hwf. apply (for_range_inv Mat.wf); [done|].
  intros i m' _ Hm'. apply (for_range_inv Mat.wf); [done|].
  intros j m'' _ Hm''. by apply wf_set.
Qed.

(** The loops that write every cell of the shape define no cell outside
    of it. *)
Lemma get_outside_tabulate (f : Z → Z → A) (r c : Z) m i j :
  Mat.get m i j = None →
  ¬ (0 ≤ i < rows m ∧ 0 ≤ j < cols m)%Z →
  Mat.get (for_range 0 r (λ i m, for_range 0 c (λ j m, Mat.set m i j (f i j)) m) m)
    i j = None.
Proof.
  intros Hnone Hout.
  apply (for_range_inv
           (λ m', rows m' = rows m ∧ cols m' = cols m ∧ Mat.get m' i j = None));
    [done|].
  intros i' m' _ Hm'.
  apply (for_range_inv
           (λ m', rows m' = rows m ∧ cols m' = cols m ∧ Mat.get m' i j = None));
    [done|].
  intros j' m'' _ (Hr & Hc & Hg). rewrite rows_set, cols_set.
  split; [done|]. split; [done|].
  unfold Mat.set. destruct (Mat.in_shape m'' i' j') eqn:Hin; [|done].
  apply in_shape_true in Hin. unfold Mat.get. cbn [data].
  rewrite lookup_insert_ne; [done|]. intros [= -> ->]. apply Hout. lia.
Qed.

Lemma wf_make (r c : Z) v : Mat.wf (Mat.make r c v).
Proof.
  intros i j. rewrite rows_make, cols_make. split.
  - intros Hsome.
    destruct (decide (0 ≤ i < r ∧ 0 ≤ j < c)%Z) as [Hin|Hout]; [done|].
    unfold Mat.make in Hsome.
    rewrite (get_outside_tabulate (λ _ _, v)) in Hsome; [by destruct Hsome|done|done].
  - intros [Hi Hj]. rewrite get_make by done. by eexists.
Qed.

Lemma get_map {B : Type} (f : A → B) m i j :
  Mat.get (Mat.map f m) i j = f <$> Mat.get m i j.
Proof. unfold Mat.get, Mat.map. cbn [data]. apply lookup_fmap. Qed.

Lemma wf_map {B : Type} (f : A → B) m : Mat.wf m → Mat.wf (Mat.map f m).
Proof.
  intros Hwf i j. rewrite get_map, fmap_is_Some. apply Hwf.
Qed.
End WellFormed.

(** ** The zonal average *)

Section ZonalAverage.
Context (mask : Matrix bool).

Lemma zonal_guess_ext (g g0 : Matrix double) (iy : Z) :
  rows g = rows g0 →
  (∀ i, Mat.get g i iy = Mat.get g0 i iy) →
  Laws.zonal_guess g mask iy = Laws.zonal_guess g0 mask iy.
Proof.
  intros Hr Hg. unfold Laws.zonal_guess. rewrite Hr.
  rewrite (for_range_ext 0 (rows g0) _
             (λ ix '(count, sum),
                if Fill.masked mask ix iy then (count, sum)
                else (S count, (sum + default NaN (Mat.get g0 ix iy))%D))); [done|].
  intros i [count sum] _. by rewrite Hg.
Qed.

(** The body of the loop of [set_zonal_average] for the band [iy]. *)
Lemma zonal_band (g : Matrix double) (iy : Z) :
  Laws.band_done mask iy g
    (let '(count, sum) :=
       for_range 0 (rows g)
         (λ ix '(count, sum),
            if Fill.masked mask ix iy then (count, sum)
            else (S count, (sum + default NaN (Mat.get g ix iy))%D))
         (O, Fin 0) in
     let first_guess :=
       match count with
       | O => Fin 0
       | S _ => (sum / Fin (inject_Z (Z.of_nat count)))%D
       end in
     for_range 0 (rows g)
       (λ ix grid, if Fill.masked mask ix iy
                   then Mat.set grid ix iy first_guess else grid) g).
Proof.
  unfold Laws.band_done, Laws.zonal_guess.
  destruct (for_range 0 (rows g) _ (O, Fin 0)) as [count sum].
  set (first_guess := match count with O => Fin 0 | S _ => _ end).
  destruct (decide (0 ≤ rows g)%Z) as [Hrows|Hneg].
  2: { rewrite for_range_nil by lia. repeat split; try done. intros; lia. }
  pose (P := λ (i' : Z) (g' : Matrix double),
          rows g' = rows g ∧ cols g' = cols g
          ∧ (∀ i j, j ≠ iy → Mat.get g' i j = Mat.get g i j)
          ∧ (∀ i, Fill.masked mask i iy = false → Mat.get g' i iy = Mat.get g i iy)
          ∧ (∀ i, (0 ≤ i < i')%Z → (0 ≤ iy < cols g)%Z →
               Fill.masked mask i iy = true →
               Mat.get g' i iy = Some first_guess)).
  apply (for_range_ind P); [done| |].
  - split; [done|]. split; [done|]. split; [done|]. split; [done|]. intros; lia.
  - intros i' g' Hi' (Hr & Hc & Hother & Hunmasked & Hdone).
    destruct (Fill.masked mask i' iy) eqn:Hm.
    + split; [by rewrite rows_set|]. split; [by rewrite cols_set|].
      split; [|split].
      * intros i j Hj. rewrite get_set_ne by congruence. by apply Hother.
      * intros i Hi. rewrite get_set_ne by congruence. by apply Hunmasked.
      * intros i Hi Hiy Hmi. destruct (decide (i = i')) as [->|Hne].
        -- apply get_set_eq; lia.
        -- rewrite get_set_ne by congruence. apply Hdone; [lia|done..].
    + split; [done|]. split; [done|]. split; [done|]. split; [done|].
      intros i Hi Hiy Hmi. destruct (decide (i = i')) as [->|Hne]; [congruence|].
      apply Hdone; [lia|done..].
Qed.

(** The loop over the bands: the bands done hold the first guess in their
    masked pixels, the others are as given. *)
Lemma set_zonal_average_bands (grid : Matrix double) :
  let out := Fill.set_zonal_average grid mask in
  rows out = rows grid ∧ cols out = cols grid
  ∧ (∀ i j, Fill.masked mask i j = false → Mat.get out i j = Mat.get grid i j)
  ∧ (∀ i j, (0 ≤ i < rows grid)%Z → (0 ≤ j < cols grid)%Z →
       Fill.masked mask i j = true →
       Mat.get out i j = Some (Laws.zonal_guess grid mask j)).
Proof.
  cbn zeta. unfold Fill.set_zonal_average.
  destruct (decide (0 ≤ cols grid)%Z) as [Hcols|Hneg].
  2: { rewrite for_range_nil by lia. repeat split; try done. intros; lia. }
  pose (P := λ (j' : Z) (g : Matrix double),
          rows g = rows grid ∧ cols g = cols grid
          ∧ (∀ i j, Fill.masked mask i j = false → Mat.get g i j = Mat.get grid i j)
          ∧ (∀ i j, (j' ≤ j)%Z → Mat.get g i j = Mat.get grid i j)
          ∧ (∀ i j, (0 ≤ i < rows grid)%Z → (0 ≤ j < j')%Z →
               Fill.masked mask i j = true →
               Mat.get g i j = Some (Laws.zonal_guess grid mask j))).
  match goal with
  | |- context [for_range 0 (cols grid) ?body grid] =>
      enough (HP : P (cols grid) (for_range 0 (cols grid) body grid))
  end.
  { destruct HP as (Hr & Hc & Hu & _ & Hm). split; [done|]. split; [done|].
    split; [done|]. intros i j Hi Hj. by apply Hm. }
  apply (for_range_ind P); [done| |].
  - split; [done|]. split; [done|]. split; [done|]. split; [done|]. intros; lia.
  - intros j' g Hj' (Hr & Hc & Hu & Hlater & Hm).
    match goal with |- P _ ?t => set (g' := t) end.
    assert (Hband : Laws.band_done mask j' g g') by apply zonal_band.
    destruct Hband as (Hr' & Hc' & Hother & Hunmasked & Hnew).
    assert (Hguess : Laws.zonal_guess g mask j' = Laws.zonal_guess grid mask j').
    { apply zonal_guess_ext; [done|]. intros i. apply Hlater. lia. }
    split; [congruence|]. split; [congruence|]. split; [|split].
    + intros i j Hij. destruct (decide (j = j')) as [->|Hne].
      * rewrite Hunmasked by done. by apply Hu.
      * rewrite Hother by done. by apply Hu.
    + intros i j Hj. rewrite Hother by lia. apply Hlater. lia.
    + intros i j Hi Hj Hij. destruct (decide (j = j')) as [->|Hne].
      * rewrite Hnew; [by rewrite Hguess|lia|lia|done].
      * rewrite Hother by done. apply Hm; [done|lia|done].
Qed.

(** [set_zonal_average] keeps the shape of the grid; a pixel of the shape
    that is not masked keeps its value, a masked one receives the first guess
    of its band: the average of the values of the band that are not masked
    in the grid given, zero when the whole band is masked. *)
Theorem set_zonal_average_spec (grid : Matrix double) (i j : Z) :
  (0 ≤ i < rows grid)%Z → (0 ≤ j < cols grid)%Z →
  rows (Fill.set_zonal_average grid mask) = rows grid
  ∧ cols (Fill.set_zonal_average grid mask) = cols grid
  ∧ Mat.get (Fill.set_zonal_average grid mask) i j
    = if Fill.masked mask i j then Some (Laws.zonal_guess grid mask j)
      else Mat.get grid i j.
Proof.
  intros Hi Hj.
  destruct (set_zonal_average_bands grid) as (Hr & Hc & Hu & Hm).
  split; [done|]. split; [done|].
  destruct (Fill.masked mask i j) eqn:E; [by apply Hm|by apply Hu].
Qed.
End ZonalAverage.

(** On the 3x3 example the undefined cell receives the first guess of its
    band. *)
Lemma set_zonal_average_spec_witness :
  ((0 ≤ 1 < rows (array Examples.grid3))%Z
   ∧ (0 ≤ 2 < cols (array Examples.grid3))%Z)
  ∧ Mat.get (Fill.set_zonal_average (array Examples.grid3) Examples.mask3) 1 2
    = Some (Laws.zonal_guess (array Examples.grid3) Examples.mask3 2).
Proof.
  assert (H1 : (0 ≤ 1 < rows (array Examples.grid3))%Z)
    by (vm_compute; split; [discriminate|reflexivity]).
  assert (H2 : (0 ≤ 2 < cols (array Examples.grid3))%Z)
    by (vm_compute; split; [discriminate|reflexivity]).
  split; [by split|].
  destruct (set_zonal_average_spec Examples.mask3 (array Examples.grid3)
              1%Z 2%Z H1 H2) as (_ & _ & H).
  exact H.
Defined.

(** ** The Poisson fill: what it keeps and what it leaves *)

Lemma masked_undefined_mask (grid : Matrix double) (i j : Z) :
  Fill.masked (Fill.undefined_mask grid) i j
  = match Mat.get grid i j with
    | Some v => Double.isnan v
    | None => false
    end.
Proof.
  unfold Fill.masked, Fill.undefined_mask. rewrite get_map.
  by destruct (Mat.get grid i j).
Qed.

Lemma same_unmasked_first_guess (first_guess : Fill.FirstGuess)
    (grid : Matrix double) :
  Laws.same_unmasked (Fill.undefined_mask grid) grid
    (Fill.apply_first_guess first_guess grid (Fill.undefined_mask grid)).
Proof.
  destruct first_guess; cbn [Fill.apply_first_guess].
  - split; [done|]. split; [done|].
    intros i j Hm. rewrite masked_undefined_mask in Hm. rewrite get_map.
    destruct (Mat.get grid i j) as [v|]; [|done]. cbn. by rewrite Hm.
  - destruct (set_zonal_average_bands (Fill.undefined_mask grid) grid)
      as (Hr & Hc & Hu & _).
    by split; [|split].
Qed.

(** The Poisson fill never changes a defined value: a cell that holds a
    number in the grid given holds the same number in the grid left,
    whatever the first guess, the number of iterations and the number of
    threads. *)
Theorem poisson_keeps_defined (hardware_concurrency : nat)
    (grid : Matrix double) (first_guess : Fill.FirstGuess) (is_circle : bool)
    (max_iterations : nat) (epsilon relaxation : double) (num_threads : nat)
    (i j : Z) (q : Q) :
  Mat.get grid i j = Some (Fin q) →
  Mat.get (Fill.poisson hardware_concurrency grid first_guess is_circle
             max_iterations epsilon relaxation num_threads).1 i j
  = Some (Fin q).
Proof.
  intros Hq. unfold Fill.poisson.
  destruct (negb (Mat.hasNaN grid)); [done|]. cbn zeta.
  assert (Hm : Fill.masked (Fill.undefined_mask grid) i j = false)
    by (by rewrite masked_undefined_mask, Hq).
  destruct (same_unmasked_first_guess first_guess grid) as (_ & _ & Hguess).
  destruct (same_unmasked_relax (Fill.undefined_mask grid) is_circle relaxation
              max_iterations epsilon
              (Fill.effective_threads hardware_concurrency num_threads)
              (Fill.apply_first_guess first_guess grid (Fill.undefined_mask grid))
              0%nat (Fin 0)) as (_ & _ & Hrelax).
  rewrite Hrelax, Hguess; done.
Qed.

Lemma poisson_keeps_defined_witness :
  Mat.get (array Examples.grid3) 1 1 = Some (Fin 1)
  ∧ Mat.get (Fill.poisson 4 (array Examples.grid3) Fill.kZonalAverage true 10
               (Fin (1 # 1000)) (Fin 1) 3).1 1 1 = Some (Fin 1).
Proof.
  split; [reflexivity|].
  apply (poisson_keeps_defined 4 (array Examples.grid3) Fill.kZonalAverage true
           10 (Fin (1 # 1000)) (Fin 1) 3 1 1 1).
  reflexivity.
Defined.

Section Filled.
Context (mask : Matrix bool) (is_circle : bool) (w : Q).

Lemma filled_set (g : Matrix double) (i j : Z) (q : Q) :
  Laws.filled g → Laws.filled (Mat.set g i j (Fin q)).
Proof.
  intros [Hwf Hfin]. split; [by apply wf_set|].
  intros i' j'. rewrite rows_set, cols_set. intros Hi Hj.
  destruct (decide ((i, j) = (i', j'))) as [[= <- <-]|Hne].
  - rewrite get_set_eq by done. by eexists.
  - rewrite get_set_ne by done. by apply Hfin.
Qed.

Lemma filled_get (g : Matrix double) (i j : Z) (v : double) :
  Laws.filled g → Mat.get g i j = Some v → ∃ q, v = Fin q.
Proof.
  intros [Hwf Hfin] Hv.
  destruct (proj1 (Hwf i j) (mk_is_Some _ _ Hv)) as [Hi Hj].
  destruct (Hfin i j Hi Hj) as [q Hq]. exists q. congruence.
Qed.

Lemma filled_cell_fill (ix0 ix ix1 iy0 iy iy1 : Z) (st : Fill.wstate) :
  Laws.filled st.1 →
  Laws.filled (Fill.cell_fill (Fin w) ix0 ix ix1 iy0 iy iy1 st).1.
Proof.
  destruct st as [g r]. cbn [fst]. intros Hg. unfold Fill.cell_fill.
  destruct (Mat.get g ix0 iy) as [a|] eqn:Ha; [|done].
  destruct (Mat.get g ix1 iy) as [b|] eqn:Hb; [|done].
  destruct (Mat.get g ix iy0) as [c|] eqn:Hc; [|done].
  destruct (Mat.get g ix iy1) as [d|] eqn:Hd; [|done].
  destruct (Mat.get g ix iy) as [v|] eqn:Hv; [|done].
  destruct (filled_get g _ _ _ Hg Ha) as [qa ->].
  destruct (filled_get g _ _ _ Hg Hb) as [qb ->].
  destruct (filled_get g _ _ _ Hg Hc) as [qc ->].
  destruct (filled_get g _ _ _ Hg Hd) as [qd ->].
  destruct (filled_get g _ _ _ Hg Hv) as [qv ->].
  cbn. by apply filled_set.
Qed.

Lemma filled_strip (x_size y_size iy : Z) (st : Fill.wstate) :
  Laws.filled st.1 →
  Laws.filled (Fill.strip mask is_circle (Fin w) x_size y_size iy st).1.
Proof.
  intros Hst. unfold Fill.strip. cbn zeta.
  set (iy0 := if bool_decide (iy = 0%Z) then _ else _).
  set (iy1 := if bool_decide (iy = (y_size - 1)%Z) then _ else _).
  set (inner := for_range _ _ _ st).
  assert (Hinner : Laws.filled inner.1).
  { apply (for_range_inv (λ st' : Fill.wstate, Laws.filled st'.1)); [done|].
    intros ix st' _ Hst'. destruct (Fill.masked mask ix iy); [|done].
    by apply filled_cell_fill. }
  set (left_edge := if Fill.masked mask 0 iy then _ else inner).
  assert (Hleft : Laws.filled left_edge.1).
  { unfold left_edge. destruct (Fill.masked mask 0 iy); [|done].
    by apply filled_cell_fill. }
  destruct (Fill.masked mask (x_size - 1) iy); [|done].
  by apply filled_cell_fill.
Qed.

Lemma filled_worker (y_start y_end : Z) (grid : Matrix double) :
  Laws.filled grid →
  Laws.filled (Fill.worker mask is_circle (Fin w) y_start y_end grid).1.
Proof.
  intros Hg. unfold Fill.worker.
  apply (for_range_inv (λ st : Fill.wstate, Laws.filled st.1)); [done|].
  intros iy st _ Hst. by apply filled_strip.
Qed.

Lemma filled_sweep (grid : Matrix double) (num_threads : nat) :
  Laws.filled grid →
  Laws.filled (Fill.poisson_grid_fill grid mask is_circle (Fin w) num_threads).1.
Proof.
  intros Hg. unfold Fill.poisson_grid_fill. cbn zeta.
  destruct (bool_decide (num_threads = 1%nat)).
  - pose proof (filled_worker 0 (cols grid) grid Hg) as Hw.
    by destruct (Fill.worker mask is_circle (Fin w) 0 (cols grid) grid).
  - set (step := λ '(grid, rs) '(y_start, y_end),
           let '(grid, r) := Fill.worker mask is_circle (Fin w) y_start y_end grid in
           (grid, rs ++ [r])).
    assert (Hfold : ∀ (ranges : list (Z * Z)) (st : Matrix double * list double),
              Laws.filled st.1 → Laws.filled (foldl step st ranges).1).
    { induction ranges as [|[a b] ranges IH]; intros [g rs] Hst; [done|].
      cbn [foldl]. apply IH.
      pose proof (filled_worker a b g Hst) as Hw.
      unfold step.
      by destruct (Fill.worker mask is_circle (Fin w) a b g) as [g' r]. }
    specialize (Hfold (Fill.thread_ranges num_threads (cols grid)) (grid, []) Hg).
    fold step. by destruct (foldl step _ _).
Qed.

Lemma filled_relax (n : nat) (epsilon : double) (num_threads : nat)
    (grid : Matrix double) (iteration : nat) (max_residual : double) :
  Laws.filled grid →
  Laws.filled
    (Fill.relax n mask is_circle epsilon (Fin w) num_threads grid
       iteration max_residual).1.
Proof.
  revert grid iteration max_residual.
  induction n as [|n IH]; intros grid iteration max_residual Hg; [done|].
  cbn [Fill.relax].
  pose proof (filled_sweep grid num_threads Hg) as Hs.
  destruct (Fill.poisson_grid_fill grid mask is_circle (Fin w) num_threads)
    as [g r].
  destruct (Double.ltb r epsilon); [done|]. by apply IH.
Qed.
End Filled.

(** The band average of a well-formed grid, under the mask of its undefined
    values, is a number. *)
Lemma zonal_guess_finite (grid : Matrix double) (iy : Z) :
  Mat.wf grid → (0 ≤ iy < cols grid)%Z →
  ∃ q, Laws.zonal_guess grid (Fill.undefined_mask grid) iy = Fin q.
Proof.
  intros Hwf Hiy. unfold Laws.zonal_guess.
  assert (Hacc : ∃ c s,
            for_range 0 (rows grid)
              (λ ix '(count, sum),
                 if Fill.masked (Fill.undefined_mask grid) ix iy then (count, sum)
                 else (S count, (sum + default NaN (Mat.get grid ix iy))%D))
              (O, Fin 0) = (c, Fin s)).
  { destruct (decide (0 ≤ rows grid)%Z) as [Hrows|Hneg].
    2: { rewrite for_range_nil by lia. by eexists _, _. }
    apply (for_range_ind (λ _ (acc : nat * double), ∃ c s, acc = (c, Fin s)));
      [done|by eexists _, _|].
    intros ix acc Hix (c & s & ->).
    rewrite masked_undefined_mask.
    destruct (proj2 (Hwf ix iy) (conj Hix Hiy)) as [v Hv]. rewrite Hv.
    destruct v as [|q]; cbn; by eexists _, _. }
  destruct Hacc as (c & s & ->).
  destruct c as [|c]; [by eexists|].
  cbn [Double.div]. rewrite Qeq_bool_false; [by eexists|].
  unfold Qeq. cbn. lia.
Qed.

Lemma filled_first_guess (first_guess : Fill.FirstGuess) (grid : Matrix double) :
  Mat.wf grid →
  Laws.filled (Fill.apply_first_guess first_guess grid (Fill.undefined_mask grid)).
Proof.
  intros Hwf. destruct first_guess; cbn [Fill.apply_first_guess].
  - split; [by apply wf_map|].
    intros i j Hi Hj. rewrite get_map.
    destruct (proj2 (Hwf i j) (conj Hi Hj)) as [v ->].
    destruct v as [|q]; cbn; by eexists.
  - destruct (set_zonal_average_bands (Fill.undefined_mask grid) grid)
      as (Hr & Hc & Hu & Hm).
    assert (Hget : ∀ i j, (0 ≤ i < rows grid)%Z → (0 ≤ j < cols grid)%Z →
              ∃ q, Mat.get (Fill.set_zonal_average grid (Fill.undefined_mask grid))
                     i j = Some (Fin q)).
    { intros i j Hi Hj.
      destruct (Fill.masked (Fill.undefined_mask grid) i j) eqn:Hmask.
      - rewrite (Hm i j Hi Hj Hmask).
        destruct (zonal_guess_finite grid j Hwf Hj) as [q ->]. by eexists.
      - rewrite (Hu i j Hmask). rewrite masked_undefined_mask in Hmask.
        destruct (proj2 (Hwf i j) (conj Hi Hj)) as [v Hv]. rewrite Hv in *.
        destruct v as [|q]; [done|]. by eexists. }
    split.
    + intros i j. rewrite Hr, Hc. split.
      * intros Hsome.
        destruct (decide (0 ≤ i < rows grid ∧ 0 ≤ j < cols grid)%Z) as [|Hout];
          [done|].
        assert (Hnone : Mat.get grid i j = None).
        { destruct (Mat.get grid i j) eqn:E; [|done].
          destruct Hout. apply Hwf. by rewrite E. }
        rewrite Hu in Hsome; [rewrite Hnone in Hsome; by destruct Hsome|].
        by rewrite masked_undefined_mask, Hnone.
      * intros [Hi Hj]. destruct (Hget i j Hi Hj) as [q ->]. by eexists.
    + intros i j. rewrite Hr, Hc. apply Hget.
Qed.

Lemma no_nan_finite (grid : Matrix double) :
  Mat.wf grid → Mat.hasNaN grid = false → Laws.finite grid.
Proof.
  intros Hwf Hnan i j Hi Hj.
  destruct (proj2 (Hwf i j) (conj Hi Hj)) as [v Hv].
  destruct v as [|q]; [|by eexists].
  unfold Mat.hasNaN in Hnan. apply bool_decide_eq_false in Hnan.
  destruct Hnan. exists (i, j), NaN. done.
Qed.

(** The Poisson fill leaves no undefined value: on a well-formed grid and
    with a relaxation factor that is a number, every cell of the grid left
    holds a number, whatever the first guess, the number of iterations
    (even none) and the number of threads. *)
Theorem poisson_leaves_no_nan (hardware_concurrency : nat)
    (grid : Matrix double) (first_guess : Fill.FirstGuess) (is_circle : bool)
    (max_iterations : nat) (epsilon : double) (w : Q) (num_threads : nat) :
  Mat.wf grid →
  Laws.finite (Fill.poisson hardware_concurrency grid first_guess is_circle
                 max_iterations epsilon (Fin w) num_threads).1.
Proof.
  intros Hwf. unfold Fill.poisson.
  destruct (Mat.hasNaN grid) eqn:Hnan; cbn [negb].
  - cbn zeta. apply filled_relax. by apply filled_first_guess.
  - by apply no_nan_finite.
Qed.

Lemma poisson_leaves_no_nan_witness :
  Mat.wf MoreExamples.grid3
  ∧ Mat.get MoreExamples.grid3 1 2 = Some NaN
  ∧ ∃ q, Mat.get (Fill.poisson 4 MoreExamples.grid3 Fill.kZero false 0
                    (Fin (1 # 1000)) (Fin 1) 1).1 1 2 = Some (Fin q).
Proof.
  assert (Hwf : Mat.wf MoreExamples.grid3) by (apply wf_set, wf_make).
  split; [exact Hwf|]. split; [reflexivity|].
  apply (poisson_leaves_no_nan 4 MoreExamples.grid3 Fill.kZero false 0
           (Fin (1 # 1000)) 1 1 Hwf 1%Z 2%Z).
  - vm_compute. split; [discriminate|reflexivity].
  - vm_compute. split; [discriminate|reflexivity].
Defined.

(** ** The ranges of the threads *)

Lemma holders_cons (iy : Z) (r : Z * Z) (ranges : list (Z * Z)) :
  Laws.holders iy (r :: ranges)
  = ((if bool_decide (r.1 ≤ iy < r.2)%Z then 1 else 0)
     + Laws.holders iy ranges)%nat.
Proof.
  unfold Laws.holders. rewrite filter_cons.
  destruct (decide (r.1 ≤ iy < r.2)%Z) as [H|H].
  - by rewrite bool_decide_eq_true_2.
  - by rewrite bool_decide_eq_false_2.
Qed.

Lemma holders_app (iy : Z) (l l' : list (Z * Z)) :
  Laws.holders iy (l ++ l') = (Laws.holders iy l + Laws.holders iy l')%nat.
Proof. unfold Laws.holders. by rewrite filter_app, length_app. Qed.

Lemma launch_holders (n : nat) (start shift iy : Z) :
  (0 ≤ shift)%Z →
  Laws.holders iy (Fill.launch n start shift).1
  = if bool_decide (start ≤ iy < start + Z.of_nat n * shift)%Z
    then 1%nat else 0%nat.
Proof.
  intros Hshift. revert start. induction n as [|n IH]; intros start.
  - cbn. rewrite bool_decide_eq_false_2 by lia. done.
  - cbn [Fill.launch]. specialize (IH (start + shift)%Z).
    destruct (Fill.launch n (start + shift) shift) as [l last].
    cbn [fst] in *. rewrite holders_cons, IH. cbn [fst snd].
    repeat case_bool_decide; try done; nia.
Qed.

(** With several threads the ranges given to the workers are disjoint and
    cover the columns from the first to the last but one: every column
    [0 <= iy < y_size - 1] belongs to the range of exactly one thread, and
    no other column belongs to any. *)
Theorem thread_ranges_partition (num_threads : nat) (y_size iy : Z) :
  (1 < num_threads)%nat → (1 ≤ y_size)%Z →
  Laws.holders iy (Fill.thread_ranges num_threads y_size)
  = if bool_decide (0 ≤ iy < y_size - 1)%Z then 1%nat else 0%nat.
Proof.
  intros Hn Hy. unfold Fill.thread_ranges.
  set (shift := (y_size `div` Z.of_nat num_threads)%Z).
  assert (Hpos : (0 < Z.of_nat num_threads)%Z) by lia.
  assert (Hshift : (0 ≤ shift)%Z) by (apply Z.div_pos; lia).
  pose proof (Z.mul_div_le y_size (Z.of_nat num_threads) Hpos) as Hle.
  fold shift in Hle.
  pose proof (launch_holders (num_threads - 1) 0 shift iy Hshift) as Hl.
  destruct (launch_spec (num_threads - 1) 0 shift) as [Hlast _].
  destruct (Fill.launch (num_threads - 1) 0 shift) as [l last].
  cbn [fst snd] in *. subst last.
  rewrite holders_app, Hl, holders_cons. cbn [fst snd Laws.holders filter length].
  assert (Hbound : (Z.of_nat (num_threads - 1) * shift ≤ y_size - 1)%Z) by nia.
  unfold Laws.holders. cbn.
  repeat case_bool_decide; try done; lia.
Qed.

Lemma thread_ranges_partition_witness :
  ((1 < 3)%nat ∧ (1 ≤ 10)%Z)
  ∧ Fill.thread_ranges 3 10 = [(0, 3); (3, 6); (6, 9)]%Z
  ∧ Laws.holders 4 (Fill.thread_ranges 3 10) = 1%nat
  ∧ Laws.holders 9 (Fill.thread_ranges 3 10) = 0%nat.
Proof.
  split; [split; lia|]. split; [reflexivity|]. split.
  - rewrite (thread_ranges_partition 3 10 4) by lia. reflexivity.
  - rewrite (thread_ranges_partition 3 10 9) by lia. reflexivity.
Defined.

(** ** LOESS keeps the sign of the data *)

Lemma tricube_nonneg (d : double) : ∃ t, Loess.tricube d = Fin t ∧ 0 <= t.
Proof.
  unfold Loess.tricube. destruct d as [|x]; cbn.
  - exists 0. split; [done|]. apply Qle_refl.
  - destruct (Qle_bool x 1) eqn:Hle.
    + apply Qle_bool_iff in Hle. eexists. split; [reflexivity|].
      assert (Hcube : x * x * x <= 1).
      { destruct (Qlt_le_dec x 0) as [Hneg|Hpos]; [nra|].
        assert (x * x <= 1) by nra. nra. }
      assert (Hy : 0 <= 1 - x * x * x) by lra.
      assert (0 <= (1 - x * x * x) * (1 - x * x * x)) by nra.
      nra.
    + exists 0. split; [done|]. apply Qle_refl.
Qed.

Section LoessSign.
Context (sqrt : Q → Q) (grid : Grid2D) (nx ny : nat) (sign : Q).
Hypothesis Hsign : ∀ i j v, value grid i j = Fin v → 0 <= sign * v.

(** The two sums of a window: the weights are not negative, and the
    weighted sum has the sign of the data. *)
Lemma accumulate_sign (x_frame y_frame : list Z) (cx cy : Q) :
  ∃ s w, Loess.accumulate sqrt grid nx ny x_frame y_frame cx cy = (Fin s, Fin w)
         ∧ 0 <= w ∧ 0 <= sign * s.
Proof using Hsign.
  unfold Loess.accumulate.
  pose (I := λ acc : double * double,
          ∃ s w, acc = (Fin s, Fin w) ∧ 0 <= w ∧ 0 <= sign * s).
  pose (inner := λ (wx : Z) '((value_, weight) : double * double) (wy : Z),
          let zi := value grid wx wy in
          if negb (Double.isnan zi) then
            let d :=
              Double.lift1 sqrt
                (Loess.sqr (Fin (Axis.coordinate_value (x grid) wx - cx)
                            / Fin (inject_Z (Z.of_nat nx)))
                 + Loess.sqr (Fin (Axis.coordinate_value (y grid) wy - cy)
                              / Fin (inject_Z (Z.of_nat ny))))%D in
            let wi := Loess.tricube d in
            ((value_ + wi * zi)%D, (weight + wi)%D)
          else (value_, weight)).
  change (I (foldl (λ acc wx, foldl (inner wx) acc y_frame) (Fin 0, Fin 0) x_frame)).
  assert (Hinner : ∀ wx l acc, I acc → I (foldl (inner wx) acc l)).
  { intros wx l. induction l as [|wy l IH]; intros acc Hacc; [done|].
    cbn [foldl]. apply IH. destruct Hacc as (s & w & -> & Hw & Hs).
    unfold inner. cbn zeta.
    destruct (value grid wx wy) as [|z] eqn:Hz; cbn [Double.isnan negb].
    - exists s, w. done.
    - pose proof (Hsign wx wy z Hz) as Hz'.
      match goal with |- context [Loess.tricube ?d] =>
        destruct (tricube_nonneg d) as (t & -> & Ht) end.
      cbn. eexists _, _. split; [reflexivity|].
      split; [lra|]. nra. }
  assert (Houter : ∀ l acc, I acc →
            I (foldl (λ acc wx, foldl (inner wx) acc y_frame) acc l)).
  { induction l as [|wx l IH]; intros acc Hacc; [done|].
    cbn [foldl]. apply IH. by apply Hinner. }
  apply Houter. exists 0, 0. split; [done|]. split; lra.
Qed.

(** The value written at a cell, copied or extrapolated, has the sign of
    the data. *)
Lemma cell_sign (ix iy : Z) (q : Q) :
  Loess.cell sqrt grid nx ny ix iy = Fin q → 0 <= sign * q.
Proof using Hsign.
  unfold Loess.cell. intros Hq.
  destruct (value grid ix iy) as [|z] eqn:Hz; cbn [Double.isnan] in Hq.
  - destruct (accumulate_sign
                (Axis.find_indexes_around (x grid)
                   (Axis.coordinate_value (x grid) ix) nx Axis.kSym)
                (Axis.find_indexes_around (y grid)
                   (Axis.coordinate_value (y grid) iy) ny Axis.kSym)
                (Axis.coordinate_value (x grid) ix)
                (Axis.coordinate_value (y grid) iy))
      as (s & w & Hacc & Hw & Hs).
    rewrite Hacc in Hq. cbn in Hq.
    destruct (Qeq_bool w 0) eqn:Hw0; cbn in Hq; [done|].
    injection Hq as <-.
    assert (Hpos : 0 < w).
    { apply Qle_lt_or_eq in Hw as [|Heq]; [done|].
      symmetry in Heq. apply Qeq_bool_iff in Heq. congruence. }
    assert (E : sign * (s / w) == sign * s / w) by (field; lra).
    rewrite E. apply Qle_shift_div_l; [done|lra].
  - injection Hq as <-. by apply (Hsign ix iy).
Qed.
End LoessSign.

(** LOESS keeps the sign of the data: when no defined value of the grid is
    negative, no number of the result is, copied or extrapolated, for any
    half-window and any rounding of the square root; and likewise when no
    defined value is positive.  The weights are not negative, so the sums
    and their quotient keep the sign. *)
Theorem loess_keeps_the_sign (sqrt : Q → Q) (uninitialized : double)
    (grid : Grid2D) (nx ny : nat) (ix iy : Z) (q : Q) :
  (0 ≤ ix < Axis.size (x grid))%Z → (0 ≤ iy < Axis.size (y grid))%Z →
  Mat.get (Loess.loess sqrt uninitialized grid nx ny) ix iy = Some (Fin q) →
  ((∀ i j v, value grid i j = Fin v → 0 <= v) → 0 <= q)
  ∧ ((∀ i j v, value grid i j = Fin v → v <= 0) → q <= 0).
Proof.
  intros Hx Hy. rewrite (loess_get sqrt uninitialized grid nx ny ix iy Hx Hy).
  intros [= Hq]. split; intros Hdata.
  - assert (H : 0 <= 1 * q); [|lra].
    apply (cell_sign sqrt grid nx ny 1) with ix iy; [|done].
    intros i j v Hv. pose proof (Hdata i j v Hv). lra.
  - assert (H : 0 <= -(1) * q); [|lra].
    apply (cell_sign sqrt grid nx ny (-(1))) with ix iy; [|done].
    intros i j v Hv. pose proof (Hdata i j v Hv). lra.
Qed.

Lemma field3_values (i j : Z) (v : Q) :
  value MoreExamples.field3 i j = Fin v → 0 <= v.
Proof.
  unfold value, MoreExamples.field3, MoreExamples.grid3. cbn [array].
  destruct (decide ((1, 2)%Z = (i, j))) as [[= <- <-]|Hne].
  - rewrite get_set_eq by (rewrite ?rows_make, ?cols_make; lia). done.
  - rewrite get_set_ne by done.
    destruct (decide (0 ≤ i < 3 ∧ 0 ≤ j < 3)%Z) as [[Hi Hj]|Hout].
    + rewrite get_make by done. cbn. intros [= <-]. discriminate.
    + destruct (Mat.get (Mat.make 3 3 (Fin 1)) i j) eqn:E; [|done].
      destruct Hout. pose proof (wf_make 3 3 (Fin 1) i j) as Hwf.
      rewrite rows_make, cols_make in Hwf. apply Hwf. by rewrite E.
Qed.

(** The undefined cell of a grid of ones, filled from its neighbors. *)
Lemma loess_keeps_the_sign_witness :
  ((0 ≤ 1 < Axis.size (x MoreExamples.field3))%Z
   ∧ (0 ≤ 2 < Axis.size (y MoreExamples.field3))%Z)
  ∧ ∃ q, Mat.get (Loess.loess Examples.sqrt_approx NaN MoreExamples.field3 2 2) 1 2
         = Some (Fin q) ∧ 0 <= q.
Proof.
  split; [split; vm_compute; (split; [discriminate|reflexivity])|].
  eexists. split; [vm_compute; reflexivity|].
  refine (proj1 (loess_keeps_the_sign Examples.sqrt_approx NaN MoreExamples.field3
                   2 2 1 2 _ _ _ _) field3_values).
  - vm_compute. split; [discriminate|reflexivity].
  - vm_compute. split; [discriminate|reflexivity].
  - vm_compute. reflexivity.
Defined.

(** ** Binning: where the samples go *)

Lemma ready_create (ax ay : Axis.t) :
  Axis.is_circle ax = false → Axis.is_circle ay = false →
  Axis.points ax ≠ [] → Axis.points ay ≠ [] →
  Laws.ready (Binning.create ax ay).
Proof.
  intros Hcx Hcy Hpx Hpy. unfold Laws.ready, Binning.create.
  cbn [Binning.x_ Binning.y_ Binning.acc_].
  rewrite rows_make, cols_make. repeat (split; [done|]).
  apply wf_allocated, wf_make.
Qed.

Lemma push_sample_spec (b : Binning.NearestBivariate) (sx sy : Q) (sz : double) :
  Laws.ready b →
  Laws.ready (Binning.push_sample b sx sy sz)
  ∧ Binning.x_ (Binning.push_sample b sx sy sz) = Binning.x_ b
  ∧ Binning.y_ (Binning.push_sample b sx sy sz) = Binning.y_ b
  ∧ ∀ i j l, Mat.get (Binning.acc_ b) i j = Some l →
      Mat.get (Binning.acc_ (Binning.push_sample b sx sy sz)) i j
      = Some (Laws.landed (Binning.x_ b) (Binning.y_ b) i j [sx] [sy] [sz] ++ l).
Proof.
  intros Hready.
  pose proof Hready as (Hcx & Hcy & Hpx & Hpy & Hr & Hc & Hacc).
  destruct (find_index_bounded _ sx Hcx Hpx) as [Efx Hrx].
  destruct (find_index_bounded _ sy Hcy Hpy) as [Efy Hry].
  unfold Binning.push_sample. rewrite Efx, Efy.
  rewrite !bool_decide_eq_true_2 by lia. cbn [andb Laws.landed].
  destruct sz as [|v]; [by split; [|split; [|split]]|].
  destruct (Hacc (Spec.bin_index (Binning.x_ b) sx)
                 (Spec.bin_index (Binning.y_ b) sy)) as [l0 Hl0]; [lia..|].
  unfold Binning.accumulate. rewrite Hl0.
  cbn [Binning.x_ Binning.y_ Binning.acc_].
  split; [|split; [done|split; [done|]]].
  - unfold Laws.ready. cbn [Binning.x_ Binning.y_ Binning.acc_].
    rewrite rows_set, cols_set. repeat (split; [done|]).
    intros i j Hi Hj. rewrite rows_set in Hi. rewrite cols_set in Hj.
    destruct (decide ((Spec.bin_index (Binning.x_ b) sx,
                       Spec.bin_index (Binning.y_ b) sy) = (i, j)))
      as [[= <- <-]|Hne].
    + rewrite get_set_eq by lia. by eexists.
    + rewrite get_set_ne by done. by apply Hacc.
  - intros i j l Hl. case_bool_decide as Hbin.
    + destruct Hbin as [<- <-]. rewrite get_set_eq by lia.
      rewrite Hl0 in Hl. by injection Hl as <-.
    + rewrite get_set_ne; [done|]. intros [= <- <-]. by apply Hbin.
Qed.

Lemma landed_cons (ax ay : Axis.t) (i j : Z) (sx sy : Q) (sz : double)
    (xs ys : list Q) (zs : list double) :
  Laws.landed ax ay i j (sx :: xs) (sy :: ys) (sz :: zs)
  = Laws.landed ax ay i j [sx] [sy] [sz] ++ Laws.landed ax ay i j xs ys zs.
Proof.
  cbn [Laws.landed]. destruct sz as [|v]; [done|].
  by destruct (bool_decide _).
Qed.

Lemma push_loop_spec (xs ys : list Q) (zs : list double)
    (b : Binning.NearestBivariate) :
  Laws.ready b →
  Laws.ready (Binning.push_loop b xs ys zs)
  ∧ Binning.x_ (Binning.push_loop b xs ys zs) = Binning.x_ b
  ∧ Binning.y_ (Binning.push_loop b xs ys zs) = Binning.y_ b
  ∧ ∀ i j l, Mat.get (Binning.acc_ b) i j = Some l →
      Mat.get (Binning.acc_ (Binning.push_loop b xs ys zs)) i j
      = Some (rev (Laws.landed (Binning.x_ b) (Binning.y_ b) i j xs ys zs) ++ l).
Proof.
  revert ys zs b. induction xs as [|sx xs IH]; intros ys zs b Hready.
  - cbn. by split; [|split; [|split]].
  - destruct ys as [|sy ys]; [cbn; by split; [|split; [|split]]|].
    destruct zs as [|sz zs]; [cbn; by split; [|split; [|split]]|].
    cbn [Binning.push_loop].
    destruct (push_sample_spec b sx sy sz Hready) as (Hready' & Hx & Hy & Hget).
    destruct (IH ys zs _ Hready') as (Hready'' & Hx' & Hy' & Hget').
    split; [done|]. split; [congruence|]. split; [congruence|].
    intros i j l Hl. rewrite (Hget' i j _ (Hget i j l Hl)).
    rewrite Hx, Hy, (landed_cons _ _ i j sx sy sz xs ys zs).
    rewrite rev_app_distr, <- app_assoc.
    f_equal. f_equal. f_equal.
    cbn [Laws.landed]. destruct sz as [|v]; [done|]. by destruct (bool_decide _).
Qed.


Lemma ready_bins3 : Laws.ready Examples.bins3.
Proof. by apply ready_create. Qed.


(** ** Binning: reset and count *)

Lemma clear_spec (b : Binning.NearestBivariate) :
  Laws.ready b →
  Laws.ready (BinningStats.clear b)
  ∧ ∀ i j, (0 ≤ i < Axis.size (Binning.x_ b))%Z →
           (0 ≤ j < Axis.size (Binning.y_ b))%Z →
      Mat.get (Binning.acc_ (BinningStats.clear b)) i j = Some [].
Proof.
  intros (Hcx & Hcy & Hpx & Hpy & Hr & Hc & Hacc).
  unfold BinningStats.clear, Laws.ready.
  cbn [Binning.x_ Binning.y_ Binning.acc_].
  rewrite (rows_tabulate (A:=list Q) (λ _ _, [])).
  rewrite (cols_tabulate (A:=list Q) (λ _ _, [])).
  assert (Hget : ∀ i j, (0 ≤ i < Axis.size (Binning.x_ b))%Z →
                        (0 ≤ j < Axis.size (Binning.y_ b))%Z →
            Mat.get (for_range 0 (rows (Binning.acc_ b))
                       (λ ix acc, for_range 0 (cols (Binning.acc_ b))
                                    (λ iy acc, Mat.set acc ix iy []) acc)
                       (Binning.acc_ b)) i j = Some []).
  { intros i j Hi Hj.
    apply (get_tabulate (A:=list Q) (λ _ _, [])); [done|done|lia|lia]. }
  split; [|done]. repeat (split; [done|]).
  intros i j Hi Hj.
  rewrite (rows_tabulate (A:=list Q) (λ _ _, [])) in Hi.
  rewrite (cols_tabulate (A:=list Q) (λ _ _, [])) in Hj.
  rewrite Hget; [by eexists| |].
  - rewrite <- Hr. exact Hi.
  - rewrite <- Hc. exact Hj.
Qed.

Lemma count_get (uninitialized : double) (b : Binning.NearestBivariate)
    (i j : Z) (l : Binning.Accumulators) :
  Laws.ready b → Mat.get (Binning.acc_ b) i j = Some l →
  (0 ≤ i < Axis.size (Binning.x_ b))%Z → (0 ≤ j < Axis.size (Binning.y_ b))%Z →
  Mat.get (BinningStats.count uninitialized b) i j
  = Some (Fin (inject_Z (Z.of_nat (length l)))).
Proof.
  intros (_ & _ & _ & _ & Hr & Hc & _) Hl Hi Hj.
  unfold BinningStats.count, BinningStats.calculate_statistics. cbn zeta.
  rewrite (get_tabulate
             (λ ix iy, Fin (inject_Z (Z.of_nat
                (length (default [] (Mat.get (Binning.acc_ b) ix iy)))))));
    [by rewrite Hl| | |lia|lia].
  - rewrite rows_make. by rewrite Hr.
  - rewrite cols_make. by rewrite Hc.
Qed.



(** ** The geodetic tree: packing and the plain query *)

Lemma packing_dim_spec (dimensions : Z) (tree : RTree.t)
    (coordinates : Matrix Q) (values : list Q) :
  let tree' := RTree.packing_dim dimensions tree coordinates values in
  RTree.coordinates_ tree' = RTree.coordinates_ tree
  ∧ RTree.strategy_ tree' = RTree.strategy_ tree
  ∧ RTree.tree_ tree'
    = Laws.packed dimensions tree coordinates values
        <$> seqZ 0 (rows coordinates).
Proof.
  cbn zeta. unfold RTree.packing_dim, RTree.with_tree, RTree.base_packing.
  cbn [RTree.coordinates_ RTree.strategy_ RTree.tree_].
  split; [done|]. split; [done|].
  unfold for_range. rewrite Z.sub_0_r.
  generalize (seqZ 0 (rows coordinates)) as l. intros l.
  induction l as [|ix l IH] using rev_ind; [done|].
  rewrite foldl_app, fmap_app. cbn [foldl fmap list_fmap]. by rewrite IH.
Qed.

Lemma insert_sorted_perm (p : RTree.Point3D) (item : RTree.value_t)
    (l : list RTree.value_t) :
  RTree.insert_sorted p item l ≡ₚ item :: l.
Proof.
  induction l as [|h l IH]; [done|]. cbn [RTree.insert_sorted].
  destruct (negb _); [done|]. rewrite IH. apply Permutation_swap.
Qed.

Lemma sorted_perm (p : RTree.Point3D) (items acc : list RTree.value_t) :
  foldl (λ sorted item, RTree.insert_sorted p item sorted) acc items
  ≡ₚ items ++ acc.
Proof.
  revert acc. induction items as [|item items IH]; intros acc; [done|].
  cbn [foldl]. rewrite IH, insert_sorted_perm. by rewrite <- Permutation_middle.
Qed.

Lemma index_nearest_spec (p : RTree.Point3D) (k : nat)
    (items : list RTree.value_t) :
  length (RTree.index_nearest p k items) = (k `min` length items)%nat
  ∧ ∀ item, item ∈ RTree.index_nearest p k items → item ∈ items.
Proof.
  unfold RTree.index_nearest.
  pose proof (sorted_perm p items []) as Hperm. rewrite app_nil_r in Hperm.
  split.
  - rewrite length_take. by rewrite Hperm.
  - intros item Hin. rewrite <- Hperm. by eapply subseteq_take.
Qed.

Lemma with_dimensions_accepts {A : Type} (coordinates : Matrix Q)
    (values : list Q) (f : Z → A) :
  rows coordinates = Z.of_nat (length values) →
  cols coordinates = 2%Z ∨ cols coordinates = 3%Z →
  RTree.with_dimensions coordinates values f = ret (f (cols coordinates)).
Proof.
  intros Hrows Hcols. unfold RTree.with_dimensions.
  rewrite bool_decide_eq_false_2 by (intros H; by apply H).
  destruct Hcols as [Hc | Hc]; rewrite Hc.
  - by rewrite bool_decide_eq_true_2.
  - rewrite bool_decide_eq_false_2 by done. by rewrite bool_decide_eq_true_2.
Qed.

(** [packing] stores the values given: whatever the tree held, it holds
    afterwards the position of each row of the coordinates, converted to the
    Cartesian frame, paired with the value of the same index; a query then
    reports, for each neighbor, the value given for a row. *)
Theorem packing_stores_values (tree : RTree.t) (coordinates : Matrix Q)
    (values : list Q) :
  rows coordinates = Z.of_nat (length values) →
  cols coordinates = 2%Z ∨ cols coordinates = 3%Z →
  ∃ tree', RTree.packing tree coordinates values = ret tree'
    ∧ RTree.tree_ tree'
      = Laws.packed (cols coordinates) tree coordinates values
          <$> seqZ 0 (rows coordinates)
    ∧ ∀ point k r, r ∈ RTree.query tree' point k →
        ∃ ix, (0 ≤ ix < rows coordinates)%Z
          ∧ r = (RTree.strategy_ tree point
                   (RTree.ecef_to_lla (RTree.coordinates_ tree)
                      (RTree.lla_to_ecef (RTree.coordinates_ tree)
                         (RTree.point_of_row (cols coordinates) coordinates ix))),
                 RTree.value_at values ix).
Proof.
  intros Hrows Hcols. unfold RTree.packing.
  rewrite with_dimensions_accepts by done.
  destruct (packing_dim_spec (cols coordinates) tree coordinates values)
    as (Hc & Hs & Ht).
  eexists. split; [reflexivity|]. split; [done|].
  intros point k r Hr. unfold RTree.query in Hr.
  apply list_elem_of_fmap in Hr as (item & -> & Hitem).
  apply index_nearest_spec in Hitem. rewrite Ht in Hitem.
  apply list_elem_of_fmap in Hitem as (ix & -> & Hix).
  apply elem_of_seqZ in Hix. exists ix. split; [lia|].
  unfold RTree.found, Laws.packed. cbn [fst snd]. by rewrite Hc, Hs.
Qed.

Lemma packing_stores_values_witness :
  (rows Examples.at_origin = Z.of_nat (length [5])
   ∧ (cols Examples.at_origin = 2%Z ∨ cols Examples.at_origin = 3%Z))
  ∧ ∃ tree', RTree.packing Examples.tree1 Examples.at_origin [5] = ret tree'
      ∧ RTree.tree_ tree' = [(RTree.mkPoint3D 0 0 0, 5)].
Proof.
  split; [split; [reflexivity|left; reflexivity]|].
  destruct (packing_stores_values Examples.tree1 Examples.at_origin [5]
              eq_refl (or_introl eq_refl)) as (tree' & Hpack & Htree & _).
  exists tree'. split; [exact Hpack|]. rewrite Htree. reflexivity.
Defined.

(** The plain query returns [k] pairs, or as many as the tree holds items
    when it holds fewer, and each pair is made of the distance to a stored
    item and of the value of that item. *)
Theorem query_from_tree (tree : RTree.t) (point : RTree.EquatorialPoint3D)
    (k : nat) :
  length (RTree.query tree point k) = (k `min` length (RTree.tree_ tree))%nat
  ∧ ∀ r, r ∈ RTree.query tree point k →
      ∃ item, item ∈ RTree.tree_ tree ∧ r = RTree.found tree point item.
Proof.
  unfold RTree.query.
  destruct (index_nearest_spec
              (RTree.lla_to_ecef (RTree.coordinates_ tree) point) k
              (RTree.tree_ tree)) as [Hlen Hin].
  split; [by rewrite length_fmap|].
  intros r Hr. apply list_elem_of_fmap in Hr as (item & -> & Hitem).
  exists item. split; [by apply Hin|done].
Qed.

(** ** The geodetic tree: the neighbors in the matrices *)

Lemma write_row_found (r : Z) (k : nat) (ix : Z) (nearest : list RTree.result_t)
    (out0 : Matrix Q * Matrix Q) :
  (0 ≤ ix < r)%Z → Spec.shaped r k out0 →
  ∀ jx item, (0 ≤ jx < Z.of_nat k)%Z → nearest !! Z.to_nat jx = Some item →
    Mat.get (RTree.write_row ix k nearest out0).1 ix jx = Some item.1
    ∧ Mat.get (RTree.write_row ix k nearest out0).2 ix jx = Some item.2.
Proof.
  intros Hix Hshape jx item Hjx Hitem. unfold RTree.write_row.
  set (len := Z.of_nat (length nearest)).
  assert (Hlen : (jx < len)%Z).
  { apply lookup_lt_Some in Hitem. unfold len, RTree.result_t in *. lia. }
  pose (P := λ (j' : Z) (out : Matrix Q * Matrix Q),
          Spec.shaped r k out
          ∧ ((jx < j')%Z →
             Mat.get out.1 ix jx = Some item.1 ∧ Mat.get out.2 ix jx = Some item.2)).
  assert (Hfound : P len (for_range 0 len
            (λ jx '(distance, value),
               let item := default (0, 0) (nearest !! Z.to_nat jx) in
               (Mat.set distance ix jx item.1, Mat.set value ix jx item.2))
            out0)).
  { apply (for_range_ind P); [unfold len; lia| |].
    - split; [done|]. lia.
    - intros j' [d v] Hj' [(Hr1 & Hc1 & Hr2 & Hc2) Hdone]. cbn [fst snd] in *.
      split.
      + unfold Spec.shaped. cbn [fst snd]. by rewrite !rows_set, !cols_set.
      + intros Hlt. cbn -[Mat.get Mat.set].
        destruct (decide (jx = j')) as [<-|Hne].
        * rewrite Hitem. cbn [default]. rewrite !get_set_eq by lia. done.
        * rewrite !get_set_ne by congruence. apply Hdone. lia. }
  destruct Hfound as [Hshape' Hdone]. specialize (Hdone Hlen).
  apply (for_range_inv
           (λ out : Matrix Q * Matrix Q,
              Mat.get out.1 ix jx = Some item.1 ∧ Mat.get out.2 ix jx = Some item.2));
    [done|].
  intros j' [d v] Hj' [Hd Hv]. cbn [fst snd] in *.
  rewrite !get_set_ne; [done| |]; intros [= ->]; lia.
Qed.

(** In the vectorized query, the row of a target holds its neighbors in the
    order the query returns them: the entry [jx] of the two matrices is the
    distance and the value of the neighbor [jx], for each neighbor up to
    [k]. *)
Theorem query_writes_neighbors (uninitialized : Q) (dimensions : Z)
    (tree : RTree.t) (coordinates : Matrix Q) (k : nat) (within : bool)
    (ix jx : Z) (item : RTree.result_t) :
  let method := if within then RTree.query_within else RTree.query in
  let nearest := method tree (RTree.point_of_row dimensions coordinates ix) k in
  let out := RTree.query_dim uninitialized dimensions tree coordinates k within in
  (0 ≤ ix < rows coordinates)%Z → (0 ≤ jx < Z.of_nat k)%Z →
  nearest !! Z.to_nat jx = Some item →
  Mat.get out.1 ix jx = Some item.1 ∧ Mat.get out.2 ix jx = Some item.2.
Proof.
  cbn zeta. intros Hix Hjx Hitem. unfold RTree.query_dim. cbn zeta.
  set (method := if within then RTree.query_within else RTree.query) in *.
  set (r := rows coordinates) in *.
  set (body := λ (ix : Z) (out : Matrix Q * Matrix Q), RTree.write_row ix k _ out).
  set (init := (Mat.make r (Z.of_nat k) uninitialized,
                Mat.make r (Z.of_nat k) uninitialized)).
  pose (P := λ (i' : Z) (out : Matrix Q * Matrix Q),
          Spec.shaped r k out
          ∧ ((ix < i')%Z →
             Mat.get out.1 ix jx = Some item.1 ∧ Mat.get out.2 ix jx = Some item.2)).
  enough (HP : P r (for_range 0 r body init)).
  { destruct HP as [_ HP]. apply HP. lia. }
  apply (for_range_ind P); [lia| |].
  - split; [|lia].
    unfold Spec.shaped, init. cbn [fst snd]. by rewrite !rows_make, !cols_make.
  - intros i' out Hi' [Hshape Hdone].
    destruct (write_row_spec r k i'
                (method tree (RTree.point_of_row dimensions coordinates i') k)
                out Hi' Hshape) as (Hshape' & Hother & _).
    unfold body. split; [done|].
    intros Hlt. destruct (decide (ix = i')) as [<-|Hne].
    + by apply (write_row_found r k ix _ out Hi' Hshape jx item).
    + destruct (Hother ix jx Hne) as [-> ->]. apply Hdone. lia.
Qed.

Lemma query_writes_neighbors_witness :
  ((0 ≤ 0 < rows Examples.at_origin)%Z ∧ (0 ≤ 0 < Z.of_nat 2)%Z
   ∧ RTree.query Examples.tree1
       (RTree.point_of_row 2 Examples.at_origin 0) 2 !! Z.to_nat 0
     = Some (0, 10))
  ∧ Mat.get (RTree.query_dim 77 2 Examples.tree1 Examples.at_origin 2 false).1 0 0
    = Some 0
  ∧ Mat.get (RTree.query_dim 77 2 Examples.tree1 Examples.at_origin 2 false).2 0 0
    = Some 10.
Proof.
  split.
  - split; [vm_compute; split; [discriminate|reflexivity]|].
    split; [lia|reflexivity].
  - apply (query_writes_neighbors 77 2 Examples.tree1 Examples.at_origin 2
             false 0 0 (0, 10)).
    + vm_compute. split; [discriminate|reflexivity].
    + lia.
    + reflexivity.
Defined.

(** ** The geodetic tree: the ball *)

Section Ball.
Context (tree : RTree.t) (point : RTree.EquatorialPoint3D) (radius : Q).

(** A pair of the result comes from a stored item that passed the test of
    the predicate. *)
Lemma query_ball_found (r : RTree.result_t) :
  r ∈ RTree.query_ball tree point radius →
  ∃ item, item ∈ RTree.tree_ tree
    ∧ RTree.strategy_ tree
        (RTree.ecef_to_lla (RTree.coordinates_ tree) item.1) point < radius
    ∧ r = RTree.found tree point item.
Proof.
  unfold RTree.query_ball, RTree.index_satisfies.
  rewrite list_elem_of_fmap. intros (item & -> & Hin). exists item.
  apply list_elem_of_In, filter_In in Hin as [Hin Hlt].
  split; [by apply list_elem_of_In|]. split; [|done].
  by apply Qlt_not_le_bool.
Qed.

(** When the distance is symmetric, as the haversine distance is, every
    distance that [query_ball] reports is less than the radius. *)
Theorem query_ball_distances_below_radius (d v : Q) :
  (∀ a b, RTree.strategy_ tree a b == RTree.strategy_ tree b a) →
  (d, v) ∈ RTree.query_ball tree point radius → d < radius.
Proof.
  intros Hsym Hin.
  apply query_ball_found in Hin as (item & _ & Hlt & [= -> _]).
  by rewrite Hsym.
Qed.

(** When no distance is negative, a radius that is zero or negative selects
    nothing. *)
Theorem query_ball_without_radius :
  (∀ a b, 0 <= RTree.strategy_ tree a b) → radius <= 0 →
  RTree.query_ball tree point radius = [].
Proof.
  intros Hpos Hrad.
  destruct (RTree.query_ball tree point radius) as [|r l] eqn:E; [done|].
  assert (Hin : r ∈ RTree.query_ball tree point radius)
    by (rewrite E; apply list_elem_of_here).
  apply query_ball_found in Hin as (item & _ & Hlt & _).
  pose proof (Hpos (RTree.ecef_to_lla (RTree.coordinates_ tree) item.1) point).
  lra.
Qed.
End Ball.

Lemma flat_distance_symmetric (a b : RTree.EquatorialPoint3D) :
  RTree.flat_distance a b == RTree.flat_distance b a.
Proof.
  unfold RTree.flat_distance.
  by rewrite (Qabs_Qminus (RTree.lon a)), (Qabs_Qminus (RTree.lat a)).
Qed.

Lemma flat_distance_nonneg (a b : RTree.EquatorialPoint3D) :
  0 <= RTree.flat_distance a b.
Proof.
  unfold RTree.flat_distance.
  pose proof (Qabs_nonneg (RTree.lon a - RTree.lon b)).
  pose proof (Qabs_nonneg (RTree.lat a - RTree.lat b)). lra.
Qed.

Lemma query_ball_distances_below_radius_witness :
  ((∀ a b, RTree.strategy_ Examples.tree1 a b == RTree.strategy_ Examples.tree1 b a)
   ∧ (0, 10) ∈ RTree.query_ball Examples.tree1 Examples.origin 1)
  ∧ 0 < 1.
Proof.
  assert (Hin : (0, 10) ∈ RTree.query_ball Examples.tree1 Examples.origin 1)
    by (vm_compute; apply list_elem_of_here).
  split; [split; [exact flat_distance_symmetric|exact Hin]|].
  exact (query_ball_distances_below_radius Examples.tree1 Examples.origin 1
           0 10 flat_distance_symmetric Hin).
Defined.

Lemma query_ball_without_radius_witness :
  ((∀ a b, 0 <= RTree.strategy_ Examples.tree1 a b) ∧ 0 <= 0)
  ∧ RTree.query_ball Examples.tree1 Examples.origin 0 = [].
Proof.
  split; [split; [exact flat_distance_nonneg|apply Qle_refl]|].
  exact (query_ball_without_radius Examples.tree1 Examples.origin 0
           flat_distance_nonneg (Qle_refl 0)).
Defined.

(** ** The geodetic tree: its bounds *)

Section Bounds.
Context (tree : RTree.t).

Local Abbreviation lla item :=
  (RTree.ecef_to_lla (RTree.coordinates_ tree) (fst item)).

(** The loop only widens the extent, and the extent it leaves holds every
    item met. *)
Lemma widen_all (items : list RTree.value_t) (e : RTreeBounds.extent) :
  let e' := foldl (RTreeBounds.widen tree) e items in
  (RTreeBounds.x0 e' <= RTreeBounds.x0 e ∧ RTreeBounds.x1 e <= RTreeBounds.x1 e'
   ∧ RTreeBounds.y0 e' <= RTreeBounds.y0 e ∧ RTreeBounds.y1 e <= RTreeBounds.y1 e'
   ∧ RTreeBounds.z0 e' <= RTreeBounds.z0 e ∧ RTreeBounds.z1 e <= RTreeBounds.z1 e')
  ∧ ∀ item, item ∈ items →
      (RTreeBounds.x0 e' <= RTree.lon (lla item)
       ∧ RTree.lon (lla item) <= RTreeBounds.x1 e')
      ∧ (RTreeBounds.y0 e' <= RTree.lat (lla item)
         ∧ RTree.lat (lla item) <= RTreeBounds.y1 e')
      ∧ (RTreeBounds.z0 e' <= RTree.alt (lla item)
         ∧ RTree.alt (lla item) <= RTreeBounds.z1 e').
Proof.
  cbn zeta. revert e. induction items as [|h items IH]; intros e.
  - cbn. split; [repeat split; apply Qle_refl|].
    intros item Hin. by apply elem_of_nil in Hin.
  - cbn [foldl]. destruct (IH (RTreeBounds.widen tree e h)) as [Hmono Hall].
    destruct Hmono as (Hx0 & Hx1 & Hy0 & Hy1 & Hz0 & Hz1).
    cbn [RTreeBounds.widen RTreeBounds.x0 RTreeBounds.x1 RTreeBounds.y0
         RTreeBounds.y1 RTreeBounds.z0 RTreeBounds.z1] in *.
    pose proof (Q.le_min_l (RTreeBounds.x0 e) (RTree.lon (lla h))).
    pose proof (Q.le_min_r (RTreeBounds.x0 e) (RTree.lon (lla h))).
    pose proof (Q.le_max_l (RTreeBounds.x1 e) (RTree.lon (lla h))).
    pose proof (Q.le_max_r (RTreeBounds.x1 e) (RTree.lon (lla h))).
    pose proof (Q.le_min_l (RTreeBounds.y0 e) (RTree.lat (lla h))).
    pose proof (Q.le_min_r (RTreeBounds.y0 e) (RTree.lat (lla h))).
    pose proof (Q.le_max_l (RTreeBounds.y1 e) (RTree.lat (lla h))).
    pose proof (Q.le_max_r (RTreeBounds.y1 e) (RTree.lat (lla h))).
    pose proof (Q.le_min_l (RTreeBounds.z0 e) (RTree.alt (lla h))).
    pose proof (Q.le_min_r (RTreeBounds.z0 e) (RTree.alt (lla h))).
    pose proof (Q.le_max_l (RTreeBounds.z1 e) (RTree.alt (lla h))).
    pose proof (Q.le_max_r (RTreeBounds.z1 e) (RTree.alt (lla h))).
    split.
    + repeat split; lra.
    + intros item Hin. apply elem_of_cons in Hin as [->|Hin].
      * repeat split; lra.
      * by apply Hall.
Qed.

(** [equatorial_bounds] returns nothing for an empty tree and otherwise a
    box that holds the position, by longitude, latitude and altitude, of
    every item of the tree. *)
Theorem equatorial_bounds_hold_the_items (max_value min_value : Q) :
  (RTree.tree_ tree = [] →
   RTreeBounds.equatorial_bounds max_value min_value tree = None)
  ∧ (RTree.tree_ tree ≠ [] →
     ∃ lo hi, RTreeBounds.equatorial_bounds max_value min_value tree
              = Some (lo, hi)
       ∧ ∀ item, item ∈ RTree.tree_ tree → Laws.holds lo hi (lla item)).
Proof.
  unfold RTreeBounds.equatorial_bounds. split.
  - by intros ->.
  - intros Hne. destruct (RTree.tree_ tree) as [|h items] eqn:E; [done|].
    cbn zeta. eexists _, _. split; [reflexivity|].
    intros item Hin.
    destruct (widen_all (h :: items)
                (RTreeBounds.mkExtent max_value min_value max_value min_value
                   max_value min_value)) as [_ Hall].
    exact (Hall item Hin).
Qed.

(** The corners of the box start from the greatest and from the least
    positive value of the type, not from the first item: no coordinate of
    the upper corner is below [numeric_limits::min()], which is positive,
    and none of the lower corner is above [numeric_limits::max()].  The
    upper corner of a tree whose coordinates are all negative is therefore
    not a coordinate of the tree. *)
Theorem equatorial_bounds_start_values (max_value min_value : Q)
    (lo hi : RTree.EquatorialPoint3D) :
  RTreeBounds.equatorial_bounds max_value min_value tree = Some (lo, hi) →
  (min_value <= RTree.lon hi ∧ min_value <= RTree.lat hi
   ∧ min_value <= RTree.alt hi)
  ∧ (RTree.lon lo <= max_value ∧ RTree.lat lo <= max_value
     ∧ RTree.alt lo <= max_value).
Proof.
  unfold RTreeBounds.equatorial_bounds.
  destruct (RTree.tree_ tree) as [|h items] eqn:E; [done|].
  cbn zeta. intros [= <- <-].
  destruct (widen_all (h :: items)
              (RTreeBounds.mkExtent max_value min_value max_value min_value
                 max_value min_value)) as [Hmono _].
  cbn [RTreeBounds.x0 RTreeBounds.x1 RTreeBounds.y0 RTreeBounds.y1
       RTreeBounds.z0 RTreeBounds.z1 RTree.lon RTree.lat RTree.alt] in *.
  destruct Hmono as (Hx0 & Hx1 & Hy0 & Hy1 & Hz0 & Hz1). by repeat split.
Qed.
End Bounds.

(** A tree on the flat earth with one item in the west and in the south:
    the upper corner of its bounds is not the position of the item but the
    value the loop starts from. *)
Lemma equatorial_bounds_start_values_witness :
  RTreeBounds.equatorial_bounds 1000 (1 # 1000) MoreExamples.west
  = Some (RTree.mkLLA (-10) (-20) 0, RTree.mkLLA (1 # 1000) (1 # 1000) (1 # 1000))
  ∧ 1 # 1000 <= RTree.lon (RTree.mkLLA (1 # 1000) (1 # 1000) (1 # 1000)).
Proof.
  assert (H : RTreeBounds.equatorial_bounds 1000 (1 # 1000) MoreExamples.west
              = Some (RTree.mkLLA (-10) (-20) 0,
                      RTree.mkLLA (1 # 1000) (1 # 1000) (1 # 1000)))
    by (vm_compute; reflexivity).
  split; [exact H|].
  exact (proj1 (proj1 (equatorial_bounds_start_values MoreExamples.west 1000
                         (1 # 1000) _ _ H))).
Defined.

(** ** Linear interpolation: the bounds of the interval *)

(** At a bound of the interval the linear interpolation returns the value
    of that bound. *)
Theorem linear_at_the_bounds (x0 x1 y0 y1 : Q) :
  ¬ x0 == x1 →
  Double.eqv (Math.linear x0 x0 x1 (Fin y0) (Fin y1)) (Fin y0)
  ∧ Double.eqv (Math.linear x1 x0 x1 (Fin y0) (Fin y1)) (Fin y1).
Proof.
  intros Hne.
  assert (Hdx : ¬ x1 - x0 == 0) by (intros H; apply Hne; lra).
  destruct (linear_fin x0 x0 x1 y0 y1 Hne) as (q0 & -> & Hq0).
  destruct (linear_fin x1 x0 x1 y0 y1 Hne) as (q1 & -> & Hq1).
  unfold Double.eqv, Math.textbook in *. split.
  - rewrite Hq0. field. done.
  - rewrite Hq1. field. done.
Qed.

Lemma linear_at_the_bounds_witness :
  ¬ 2 == 6
  ∧ Double.eqv (Math.linear 2 2 6 (Fin 8) (Fin 16)) (Fin 8)
  ∧ Double.eqv (Math.linear 6 2 6 (Fin 8) (Fin 16)) (Fin 16).
Proof.
  split; [discriminate|]. apply linear_at_the_bounds. discriminate.
Defined.

(** On a bound of the Z bracket the trivariate spline returns the planar
    result of that bound. *)
Theorem spline_3d_at_the_planes (interpolate : Spline.Interpolator)
    (nx ny : nat) (fitting_model : Spline.FittingModel)
    (boundary : Axis.Boundary) (bounds_error : bool) (grid : Spline.Grid3D)
    (xi yi : Q) (frame : Spline.XArray3D) (r0 r1 : Q) :
  ¬ Spline.z0 frame == Spline.z1 frame →
  (let xn := if Axis.is_angle (Spline.x3 grid)
             then Spline.normalize_angle (Spline.plane0 frame) xi else xi in
   interpolate fitting_model xn yi (Spline.plane0 frame) = Fin r0
   ∧ interpolate fitting_model xn yi (Spline.plane1 frame) = Fin r1) →
  (Spline.load_frame_3d grid xi yi (Spline.z0 frame) nx ny boundary bounds_error
     = ret (Some frame) →
   ∃ q, Spline.spline_3d_at interpolate nx ny fitting_model boundary
          bounds_error grid (xi, yi, Spline.z0 frame) = ret (Fin q)
        ∧ q == r0)
  ∧ (Spline.load_frame_3d grid xi yi (Spline.z1 frame) nx ny boundary bounds_error
       = ret (Some frame) →
     ∃ q, Spline.spline_3d_at interpolate nx ny fitting_model boundary
            bounds_error grid (xi, yi, Spline.z1 frame) = ret (Fin q)
          ∧ q == r1).
Proof.
  intros Hz Hplanes.
  assert (Hdz : ¬ Spline.z1 frame - Spline.z0 frame == 0)
    by (intros H; apply Hz; lra).
  split; intros Hload.
  - destruct (spline_3d_closes_with_linear interpolate nx ny fitting_model
                boundary bounds_error grid xi yi (Spline.z0 frame) frame r0 r1
                Hload Hz Hplanes) as (q & Hq & Heq).
    exists q. split; [done|]. rewrite Heq. unfold Math.textbook. field. done.
  - destruct (spline_3d_closes_with_linear interpolate nx ny fitting_model
                boundary bounds_error grid xi yi (Spline.z1 frame) frame r0 r1
                Hload Hz Hplanes) as (q & Hq & Heq).
    exists q. split; [done|]. rewrite Heq. unfold Math.textbook. field. done.
Qed.

Lemma spline_3d_at_the_planes_witness :
  (¬ Spline.z0 MoreExamples.frame3d == Spline.z1 MoreExamples.frame3d
   ∧ Examples.first_node Spline.kLinear (1 # 2) (1 # 2)
       (Spline.plane0 MoreExamples.frame3d) = Fin 1
   ∧ Examples.first_node Spline.kLinear (1 # 2) (1 # 2)
       (Spline.plane1 MoreExamples.frame3d) = Fin 3
   ∧ Spline.load_frame_3d MoreExamples.grid3d (1 # 2) (1 # 2)
       (Spline.z0 MoreExamples.frame3d) 1 1 Axis.kUndef false
     = ret (Some MoreExamples.frame3d))
  ∧ ∃ q, Spline.spline_3d_at Examples.first_node 1 1 Spline.kLinear
           Axis.kUndef false MoreExamples.grid3d
           (1 # 2, 1 # 2, Spline.z0 MoreExamples.frame3d) = ret (Fin q)
         ∧ q == 1.
Proof.
  assert (Hz : ¬ Spline.z0 MoreExamples.frame3d == Spline.z1 MoreExamples.frame3d)
    by (vm_compute; discriminate).
  assert (H0 : Examples.first_node Spline.kLinear (1 # 2) (1 # 2)
                 (Spline.plane0 MoreExamples.frame3d) = Fin 1)
    by (vm_compute; reflexivity).
  assert (H1 : Examples.first_node Spline.kLinear (1 # 2) (1 # 2)
                 (Spline.plane1 MoreExamples.frame3d) = Fin 3)
    by (vm_compute; reflexivity).
  assert (Hload : Spline.load_frame_3d MoreExamples.grid3d (1 # 2) (1 # 2)
                    (Spline.z0 MoreExamples.frame3d) 1 1 Axis.kUndef false
                  = ret (Some MoreExamples.frame3d))
    by (vm_compute; reflexivity).
  split; [by repeat split|].
  exact (proj1 (spline_3d_at_the_planes Examples.first_node 1 1 Spline.kLinear
                  Axis.kUndef false MoreExamples.grid3d (1 # 2) (1 # 2)
                  MoreExamples.frame3d 1 3 Hz (conj H0 H1)) Hload).
Defined.

(** ** The state of a box *)

(** The state of a box restores the box, and a state that is not a pair is
    refused. *)
Theorem box_state_round_trip (b : GeoState.Box) :
  GeoState.box_setstate (GeoState.box_getstate b) = inr b
  ∧ ∀ state, length state ≠ 2%nat →
      GeoState.box_setstate state = inl GeoState.RuntimeError
      ∧ GeoState.point_setstate state = inl GeoState.RuntimeError.
Proof.
  split.
  - by destruct b as [[? ?] [? ?]].
  - intros [|o0 [|o1 [|o2 state]]] Hlen; done.
Qed.

(** ** The residual of a sweep *)

Lemma stepped_refl (r : Q) (g : Matrix double) : Laws.stepped r g g.
Proof. intros i j a b Ha Hb. left. congruence. Qed.

Lemma swept_weaken (g0 : Matrix double) (U U' : Z → Z → Prop)
    (st : Fill.wstate) :
  (∀ i j, U' i j → U i j) → Laws.swept g0 U st → Laws.swept g0 U' st.
Proof.
  intros HU (r & Hr & Hpos & Hfilled & Hmoved & Hsame).
  exists r. split; [done|]. split; [done|]. split; [done|]. split; [done|].
  intros i j Hij. by apply Hsame, HU.
Qed.

Lemma filled_make (r c : Z) (q : Q) : Laws.filled (Mat.make r c (Fin q)).
Proof.
  split; [apply wf_make|]. intros i j. rewrite rows_make, cols_make.
  intros Hi Hj. exists q. by apply get_make.
Qed.

Section Residual.
Context (mask : Matrix bool) (is_circle : bool) (w : Q).

(** [cell_fill] on a pixel that the worker did not modify yet. *)
Lemma swept_cell_fill (g0 : Matrix double) (U : Z → Z → Prop)
    (ix0 ix ix1 iy0 iy iy1 : Z) (st : Fill.wstate) :
  Laws.swept g0 U st → U ix iy →
  Laws.swept g0 (λ i j, U i j ∧ (i, j) ≠ (ix, iy))
    (Fill.cell_fill (Fin w) ix0 ix ix1 iy0 iy iy1 st).
Proof.
  destruct st as [g R].
  intros (r & Hr & Hpos & Hfilled & Hmoved & Hsame) HU.
  cbn [fst snd] in *. subst R.
  assert (Hnoop : Laws.swept g0 (λ i j, U i j ∧ (i, j) ≠ (ix, iy)) (g, Fin r)).
  { exists r. split; [done|]. split; [done|]. split; [done|]. split; [done|].
    intros i j [Hij _]. by apply Hsame. }
  unfold Fill.cell_fill.
  destruct (Mat.get g ix0 iy) as [a|] eqn:Ha; [|done].
  destruct (Mat.get g ix1 iy) as [b|] eqn:Hb; [|done].
  destruct (Mat.get g ix iy0) as [c|] eqn:Hc; [|done].
  destruct (Mat.get g ix iy1) as [d|] eqn:Hd; [|done].
  destruct (Mat.get g ix iy) as [v|] eqn:Hv; [|done].
  destruct (filled_get g _ _ _ Hfilled Ha) as [qa ->].
  destruct (filled_get g _ _ _ Hfilled Hb) as [qb ->].
  destruct (filled_get g _ _ _ Hfilled Hc) as [qc ->].
  destruct (filled_get g _ _ _ Hfilled Hd) as [qd ->].
  destruct (filled_get g _ _ _ Hfilled Hv) as [qv ->].
  destruct (proj1 (proj1 Hfilled ix iy) (mk_is_Some _ _ Hv)) as [Hix Hiy].
  cbn [Double.add Double.sub Double.mul Double.lift2 Double.fabs Double.lift1].
  set (residual := ((1 # 4) * (qa + qb + qc + qd) - qv) * w).
  set (r' := Double.max (Fin r) (Fin (Qabs residual))).
  assert (Hr' : ∃ q, r' = Fin q ∧ r <= q ∧ Qabs residual <= q).
  { unfold r', Double.max, Double.ltb.
    destruct (negb (Qle_bool (Qabs residual) r)) eqn:E.
    - apply Qlt_not_le_bool in E. exists (Qabs residual).
      split; [done|]. split; [by apply Qlt_le_weak|apply Qle_refl].
    - apply negb_false_iff, Qle_bool_iff in E. exists r.
      split; [done|]. split; [apply Qle_refl|done]. }
  destruct Hr' as (q & -> & Hrq & Hres).
  exists q. cbn [fst snd]. split; [done|].
  split; [by apply Qle_trans with r|]. split; [by apply filled_set|].
  split.
  - intros i j x y Hx Hy.
    destruct (decide ((ix, iy) = (i, j))) as [[= <- <-]|Hne].
    + rewrite get_set_eq in Hy by done.
      rewrite <- (Hsame ix iy HU), Hv in Hx.
      assert (x = qv) as -> by congruence.
      assert (y = qv + residual) as -> by congruence.
      right. by exists residual.
    + rewrite get_set_ne in Hy by done.
      destruct (Hmoved i j x y Hx Hy) as [->|(res & -> & Hle)]; [by left|].
      right. exists res. split; [done|]. by apply Qle_trans with r.
  - intros i j [Hij Hne]. rewrite get_set_ne by congruence. by apply Hsame.
Qed.

(** The strip [iy], none of its pixels modified yet. *)
Lemma swept_strip (g0 : Matrix double) (U : Z → Z → Prop)
    (x_size y_size iy : Z) (st : Fill.wstate) :
  Laws.swept g0 U st → (∀ i, U i iy) →
  Laws.swept g0 (λ i j, U i j ∧ j ≠ iy)
    (Fill.strip mask is_circle (Fin w) x_size y_size iy st).
Proof.
  intros Hst HU. unfold Fill.strip. cbn zeta.
  set (iy0 := if bool_decide (iy = 0%Z) then _ else _).
  set (iy1 := if bool_decide (iy = (y_size - 1)%Z) then _ else _).
  set (inner := for_range _ _ _ st).
  assert (Hinner : Laws.swept g0
            (λ i j, U i j ∧ (j ≠ iy ∨ i < 1 ∨ x_size - 1 ≤ i)%Z) inner).
  { unfold inner. destruct (decide (1 ≤ x_size - 1)%Z) as [Hle|Hgt].
    2: { rewrite for_range_nil by lia.
         apply (swept_weaken g0 U); [|done]. by intros i j [? _]. }
    apply (for_range_ind
             (λ ix' st', Laws.swept g0
                (λ i j, U i j ∧ (j ≠ iy ∨ i < 1 ∨ ix' ≤ i)%Z) st')); [done| |].
    - apply (swept_weaken g0 U); [|done]. by intros i j [? _].
    - intros ix st' Hix Hst'. destruct (Fill.masked mask ix iy).
      + eapply swept_weaken; [|apply swept_cell_fill; [exact Hst'|]].
        * intros i j [Hij Hor]. cbn beta. split; [split; [done|lia]|].
          intros [= -> ->]. lia.
        * split; [apply HU|lia].
      + eapply swept_weaken; [|exact Hst']. intros i j [Hij Hor].
        cbn beta. split; [done|lia]. }
  set (left_edge := if Fill.masked mask 0 iy then _ else inner).
  assert (Hleft : Laws.swept g0
            (λ i j, U i j ∧ (j ≠ iy ∨ i < 0 ∨ (x_size - 1 ≤ i ∧ i ≠ 0))%Z)
            left_edge).
  { unfold left_edge. destruct (Fill.masked mask 0 iy).
    - eapply swept_weaken; [|apply swept_cell_fill; [exact Hinner|]].
      + intros i j [Hij Hor]. cbn beta. split; [split; [done|lia]|].
        intros [= -> ->]. lia.
      + split; [apply HU|lia].
    - eapply swept_weaken; [|exact Hinner]. intros i j [Hij Hor].
      cbn beta. split; [done|lia]. }
  destruct (Fill.masked mask (x_size - 1) iy).
  2: { eapply swept_weaken; [|exact Hleft]. intros i j [Hij Hne].
       cbn beta. split; [done|lia]. }
  destruct (decide (x_size - 1 = 0)%Z) as [Hone|Hmore].
  - (* a single row: the pixel on the left of the edge is out of the grid *)
    destruct left_edge as [g R].
    assert (Hout : Mat.get g (x_size - 2) iy = None).
    { destruct Hleft as (r & _ & _ & [Hwf _] & _). cbn [fst] in Hwf.
      destruct (Mat.get g (x_size - 2) iy) as [v|] eqn:Hv; [|done].
      destruct (proj1 (Hwf _ _) (mk_is_Some _ _ Hv)). lia. }
    unfold Fill.cell_fill. rewrite Hout.
    eapply swept_weaken; [|exact Hleft]. intros i j [Hij Hne].
    cbn beta. split; [done|lia].
  - eapply swept_weaken; [|apply swept_cell_fill; [exact Hleft|]].
    + intros i j [Hij Hne]. cbn beta. split; [split; [done|lia]|].
      intros [= -> ->]. lia.
    + split; [apply HU|lia].
Qed.

(** A worker: its residual bounds the residual added to any pixel, no pixel
    received two, and the strips out of its range are as it found them. *)
Lemma swept_worker (y_start y_end : Z) (grid : Matrix double) :
  Laws.filled grid →
  Laws.swept grid (λ _ j, ¬ (y_start ≤ j < y_end)%Z)
    (Fill.worker mask is_circle (Fin w) y_start y_end grid).
Proof.
  intros Hg. unfold Fill.worker.
  assert (Hinit : ∀ U, Laws.swept grid U (grid, Fin 0)).
  { intros U. exists 0. split; [done|]. split; [apply Qle_refl|].
    split; [done|]. split; [apply stepped_refl|done]. }
  destruct (decide (y_start ≤ y_end)%Z) as [Hle|Hgt].
  2: { rewrite for_range_nil by lia. apply Hinit. }
  eapply swept_weaken;
    [|apply (for_range_ind
               (λ iy' st, Laws.swept grid
                  (λ (_ j : Z), (j < y_start ∨ iy' ≤ j)%Z) st)); [done| |]].
  - intros i j Hj. cbn beta. lia.
  - apply Hinit.
  - intros iy st Hiy Hst.
    eapply swept_weaken; [|apply swept_strip; [exact Hst|]].
    + intros i j Hj. cbn beta. lia.
    + intros i. cbn beta. lia.
Qed.
End Residual.

(** The largest of residuals that are numbers. *)
Lemma max_element_bounds (rs : list double) :
  rs ≠ [] → (∀ x, x ∈ rs → ∃ r, x = Fin r ∧ 0 <= r) →
  ∃ m, Fill.max_element rs = Fin m ∧ 0 <= m ∧ ∀ r, Fin r ∈ rs → r <= m.
Proof.
  destruct rs as [|x rs]; [done|]. intros _ Hall. cbn [Fill.max_element].
  destruct (Hall x) as (r0 & -> & Hr0); [apply list_elem_of_here|].
  assert (Hfold : ∀ (l : list double) (m0 : Q),
            (∀ x, x ∈ l → ∃ r, x = Fin r ∧ 0 <= r) →
            ∃ m, foldl Double.max (Fin m0) l = Fin m ∧ m0 <= m
                 ∧ ∀ r, Fin r ∈ l → r <= m).
  { induction l as [|y l IH]; intros m0 Hl.
    - exists m0. split; [done|]. split; [apply Qle_refl|].
      intros r Hr. by apply elem_of_nil in Hr.
    - destruct (Hl y) as (ry & -> & _); [apply list_elem_of_here|].
      cbn [foldl]. unfold Double.max at 2, Double.ltb.
      assert (Hstep : ∃ m1, (if negb (Qle_bool ry m0) then Fin ry else Fin m0)
                            = Fin m1 ∧ m0 <= m1 ∧ ry <= m1).
      { destruct (negb (Qle_bool ry m0)) eqn:E.
        - apply Qlt_not_le_bool in E. exists ry.
          split; [done|]. split; [by apply Qlt_le_weak|apply Qle_refl].
        - apply negb_false_iff, Qle_bool_iff in E. exists m0.
          split; [done|]. split; [apply Qle_refl|done]. }
      destruct Hstep as (m1 & -> & Hm0 & Hry).
      destruct (IH m1) as (m & Hm & Hm1 & Hrest).
      { intros x Hx. apply Hl. by apply list_elem_of_further. }
      exists m. split; [done|]. split; [by apply Qle_trans with m1|].
      intros r Hr. apply elem_of_cons in Hr as [[= ->]|Hr].
      + by apply Qle_trans with m1.
      + by apply Hrest. }
  destruct (Hfold rs r0) as (m & Hm & Hr0m & Hrest).
  { intros y Hy. apply Hall. by apply list_elem_of_further. }
  exists m. split; [done|]. split; [by apply Qle_trans with r0|].
  intros r Hr. apply elem_of_cons in Hr as [[= ->]|Hr]; [done|by apply Hrest].
Qed.

Lemma launch_holders_none (n : nat) (start shift iy : Z) :
  (shift ≤ 0)%Z → Laws.holders iy (Fill.launch n start shift).1 = O.
Proof.
  intros Hshift. revert start. induction n as [|n IH]; intros start; [done|].
  cbn [Fill.launch]. specialize (IH (start + shift)%Z).
  destruct (Fill.launch n (start + shift) shift) as [l last].
  cbn [fst] in *. rewrite holders_cons, IH. cbn [fst snd].
  rewrite bool_decide_eq_false_2 by lia. done.
Qed.

(** No strip is given to two threads. *)
Lemma thread_ranges_apart (num_threads : nat) (y_size iy : Z) :
  (Laws.holders iy (Fill.thread_ranges num_threads y_size) ≤ 1)%nat.
Proof.
  unfold Fill.thread_ranges.
  set (shift := (y_size `div` Z.of_nat num_threads)%Z).
  pose proof (launch_holders (num_threads - 1) 0 shift iy) as Hpos.
  pose proof (launch_holders_none (num_threads - 1) 0 shift iy) as Hneg.
  destruct (launch_spec (num_threads - 1) 0 shift) as [Hlast _].
  destruct (Fill.launch (num_threads - 1) 0 shift) as [l last].
  cbn [fst snd] in *. subst last.
  rewrite holders_app, holders_cons. cbn [fst snd Laws.holders filter length].
  destruct (decide (0 ≤ shift)%Z) as [Hshift|Hshift].
  - rewrite Hpos by done. clear Hpos Hneg.
    generalize (Z.of_nat (num_threads - 1) * shift)%Z. intros e.
    repeat case_bool_decide; cbn; lia.
  - rewrite Hneg by lia. clear Hpos Hneg. case_bool_decide; cbn; lia.
Qed.

Section Sweep.
Context (mask : Matrix bool) (is_circle : bool) (w : Q).

(** The workers of ranges that share no strip, one after the other. *)
Lemma joined_workers (g0 : Matrix double) (todo done : list (Z * Z))
    (st : Matrix double * list double) :
  Laws.joined g0 done st →
  (∀ j, (Laws.holders j (done ++ todo) ≤ 1)%nat) →
  Laws.joined g0 (done ++ todo)
    (foldl (λ '(grid, rs) '(y_start, y_end),
              let '(grid, r) := Fill.worker mask is_circle (Fin w) y_start y_end grid in
              (grid, rs ++ [r]))
           st todo).
Proof.
  revert done st. induction todo as [|[a b] todo IH]; intros done [g rs] Hst Hapart.
  - by rewrite app_nil_r.
  - cbn [foldl].
    destruct Hst as (Hfilled & Hlen & Hrs & Hsame & Hmoved). cbn [fst snd] in *.
    pose proof (swept_worker mask is_circle w a b g Hfilled) as Hw.
    destruct (Fill.worker mask is_circle (Fin w) a b g) as [g' R].
    destruct Hw as (r & HR & Hr & Hfilled' & Hmoved' & Hsame').
    cbn [fst snd] in *. subst R.
    replace (done ++ (a, b) :: todo) with ((done ++ [(a, b)]) ++ todo)
      by (by rewrite <- app_assoc).
    apply IH; [|by rewrite <- app_assoc].
    assert (Hfree : ∀ j, (a ≤ j < b)%Z → Laws.holders j done = O).
    { intros j Hj. specialize (Hapart j).
      rewrite holders_app, holders_cons in Hapart. cbn [fst snd] in Hapart.
      rewrite bool_decide_eq_true_2 in Hapart by done. lia. }
    split; [done|]. cbn [fst snd].
    split; [rewrite !length_app; cbn; lia|]. split; [|split].
    + intros x Hx. apply elem_of_app in Hx as [Hx|Hx]; [by apply Hrs|].
      apply list_elem_of_singleton in Hx as ->. by exists r.
    + intros i j Hj. rewrite holders_app, holders_cons in Hj.
      cbn [fst snd Laws.holders filter length] in Hj.
      case_bool_decide as Hab; [cbn in Hj; lia|].
      rewrite Hsame' by done. apply Hsame. lia.
    + intros i j x y Hx Hy.
      destruct (decide (a ≤ j < b)%Z) as [Hj|Hj].
      * rewrite <- (Hsame i j (Hfree j Hj)) in Hx.
        destruct (Hmoved' i j x y Hx Hy) as [->|(res & -> & Hle)]; [by left|].
        right. exists res, r.
        split; [apply elem_of_app; right; apply list_elem_of_here|done].
      * rewrite (Hsame' i j Hj) in Hy.
        destruct (Hmoved i j x y Hx Hy) as [->|(res & r' & Hr' & -> & Hle)];
          [by left|].
        right. exists res, r'. split; [|done]. apply elem_of_app. by left.
Qed.

(** The sweep on exact values: every pixel is left as it was or received
    one residual, of a magnitude that is at most the residual returned. *)
Lemma sweep_stepped (grid : Matrix double) (num_threads : nat) :
  Laws.filled grid →
  ∃ r, (Fill.poisson_grid_fill grid mask is_circle (Fin w) num_threads).2 = Fin r
    ∧ 0 <= r
    ∧ Laws.stepped r grid
        (Fill.poisson_grid_fill grid mask is_circle (Fin w) num_threads).1.
Proof.
  intros Hg. unfold Fill.poisson_grid_fill. cbn zeta.
  destruct (bool_decide (num_threads = 1%nat)).
  - pose proof (swept_worker mask is_circle w 0 (cols grid) grid Hg) as Hw.
    destruct (Fill.worker mask is_circle (Fin w) 0 (cols grid) grid) as [g' R].
    destruct Hw as (r & HR & Hr & _ & Hmoved & _). cbn [fst snd] in *. subst R.
    by exists r.
  - pose proof (joined_workers grid (Fill.thread_ranges num_threads (cols grid))
                  [] (grid, [])) as Hj.
    destruct (foldl _ (grid, []) _) as [g' rs].
    destruct Hj as (_ & Hlen & Hrs & _ & Hmoved).
    { split; [done|]. split; [done|]. split.
      - intros x Hx. by apply elem_of_nil in Hx.
      - split; [done|]. intros i j a b Ha Hb. left. cbn [fst] in Hb. congruence. }
    { intros j. apply thread_ranges_apart. }
    cbn [fst snd app] in *.
    destruct (max_element_bounds rs) as (m & Hm & Hpos & Hmax); [|done|].
    { intros ->. unfold Fill.thread_ranges in Hlen.
      destruct (Fill.launch _ _ _) as [l last]. rewrite length_app in Hlen.
      cbn in Hlen. lia. }
    exists m. split; [done|]. split; [done|].
    intros i j a b Ha Hb.
    destruct (Hmoved i j a b Ha Hb) as [->|(res & r & Hr & -> & Hle)]; [by left|].
    right. exists res. split; [done|].
    apply Qle_trans with r; [done|]. by apply Hmax.
Qed.

(** The residual that a sweep returns is a number that is not negative, and
    when it is zero the sweep changed nothing: every pixel has the value it
    had, with one thread or several.  A residual of zero is added to a
    pixel without changing it. *)
Theorem poisson_grid_fill_zero_residual_changes_nothing (grid : Matrix double)
    (num_threads : nat) :
  Laws.filled grid →
  ∃ r, (Fill.poisson_grid_fill grid mask is_circle (Fin w) num_threads).2 = Fin r
    ∧ 0 <= r
    ∧ (r == 0 →
       ∀ i j a b, Mat.get grid i j = Some (Fin a) →
         Mat.get (Fill.poisson_grid_fill grid mask is_circle (Fin w)
                    num_threads).1 i j = Some (Fin b) →
         b == a).
Proof.
  intros Hg. destruct (sweep_stepped grid num_threads Hg) as (r & Hr & Hpos & Hstep).
  exists r. split; [done|]. split; [done|].
  intros Hzero i j a b Ha Hb.
  destruct (Hstep i j a b Ha Hb) as [->|(residual & -> & Hle)]; [reflexivity|].
  rewrite Hzero in Hle. apply Qabs_Qle_condition in Hle as [Hlo Hhi]. lra.
Qed.
End Sweep.

(** On the grid of ones the sweep returns the residual zero and the masked
    pixel keeps the value one. *)
Lemma poisson_grid_fill_zero_residual_changes_nothing_witness :
  Laws.filled MoreExamples.ones3
  ∧ (Fill.poisson_grid_fill MoreExamples.ones3 Examples.mask3 false (Fin 1) 1).2
    = Fin 0
  ∧ ∃ b, Mat.get (Fill.poisson_grid_fill MoreExamples.ones3 Examples.mask3 false
                    (Fin 1) 1).1 1 2 = Some (Fin b)
         ∧ b == 1.
Proof.
  assert (Hg : Laws.filled MoreExamples.ones3) by apply filled_make.
  split; [exact Hg|]. split; [vm_compute; reflexivity|].
  destruct (poisson_grid_fill_zero_residual_changes_nothing Examples.mask3 false 1
              MoreExamples.ones3 1 Hg) as (r & Hr & _ & Hzero).
  assert (Hr0 : r == 0).
  { vm_compute in Hr. injection Hr as <-. reflexivity. }
  eexists. split; [vm_compute; reflexivity|].
  apply (Hzero Hr0 1%Z 2%Z); [reflexivity|vm_compute; reflexivity].
Defined.
